(** * clip: a command-line argument parser for C

    A shallow embedding of [clip.c] (with the declarations of [clip.h])
    and the properties of its matching engine, argument-file loader,
    help renderer and parse loop.

    Conventions of the embedding.
    - A [char *] is a [string]: the bytes of the buffer up to, and not
      including, the terminating NUL the C runtime puts at its end.  A
      buffer may hold a NUL before its end (the parser writes one over
      the [=] of a long option); every C string function therefore reads
      a buffer up to its first NUL only.
    - [int] and [unsigned] values are [Z]; lengths and array indices met
      while walking a string are [nat].
    - The platform is x86-64 with the System V ABI and the GNU C library.
      Plain [char] is signed: read as an [int], a byte above 127 is
      negative ([char_int]).  [isalnum] answers from a table that covers
      -128 to 255, so it answers, with false, for every byte of a string;
      outside that range it reads outside the table ([isalnum_int]).
    - Where the behaviour of a step is undefined (a null pointer handed to
      [strlen], [strcpy] or [fprintf], [isalnum] outside its table), the
      model gives no value: [None], [CmdUndefined] or [Undefined].
    - A sentinel-terminated table is the [list] of its entries; the end of
      the list stands for the terminating entry, and a scan also stops at
      an entry that looks like the terminator, as the C loops do.
    - A pointer to a sub-command is a [cmd_ref]; a null pointer is [None]. *)

From Stdlib Require Import ZArith String Ascii List Bool Lia.
From stdpp Require Import base option list strings.
Import ListNotations.

Local Open Scope string_scope.
Local Open Scope Z_scope.
Local Open Scope list_scope.

(** ** C strings *)

Module CStr.

Definition NUL : ascii := Ascii.zero.

(** The value of a byte, from 0 to 255. *)
Definition code (c : ascii) : Z := Z.of_nat (nat_of_ascii c).

(** The value of a plain [char] read as an [int]: from -128 to 127. *)
Definition char_int (c : ascii) : Z :=
  if 128 <=? code c then code c - 256 else code c.

(** [isalnum] of the C locale, where it answers.  No byte above 127 is
    alphanumeric there, whether it is read as [code] or as [char_int]. *)
Definition isalnum (c : Z) : bool :=
  ((48 <=? c) && (c <=? 57)) || ((65 <=? c) && (c <=? 90))
  || ((97 <=? c) && (c <=? 122)).

(** [isalnum(v)] for an [int] that need not come from a string.  The C
    standard defines it for [EOF] and the values of an [unsigned char];
    the table of the C library also covers the negative values of a plain
    [char].  For any other value the call is undefined. *)
Definition isalnum_int (v : Z) : option bool :=
  if (-128 <=? v) && (v <=? 255) then Some (isalnum v) else None.

(** The C string held by a buffer: its bytes before the first NUL. *)
Fixpoint cstr (s : string) : string :=
  match s with
  | EmptyString => EmptyString
  | String c r => if Ascii.eqb c NUL then EmptyString else String c (cstr r)
  end.

Definition strlen (s : string) : nat := String.length (cstr s).

(** [s[i]]; the byte after the last one of the buffer is the NUL. *)
Definition char_at (s : string) (i : nat) : ascii :=
  match String.get i s with
  | Some c => c
  | None => NUL
  end.

(** [&s[i]]. *)
Fixpoint ptr_add (s : string) (i : nat) {struct i} : string :=
  match i, s with
  | O, _ => s
  | S i', String _ r => ptr_add r i'
  | S _, EmptyString => EmptyString
  end.

(** [strchr(s, c)] for a non-NUL [c]: the offset of the first [c] of the
    C string, if any. *)
Fixpoint strchr (s : string) (c : ascii) : option nat :=
  match s with
  | EmptyString => None
  | String d r =>
      if Ascii.eqb d NUL then None
      else if Ascii.eqb d c then Some O
      else option_map S (strchr r c)
  end.

(** [s[i] = c]. *)
Fixpoint poke (s : string) (i : nat) (c : ascii) : string :=
  match s, i with
  | EmptyString, _ => EmptyString
  | String _ r, O => String c r
  | String d r, S i' => String d (poke r i' c)
  end.

(** [memcmp(a, b, n) == 0]. *)
Fixpoint memcmp (a b : string) (n : nat) : bool :=
  match n with
  | O => true
  | S n' =>
      Ascii.eqb (char_at a 0) (char_at b 0)
      && memcmp (ptr_add a 1) (ptr_add b 1) n'
  end.

(** The text [fprintf] writes for a [%.*s] conversion of precision [n]. *)
Fixpoint take_str (n : nat) (s : string) : string :=
  match n, s with
  | O, _ => EmptyString
  | S n', String c r => String c (take_str n' r)
  | S _, EmptyString => EmptyString
  end.

End CStr.
Import CStr.

(** ** Descriptor model ([clip.h]) *)

Definition CLIP_BUFFER_SIZE : nat := 1024.

Definition CLIP_ERR_HELP : Z := 1.
Definition CLIP_ERR_OK : Z := 0.
Definition CLIP_ERR_INVALID : Z := -1.
Definition CLIP_ERR_CB_FAIL : Z := -2.
Definition CLIP_ERR_BAD_SUBCMD : Z := -3.
Definition CLIP_ERR_BAD_ARG : Z := -4.

Definition CLIP_FLAG_HELP : Z := 1.
Definition CLIP_FLAG_VERSION : Z := 2.
Definition CLIP_FLAG_USE_ANSI : Z := 4.

Definition ARG_REQD : Z := 1.
Definition ARG_ANYK : Z := 2.

(** [struct cli_opt]. *)
Record cli_opt := CLI_OPT_GENERIC {
  a_short : Z;
  a_long : option string;
  tag : option string;
  mode : Z;
  help : option string
}.

Definition CLI_OPT_SWITCH (s : Z) (l : option string) (h : option string) :=
  CLI_OPT_GENERIC s l None 0 h.
Definition CLI_OPT_VALUE (s : Z) (l : option string) (t h : option string) :=
  CLI_OPT_GENERIC s l t 1 h.
Definition CLI_OPT_NARGS (t h : option string) :=
  CLI_OPT_GENERIC 0 None t 2 h.
Definition CLI_OPT_END := CLI_OPT_GENERIC 0 None None 0 None.

(** [struct cli_sub_cmd]; [opts] is the table [opts] points to. *)
Record cli_sub_cmd := CLI_CMD {
  name : option string;
  opts : list cli_opt
}.

(** A pointer to a sub-command: to [*clip->base] or to [clip->cmds[i]]. *)
Inductive cmd_ref := Base | Sub (i : nat).

(** A stream. *)
Inductive FILE := stdout | stderr | stream (fd : nat).

(** One invocation of the call-back: its [cmd], [arg] and [value]
    arguments ([clip] is always the context being parsed). *)
Record cb_call := CbCall {
  cb_cmd : option cmd_ref;
  cb_opt : option cli_opt;
  cb_value : option string
}.

(** [struct clip].  [usr] is never read by the parser and is left out.
    The call-back is user code: the model gives it the invocations it has
    already received in this run, oldest first, and the present one. *)
Record clip := Clip {
  flags : Z;
  progname : string;
  header : option string;
  footer : option string;
  version : option string;
  base : option cli_sub_cmd;
  cmds : option (list cli_sub_cmd);
  cb : list cb_call -> cb_call -> Z;
  out : option FILE;
  index : Z;
  live : option cmd_ref
}.

Definition is_none {A} (o : option A) : bool :=
  match o with None => true | Some _ => false end.

Definition IS_OPT_END (opt : cli_opt) : bool :=
  (a_short opt =? 0) && is_none (a_long opt) && is_none (tag opt)
  && (mode opt =? 0) && is_none (help opt).

Definition has_flag (f m : Z) : bool := negb (Z.land f m =? 0).

Definition FLAGS_HAS_AUTO (f : Z) : bool :=
  has_flag f CLIP_FLAG_HELP || has_flag f CLIP_FLAG_VERSION.

Definition IS_SHORT_OPT (v : string) : bool :=
  Ascii.eqb (char_at v 0) "-" && isalnum (code (char_at v 1)).

Definition IS_LONG_OPT (v : string) : bool :=
  Ascii.eqb (char_at v 0) "-" && Ascii.eqb (char_at v 1) "-"
  && isalnum (code (char_at v 2)).

Definition IS_DOUBLE_DASH (v : string) : bool :=
  Ascii.eqb (char_at v 0) "-" && Ascii.eqb (char_at v 1) "-"
  && Ascii.eqb (char_at v 2) NUL.

(** ** Matching engine *)

(** The sub-command a pointer points to. *)
Definition deref (c : clip) (p : option cmd_ref) : option cli_sub_cmd :=
  match p with
  | None => None
  | Some Base => base c
  | Some (Sub i) =>
      match cmds c with
      | Some l => l !! i
      | None => None
      end
  end.

(** The value of [clip->base] as a pointer. *)
Definition base_ptr (c : clip) : option cmd_ref :=
  match base c with
  | Some _ => Some Base
  | None => None
  end.

Definition ptr_eqb (p q : option cmd_ref) : bool :=
  match p, q with
  | None, None => true
  | Some Base, Some Base => true
  | Some (Sub i), Some (Sub j) => Nat.eqb i j
  | _, _ => false
  end.

(** The loop of [cli__find_any]. *)
Fixpoint find_any_from (l : list cli_opt) : option cli_opt :=
  match l with
  | [] => None
  | opt :: rest =>
      if IS_OPT_END opt then None
      else if negb (Z.land (mode opt) ARG_ANYK =? 0) then Some opt
      else find_any_from rest
  end.

Definition cli__find_any (cmd : option cli_sub_cmd) : option cli_opt :=
  match cmd with
  | None => None
  | Some g => find_any_from (opts g)
  end.

(** What the scan of [cli__find_cmd] comes to: a pointer to
    [clip->cmds[i]], a null pointer, or [strlen] of a null name. *)
Inductive cmd_scan := CmdAt (i : nat) | CmdNone | CmdUndefined.

(** The loop of [cli__find_cmd]; [i] is the position of the head of [l]
    in [clip->cmds].  An entry of the table without a name is not the
    terminator (its [opts] is set), and the loop calls [strlen] on its
    name: the scan is undefined there. *)
Fixpoint find_cmd_from (l : list cli_sub_cmd) (i : nat) (nm : string)
  : cmd_scan :=
  match l with
  | [] => CmdNone
  | cmd :: rest =>
      match name cmd with
      | Some cn =>
          if Nat.eqb (strlen nm) (strlen cn) && memcmp cn nm (strlen nm)
          then CmdAt i
          else find_cmd_from rest (S i) nm
      | None => CmdUndefined
      end
  end.

Definition cli__find_cmd (c : clip) (nm : string) : cmd_scan :=
  match cmds c with
  | None => CmdNone
  | Some l => find_cmd_from l 0 nm
  end.

(** The loop of [cli__find_opt_0]. *)
Fixpoint find_opt_from (l : list cli_opt) (str : string) : option cli_opt :=
  match l with
  | [] => None
  | opt :: rest =>
      if IS_OPT_END opt then None
      else if negb (Z.land (mode opt) ARG_ANYK =? 0) then find_opt_from rest str
      else if Nat.eqb (strlen str) 1
              && (char_int (char_at str 0) =? a_short opt)
      then Some opt
      else
        match a_long opt with
        | Some al =>
            if Nat.ltb 1 (strlen str) && Nat.eqb (strlen str) (strlen al)
               && memcmp str al (strlen str)
            then Some opt
            else find_opt_from rest str
        | None => find_opt_from rest str
        end
  end.

Definition cli__find_opt_0 (cmd : option cli_sub_cmd) (str : string)
  : option cli_opt :=
  match cmd with
  | None => None
  | Some g => find_opt_from (opts g) str
  end.

(** [cli__find_opt]: the descriptor and [*whence]. *)
Definition cli__find_opt (c : clip) (cmd : option cmd_ref) (str : string)
  : option (cli_opt * option cmd_ref) :=
  match cli__find_opt_0 (deref c cmd) str with
  | Some opt => Some (opt, cmd)
  | None =>
      if negb (ptr_eqb cmd (base_ptr c)) then
        match cli__find_opt_0 (base c) str with
        | Some opt => Some (opt, base_ptr c)
        | None => None
        end
      else None
  end.

(** ** The parser's surroundings *)

(** What a run of the parser reads and writes besides [struct clip]:
    the argument buffers [argv] points to, the library's own writable
    descriptor [def_version], the files [fopen] can open for reading
    (a path to its bytes), the text written to each stream, in order, and
    the call-back invocations made so far, oldest first. *)
Record world := World {
  argv : list string;
  def_version : cli_opt;
  files : string -> option string;
  written : list (FILE * string);
  calls : list cb_call
}.

Definition set_argv (w : world) (a : list string) : world :=
  World a (def_version w) (files w) (written w) (calls w).

Definition set_def_version (w : world) (d : cli_opt) : world :=
  World (argv w) d (files w) (written w) (calls w).

(** [fprintf(f, ...)] of the text [s]. *)
Definition emit (f : FILE) (s : string) (w : world) : world :=
  World (argv w) (def_version w) (files w) (written w ++ [(f, s)]) (calls w).

(** The call-back has been invoked with [k]. *)
Definition record_call (k : cb_call) (w : world) : world :=
  World (argv w) (def_version w) (files w) (written w) (calls w ++ [k]).

(** [clip->cb(clip, cmd, opt, val)]: the call-back's return value, and
    the invocation recorded. *)
Definition invoke (c : clip) (k : cb_call) (w : world) : Z * world :=
  (cb c (calls w) k, record_call k w).

Definition set_index (c : clip) (i : Z) : clip :=
  Clip (flags c) (progname c) (header c) (footer c) (version c) (base c)
       (cmds c) (cb c) (out c) i (live c).

Definition set_live (c : clip) (l : option cmd_ref) : clip :=
  Clip (flags c) (progname c) (header c) (footer c) (version c) (base c)
       (cmds c) (cb c) (out c) (index c) l.

(** ** Text *)

Definition ESC : string := String (ascii_of_nat 27) EmptyString.
Definition LF : string := String (ascii_of_nat 10) EmptyString.
Definition TAB : string := String (ascii_of_nat 9) EmptyString.

Definition ANSI_END : string := ESC +:+ "[0m".
Definition ANSI_PROG : string := ESC +:+ "[1m" +:+ ESC +:+ "[1;37m".
Definition ANSI_SUBTITLE : string := ESC +:+ "[2m" +:+ ESC +:+ "[1;37m".
Definition ANSI_CMD : string := ESC +:+ "[1;32m".
Definition ANSI_OPT : string := ESC +:+ "[1;34m".
Definition ANSI_ANY : string := ESC +:+ "[1;33m".
Definition ANSI_ERR : string := ESC +:+ "[0;31m".

(** An optional piece of text: nothing when the pointer is null. *)
Definition opt_text (o : option string) : string :=
  match o with
  | Some s => cstr s
  | None => EmptyString
  end.

(** [(clip->flags & CLIP_FLAG_USE_ANSI) != 0 ? colour : NULL]. *)
Definition colour_of (c : clip) (colour : string) : option string :=
  if has_flag (flags c) CLIP_FLAG_USE_ANSI then Some colour else None.

(** [cli__puts] with [n = 0], the only way the source calls it. *)
Definition cli__puts (colour pfx sfx : option string) (str : string)
  : string :=
  opt_text colour +:+ opt_text pfx +:+ cstr str +:+ opt_text sfx
  +:+ (match colour with Some _ => ANSI_END | None => EmptyString end).

(** [cli_bad_arg]. *)
Definition cli_bad_arg (f : FILE) (fl : Z) (tg : Z) (pfx key : string)
  (w : world) : world :=
  let ansi := has_flag fl CLIP_FLAG_USE_ANSI in
  emit f
    (pfx +:+ " "
     +:+ (if ansi then ANSI_ERR else EmptyString)
     +:+ (if tg =? 3 then "@"
          else if tg =? 2 then "--"
          else if tg =? 1 then "-"
          else EmptyString)
     +:+ cstr key
     +:+ (if ansi then ANSI_END else EmptyString)
     +:+ LF) w.

(** ** Help/usage renderer

    The renderer hands some pointers to [fprintf] and [strcpy] without a
    null check.  Where one of them is null the C standard leaves the
    behaviour undefined; the functions below then give [None]. *)

Definition is_blank (ch : ascii) : bool :=
  Ascii.eqb ch " " || Ascii.eqb ch (ascii_of_nat 9).

(** The loop of [cli__put_text].  [chars] is [p], the rest of the text at
    offset [i]; [last], [sp] and [nl] are offsets into [text]; the result
    is the final [nl] and the lines written. *)
Fixpoint put_text_from (text chars : string) (i : nat)
  (last sp : option nat) (nl : nat) (acc : string)
  : option (nat * string) :=
  match chars with
  | EmptyString => Some (nl, acc)
  | String ch rest =>
      if negb (is_blank ch) then put_text_from text rest (S i) last sp nl acc
      else
        let last' := sp in
        if (78 <? Z.of_nat i - Z.of_nat nl) || (Z.of_nat i - Z.of_nat nl <? 0)
        then
          match last' with
          | None => None
          | Some l =>
              let n := Z.of_nat l - Z.of_nat nl in
              let line :=
                if n <? 0 then ptr_add text nl
                else take_str (Z.to_nat n) (ptr_add text nl) in
              put_text_from text rest (S i) last' (Some i) (S l)
                (acc +:+ "  " +:+ line +:+ LF)
          end
        else put_text_from text rest (S i) last' (Some i) nl acc
  end.

Definition cli__put_text (text : string) : option string :=
  let t := cstr text in
  '(nl, acc) ← put_text_from t t 0 None None 0 EmptyString;
  Some (if Nat.ltb nl (String.length t)
        then acc +:+ "  " +:+ ptr_add t nl +:+ LF
        else acc).

(** [cli__put_opt]. *)
Definition cli__put_opt (is_ansi : bool) (opt : cli_opt) : option string :=
  head ←
    (if mode opt =? ARG_ANYK then
       t ← tag opt;
       Some ((if is_ansi then ANSI_ANY else EmptyString)
             +:+ cstr t +:+ "..."
             +:+ (if is_ansi then ANSI_END else EmptyString))
     else
       alnum ← isalnum_int (a_short opt);
       Some ((if is_ansi then ANSI_OPT else EmptyString)
             +:+ (if alnum : bool then
                    "-" +:+ String (ascii_of_nat (Z.to_nat (a_short opt)))
                                   EmptyString
                    +:+ (match tag opt with
                         | Some t => " " +:+ cstr t
                         | None => EmptyString
                         end)
                    +:+ (match a_long opt with
                         | Some _ => ", "
                         | None => EmptyString
                         end)
                  else EmptyString)
             +:+ (match a_long opt with
                  | Some al =>
                      "--" +:+ cstr al
                      +:+ (match tag opt with
                           | Some t => "=" +:+ cstr t
                           | None => EmptyString
                           end)
                  | None => EmptyString
                  end)
             +:+ (if is_ansi then ANSI_END else EmptyString)));
  match help opt with
  | None => Some (head +:+ LF)
  | Some h =>
      body ← cli__put_text h;
      Some (head +:+ LF +:+ body)
  end.

Definition def_help_base : cli_opt :=
  CLI_OPT_SWITCH 104 (Some "help") (Some "Show help message.").

Definition def_version_init : cli_opt :=
  CLI_OPT_SWITCH 118 (Some "version")
    (Some "Show version and if available, copyright information.").

Definition def_help_cmds : cli_opt :=
  CLI_OPT_SWITCH 104 (Some "help")
    (Some ("Show help message. If this option is used along with a sub-command, "
           +:+ "then a help message specific to that sub-command is shown.")).

(** The sub-command listing loop of [cli_summary]. *)
Fixpoint put_sub_cmds (c : clip) (l : list cli_sub_cmd) : option string :=
  match l with
  | [] => Some EmptyString
  | sub :: rest =>
      n ← name sub;
      more ← put_sub_cmds c rest;
      Some (cli__puts (colour_of c ANSI_CMD) (Some TAB) (Some LF) n +:+ more)
  end.

(** The option listing loop of [cli_summary]. *)
Fixpoint put_opts (is_ansi : bool) (l : list cli_opt) : option string :=
  match l with
  | [] => Some EmptyString
  | opt :: rest =>
      if IS_OPT_END opt then Some EmptyString
      else
        match help opt with
        | None => put_opts is_ansi rest
        | Some _ =>
            t ← cli__put_opt is_ansi opt;
            more ← put_opts is_ansi rest;
            Some (t +:+ more)
        end
  end.

Definition set_a_short (o : cli_opt) (v : Z) : cli_opt :=
  CLI_OPT_GENERIC v (a_long o) (tag o) (mode o) (help o).

(** The "Default Options" part of [cli_summary]: its text and the value
    [def_version] is left with. *)
Definition put_default_options (c : clip) (at_base : bool) (dv : cli_opt)
  : option (string * cli_opt) :=
  let ansi := has_flag (flags c) CLIP_FLAG_USE_ANSI in
  if FLAGS_HAS_AUTO (flags c) then
    let title := cli__puts (colour_of c ANSI_SUBTITLE) (Some LF) (Some LF)
                   "Default Options:" in
    th ←
      (if has_flag (flags c) CLIP_FLAG_HELP then
         cli__put_opt ansi (if at_base then def_help_cmds else def_help_base)
       else Some EmptyString);
    if has_flag (flags c) CLIP_FLAG_VERSION then
      let dv' := match cli__find_opt_0 (base c) "v" with
                 | Some _ => set_a_short dv 0
                 | None => dv
                 end in
      tv ← cli__put_opt ansi dv';
      Some (title +:+ th +:+ tv, dv')
    else Some (title +:+ th, dv)
  else Some (EmptyString, dv).

(** [cli_summary(clip, cmd)]: the text written to the stream and the
    value [def_version] is left with, or [None] where the C is undefined. *)
Definition cli_summary_text (c : clip) (cmd0 : option cmd_ref)
  (dv : cli_opt) : option (string * cli_opt) :=
  let cmd := match cmd0 with None => base_ptr c | Some _ => cmd0 end in
  let ansi := has_flag (flags c) CLIP_FLAG_USE_ANSI in
  let any := cli__find_any (deref c cmd) in
  let at_base := ptr_eqb cmd (base_ptr c) && negb (is_none (cmds c)) in
  let t1 := "Usage: " +:+ cli__puts (colour_of c ANSI_PROG) None None (progname c) in
  let t2 := if at_base
            then cli__puts (colour_of c ANSI_CMD) None None " [COMMAND]"
            else EmptyString in
  t3 ←
    match cmd with
    | None => Some EmptyString
    | Some _ =>
        g ← deref c cmd;
        n ← name g;
        if Nat.ltb (CLIP_BUFFER_SIZE - 2) (strlen n) then None
        else Some (cli__puts (colour_of c ANSI_OPT) (Some (" " +:+ cstr n))
                     None " [OPTIONS]")
    end;
  t4 ←
    match any with
    | None => Some EmptyString
    | Some a =>
        t ← tag a;
        Some (cli__puts (colour_of c ANSI_ANY) (Some " ") (Some "...") t)
    end;
  let t5 := LF +:+ match header c with
                   | Some h => cstr h +:+ LF
                   | None => EmptyString
                   end in
  t6 ←
    (if at_base then
       match cmds c with
       | Some l =>
           subs ← put_sub_cmds c l;
           Some (LF +:+ "Sub-commands:" +:+ LF +:+ subs)
       | None => Some EmptyString
       end
     else Some EmptyString);
  '(t7, dv') ← put_default_options c at_base dv;
  t8 ←
    match cmd with
    | None => Some EmptyString
    | Some _ =>
        g ← deref c cmd;
        body ← put_opts ansi (opts g);
        Some (cli__puts (colour_of c ANSI_SUBTITLE) (Some LF) (Some LF)
                (if ptr_eqb cmd (base_ptr c) then "Common options:"
                 else "Options:")
              +:+ body)
    end;
  let t9 := match footer c with
            | Some f => LF +:+ cstr f +:+ LF
            | None => EmptyString
            end in
  Some (t1 +:+ t2 +:+ t3 +:+ t4 +:+ t5 +:+ t6 +:+ t7 +:+ t8 +:+ t9, dv').

(** ** Results *)

(** How a call ends: it returns a code, or it reaches a point where the C
    is undefined.  [Unfinished] is not a result of the C: a loop of the
    model gives it when the bound on its iterations is too small
    (see [cli_parse_finishes]). *)
Inductive outcome := Returned (r : Z) | Undefined | Unfinished.

(** Where control goes after a token: on to the next one, or to the
    [done] label (or a [return]) with the result. *)
Inductive flow := Next (c : clip) (w : world) | Done (r : outcome) (c : clip) (w : world).

(** [clip->out != NULL ? clip->out : stderr]. *)
Definition err_stream (c : clip) : FILE :=
  match out c with
  | Some f => f
  | None => stderr
  end.

(** [cli_summary(clip, cmd)], its text going to
    [clip->out ? clip->out : stdout]. *)
Definition cli_summary (c : clip) (cmd : option cmd_ref) (w : world)
  : option world :=
  '(text, dv) ← cli_summary_text c cmd (def_version w);
  Some (emit (match out c with Some f => f | None => stdout end) text
          (set_def_version w dv)).

(** ** Argument-file loader *)

Definition is_lf (ch : ascii) : bool := Ascii.eqb ch (ascii_of_nat 10).

(** What [fgets] puts in a buffer with room for [n] more bytes, and what
    it leaves in the stream. *)
Fixpoint fgets_from (n : nat) (s : string) : string * string :=
  match n, s with
  | O, _ => (EmptyString, s)
  | S _, EmptyString => (EmptyString, EmptyString)
  | S n', String ch r =>
      if is_lf ch then (String ch EmptyString, r)
      else let '(b, rest) := fgets_from n' r in (String ch b, rest)
  end.

(** [fgets(buffer, size, f)]: [None] at the end of the file. *)
Definition fgets (size : nat) (s : string) : option (string * string) :=
  match s with
  | EmptyString => None
  | String _ _ => Some (fgets_from (size - 1) s)
  end.

(** The body of the loop of [cli_do_file] for the line in [buffer]
    (the variant of the source for systems other than DOS and Windows). *)
Definition do_file_line (c : clip) (buffer : string) (w : world)
  : Z * world :=
  let b1 := match strchr buffer (ascii_of_nat 10) with
            | Some nl => poke buffer nl NUL
            | None => buffer
            end in
  let eq := match strchr b1 "=" with
            | Some e => Some e
            | None => strchr b1 " "
            end in
  let b2 := match eq with
            | Some e => poke b1 e NUL
            | None => b1
            end in
  let key := b2 in
  let val := match eq with
             | Some e => Some (cstr (ptr_add b2 (S e)))
             | None => None
             end in
  match cli__find_opt c (live c) key with
  | None =>
      (CLIP_ERR_BAD_ARG,
       cli_bad_arg (err_stream c) (flags c)
         (if Nat.eqb (strlen key) 1 then 1 else 2) "Invalid option:" key w)
  | Some (opt, cmd) =>
      let '(r, w') := invoke c (CbCall cmd (Some opt) val) w in
      if negb (r =? 0) then (CLIP_ERR_CB_FAIL, w') else (0, w')
  end.

(** The loop of [cli_do_file] over what is left of the file. *)
Fixpoint do_file_loop (fuel : nat) (c : clip) (f : string) (w : world)
  : outcome * world :=
  match fgets CLIP_BUFFER_SIZE f with
  | None => (Returned 0, w)
  | Some (buffer, f') =>
      match fuel with
      | O => (Unfinished, w)
      | S fuel' =>
          let '(r, w') := do_file_line c buffer w in
          if negb (r =? 0) then (Returned r, w')
          else do_file_loop fuel' c f' w'
      end
  end.

(** [cli_do_file(clip, file, strlen(file))].  A name that does not fit
    [buffer] overruns it. *)
Definition cli_do_file (c : clip) (file : string) (w : world)
  : outcome * world :=
  if Nat.leb CLIP_BUFFER_SIZE (strlen file) then (Undefined, w)
  else
    match files w (cstr file) with
    | None =>
        (Returned CLIP_ERR_BAD_ARG,
         emit (err_stream c)
           ("Arguments file '" +:+ cstr file +:+ "' could not be opened.") w)
    | Some content => do_file_loop (String.length content) c content w
    end.

(** ** Parse loop *)

Definition argc (w : world) : Z := Z.of_nat (length (argv w)).

(** [argv[i]]. *)
Definition arg_at (w : world) (i : Z) : string :=
  default EmptyString (argv w !! Z.to_nat i).

(** [argv[i][k] = ch]. *)
Definition poke_arg (w : world) (i : Z) (k : nat) (ch : ascii) : world :=
  set_argv w (<[Z.to_nat i := poke (arg_at w i) k ch]> (argv w)).

(** The test for [-h] or [--help] of the pre-scan, with the flag. *)
Definition help_hit (c : clip) (arg : string) : bool :=
  let show :=
    Ascii.eqb (char_at arg 0) "-" && Ascii.eqb (char_at arg 1) "h"
    && is_none (cli__find_opt_0 (base c) "h") in
  let show :=
    if show then true
    else Nat.ltb 6 (strlen arg) && memcmp arg "--help" 6
         && is_none (cli__find_opt_0 (base c) "help") in
  show && has_flag (flags c) CLIP_FLAG_HELP.

(** The test for [-v] or [--version] of the pre-scan, with the flag. *)
Definition version_hit (c : clip) (arg : string) : bool :=
  let show :=
    Ascii.eqb (char_at arg 0) "-" && Ascii.eqb (char_at arg 1) "v"
    && is_none (cli__find_opt_0 (base c) "v") in
  let show :=
    if show then true
    else Nat.leb 9 (strlen arg) && memcmp arg "--version" 9
         && is_none (cli__find_opt_0 (base c) "version") in
  show && (has_flag (flags c) CLIP_FLAG_VERSION && negb (is_none (version c))).

(** The line the pre-scan prints for the version. *)
Definition version_line (c : clip) : string :=
  if has_flag (flags c) CLIP_FLAG_USE_ANSI
  then ANSI_PROG +:+ cstr (progname c) +:+ ANSI_END +:+ " "
       +:+ opt_text (version c) +:+ LF
  else cstr (progname c) +:+ " " +:+ opt_text (version c) +:+ LF.

(** What the pre-scan finds. *)
Inductive scan := ShowHelp | ShowVersion.

(** The pre-scan loop over [argv[i]], [i = clip->index .. argc - 1]. *)
Fixpoint prescan (c : clip) (args : list string) : option scan :=
  match args with
  | [] => None
  | arg :: rest =>
      if help_hit c arg then Some ShowHelp
      else if version_hit c arg then Some ShowVersion
      else prescan c rest
  end.

(** The [do ... while (arg[i] != 0)] loop over a cluster of short
    options: [ch] is [arg[i - 1]], the character being looked up, and
    [rest] is [&arg[i]]. *)
Fixpoint short_cluster (rest : string) (ch : ascii) (c : clip) (w : world)
  {struct rest} : flow :=
  let chr := String ch EmptyString in
  let again (w' : world) :=
    match rest with
    | EmptyString => Next c w'
    | String ch' rest' =>
        if Ascii.eqb ch' NUL then Next c w' else short_cluster rest' ch' c w'
    end in
  match cli__find_opt c (live c) chr with
  | None =>
      Done (Returned CLIP_ERR_BAD_ARG) c
        (cli_bad_arg (err_stream c) (flags c) 1 "Invalid option:" chr w)
  | Some (opt, cmd) =>
      if mode opt =? 0 then
        let '(r, w') := invoke c (CbCall cmd (Some opt) None) w in
        if negb (r =? 0) then Done (Returned CLIP_ERR_CB_FAIL) c w'
        else again w'
      else if negb (Z.land (mode opt) ARG_REQD =? 0) then
        let '(val, c') :=
          if Ascii.eqb (char_at rest 0) NUL then
            if index c <? argc w
            then (Some (arg_at w (index c)), set_index c (index c + 1))
            else (None, c)
          else (Some rest, c) in
        match val with
        | None =>
            Done (Returned CLIP_ERR_BAD_ARG) c'
              (cli_bad_arg (err_stream c) (flags c) 1
                 "Missing required value for" chr w)
        | Some v =>
            let '(r, w') := invoke c' (CbCall cmd (Some opt) (Some (cstr v))) w in
            if negb (r =? 0) then Done (Returned CLIP_ERR_CB_FAIL) c' w'
            else Next c' w'
        end
      else again w
  end.

(** The long-option branch, in pieces.  [i] is the position of the token
    in [argv].  [long_eq] is [eq - key], the offset of the first [=] of the
    key; [long_split] is the write [*eq = 0]; [long_key] is [key] as the
    look-up reads it; [long_restore] is the write [*eq = '=']. *)
Definition long_eq (w : world) (i : Z) : option nat :=
  strchr (ptr_add (arg_at w i) 2) "=".

Definition long_split (w : world) (i : Z) : world :=
  match long_eq w i with
  | Some e => poke_arg w i (2 + e) NUL
  | None => w
  end.

Definition long_key (w : world) (i : Z) : string :=
  ptr_add (arg_at (long_split w i) i) 2.

Definition long_restore (eq : option nat) (i : Z) (w : world) : world :=
  match eq with
  | Some e => poke_arg w i (2 + e) "="
  | None => w
  end.

(** The branch of the main loop for a long option. *)
Definition long_option (i : Z) (c : clip) (w : world) : flow :=
  let eq := long_eq w i in
  let w1 := long_split w i in
  let key := long_key w i in
  match cli__find_opt c (live c) key with
  | None =>
      Done (Returned CLIP_ERR_BAD_ARG) c
        (cli_bad_arg (err_stream c) (flags c) 2 "Invalid option:" key w1)
  | Some (opt, cmd) =>
      if mode opt =? 0 then
        let '(r, w') := invoke c (CbCall cmd (Some opt) None) w1 in
        if negb (r =? 0) then Done (Returned CLIP_ERR_CB_FAIL) c w'
        else Next c (long_restore eq i w')
      else if negb (Z.land (mode opt) ARG_REQD =? 0) then
        let '(val, c') :=
          match eq with
          | Some e => (Some (ptr_add (arg_at w1 i) (2 + e + 1)), c)
          | None =>
              if index c <? argc w1
              then (Some (arg_at w1 (index c)), set_index c (index c + 1))
              else (None, c)
          end in
        match val with
        | None =>
            Done (Returned CLIP_ERR_BAD_ARG) c'
              (cli_bad_arg (err_stream c) (flags c) 2
                 "Missing required value for" key w1)
        | Some v =>
            let '(r, w') := invoke c' (CbCall cmd (Some opt) (Some (cstr v))) w1 in
            if negb (r =? 0) then Done (Returned CLIP_ERR_CB_FAIL) c' w'
            else Next c' (long_restore eq i w')
        end
      else Next c (long_restore eq i w1)
  end.

(** The body of the main loop: [arg = argv[clip->index++]] and the
    branch for its kind. *)
Definition main_step (c0 : clip) (w : world) : flow :=
  let i := index c0 in
  let arg := arg_at w i in
  let c := set_index c0 (i + 1) in
  if IS_SHORT_OPT arg then short_cluster (ptr_add arg 2) (char_at arg 1) c w
  else if IS_LONG_OPT arg then long_option i c w
  else if Ascii.eqb (char_at arg 0) "@" then
    match cli_do_file c (ptr_add arg 1) w with
    | (Returned r, w') =>
        if negb (r =? 0) then Done (Returned r) c w' else Next c w'
    | (u, w') => Done u c w'
    end
  else if IS_DOUBLE_DASH arg then Done (Returned 0) c w
  else
    match cli__find_any (deref c (live c)) with
    | None =>
        Done (Returned CLIP_ERR_BAD_ARG) c
          (cli_bad_arg (err_stream c) (flags c) 0 "Unrecognised option:" arg w)
    | Some opt =>
        let '(r, w') := invoke c (CbCall (live c) (Some opt) (Some (cstr arg))) w in
        if negb (r =? 0) then Done (Returned CLIP_ERR_CB_FAIL) c w'
        else Next c w'
    end.

(** [while (clip->index < argc) ...]; [fuel] bounds the iterations. *)
Fixpoint main_loop (fuel : nat) (c : clip) (w : world)
  : outcome * clip * world :=
  if index c <? argc w then
    match fuel with
    | O => (Unfinished, c, w)
    | S fuel' =>
        match main_step c w with
        | Next c' w' => main_loop fuel' c' w'
        | Done r c' w' => (r, c', w')
        end
    end
  else (Returned 0, c, w).

(** The sub-command detection: [clip->live] and [clip->index] after it,
    or as they are when the scan of the table becomes undefined. *)
Definition detect (c : clip) (w : world) : clip :=
  let c1 := set_live c (base_ptr c) in
  if isalnum (code (char_at (arg_at w (index c1)) 0)) then
    match cmds c1 with
    | Some _ =>
        match cli__find_cmd c1 (arg_at w (index c1)) with
        | CmdAt i => set_index (set_live c1 (Some (Sub i))) (index c1 + 1)
        | CmdNone => c1
        | CmdUndefined => c1
        end
    | None => c1
    end
  else c1.

(** The detection calls [cli__find_cmd] and the scan is undefined. *)
Definition detect_undefined (c : clip) (w : world) : bool :=
  let c1 := set_live c (base_ptr c) in
  isalnum (code (char_at (arg_at w (index c1)) 0))
  && match cmds c1 with
     | Some _ =>
         match cli__find_cmd c1 (arg_at w (index c1)) with
         | CmdUndefined => true
         | _ => false
         end
     | None => false
     end.

(** [cli_parse(clip, argc, argv)] for a non-null [clip]; [argv] holds
    [argc] strings. *)
Definition cli_parse (c : clip) (w : world) : outcome * clip * world :=
  if negb (index c =? 0) then (Returned CLIP_ERR_INVALID, c, w)
  else
    let c := set_index c 0 in
    if 1 <? argc w then
      let c0 := set_index c (index c + 1) in
      let c := detect c0 w in
      if detect_undefined c0 w then (Undefined, c, w)
      else
        match prescan c (drop (Z.to_nat (index c)) (argv w)) with
        | Some ShowHelp =>
            match cli_summary c (live c) w with
            | Some w' => (Returned CLIP_ERR_HELP, c, w')
            | None => (Undefined, c, w)
            end
        | Some ShowVersion =>
            (Returned CLIP_ERR_HELP, c, emit (err_stream c) (version_line c) w)
        | None => main_loop (length (argv w)) c w
        end
    else (Returned CLIP_ERR_OK, c, w).
(** * Properties *)

(** ** Characters *)

(** [isalnum] of a byte of a string does not depend on the signedness of
    plain [char], and the byte is in the table of [isalnum]. *)
Lemma isalnum_char_int x :
  isalnum (char_int x) = isalnum (code x)
  /\ isalnum_int (char_int x) = Some (isalnum (code x)).
Proof. destruct x as [[] [] [] [] [] [] [] []]; split; reflexivity. Qed.

(** ** What a step leaves alone *)

(** [c'] is [c] with another cursor: nothing else of [struct clip] was
    written. *)
Definition moved (c c' : clip) : Prop := c' = set_index c (index c').

(** [w'] is [w] after some output, some call-backs and some writes into
    the argument strings: [def_version] and the files are as before and
    no argument was added or dropped. *)
Definition quiet (w w' : world) : Prop :=
  def_version w' = def_version w /\ files w' = files w
  /\ length (argv w') = length (argv w)
  /\ exists more, calls w' = calls w ++ more.

Lemma moved_refl c : moved c c.
Proof. destruct c; reflexivity. Qed.

Lemma moved_set_index c i : moved c (set_index c i).
Proof. destruct c; reflexivity. Qed.

Lemma moved_trans c1 c2 c3 : moved c1 c2 -> moved c2 c3 -> moved c1 c3.
Proof. unfold moved; intros H1 H2; rewrite H2, H1; destruct c1; reflexivity. Qed.

Lemma quiet_refl w : quiet w w.
Proof. repeat split; exists []; symmetry; apply app_nil_r. Qed.

Lemma quiet_trans w1 w2 w3 : quiet w1 w2 -> quiet w2 w3 -> quiet w1 w3.
Proof.
  intros (A1 & B1 & C1 & m1 & D1) (A2 & B2 & C2 & m2 & D2).
  repeat split; try congruence.
  exists (m1 ++ m2). rewrite D2, D1, app_assoc. reflexivity.
Qed.

Lemma quiet_emit f s w : quiet w (emit f s w).
Proof. repeat split; exists []; symmetry; apply app_nil_r. Qed.

Lemma quiet_bad_arg f fl tg pfx key w : quiet w (cli_bad_arg f fl tg pfx key w).
Proof. apply quiet_emit. Qed.

Lemma quiet_record_call k w : quiet w (record_call k w).
Proof. repeat split; exists [k]; reflexivity. Qed.

Lemma quiet_poke_arg w i k ch : quiet w (poke_arg w i k ch).
Proof.
  repeat split; simpl.
  - apply length_insert.
  - exists []; symmetry; apply app_nil_r.
Qed.

Lemma quiet_long_split w i : quiet w (long_split w i).
Proof. unfold long_split; destruct (long_eq w i); [apply quiet_poke_arg | apply quiet_refl]. Qed.

Lemma quiet_long_restore eq i w : quiet w (long_restore eq i w).
Proof. destruct eq; [apply quiet_poke_arg | apply quiet_refl]. Qed.

Lemma argc_quiet w w' : quiet w w' -> argc w' = argc w.
Proof. intros (_ & _ & H & _); unfold argc; now rewrite H. Qed.

(** The way a token's branch ends, whatever it is: the cursor is where
    the branch was entered or further, and only the cursor and the
    world's logs and argument bytes have changed. *)
Definition flow_ok (c : clip) (w : world) (f : flow) : Prop :=
  match f with
  | Next c' w' | Done _ c' w' => moved c c' /\ index c <= index c' /\ quiet w w'
  end.

Lemma index_set_index c i : index (set_index c i) = i.
Proof. reflexivity. Qed.


(** The [while (arg[i] != 0)] test of the cluster loop and what follows. *)
Definition cluster_again (rest : string) (c : clip) (w : world) : flow :=
  match rest with
  | EmptyString => Next c w
  | String ch' rest' =>
      if Ascii.eqb ch' NUL then Next c w else short_cluster rest' ch' c w
  end.

Lemma short_cluster_eq rest ch c w :
  short_cluster rest ch c w =
  let chr := String ch EmptyString in
  match cli__find_opt c (live c) chr with
  | None =>
      Done (Returned CLIP_ERR_BAD_ARG) c
        (cli_bad_arg (err_stream c) (flags c) 1 "Invalid option:" chr w)
  | Some (opt, cmd) =>
      if mode opt =? 0 then
        let '(r, w') := invoke c (CbCall cmd (Some opt) None) w in
        if negb (r =? 0) then Done (Returned CLIP_ERR_CB_FAIL) c w'
        else cluster_again rest c w'
      else if negb (Z.land (mode opt) ARG_REQD =? 0) then
        let '(val, c') :=
          if Ascii.eqb (char_at rest 0) NUL then
            if index c <? argc w
            then (Some (arg_at w (index c)), set_index c (index c + 1))
            else (None, c)
          else (Some rest, c) in
        match val with
        | None =>
            Done (Returned CLIP_ERR_BAD_ARG) c'
              (cli_bad_arg (err_stream c) (flags c) 1
                 "Missing required value for" chr w)
        | Some v =>
            let '(r, w') := invoke c' (CbCall cmd (Some opt) (Some (cstr v))) w in
            if negb (r =? 0) then Done (Returned CLIP_ERR_CB_FAIL) c' w'
            else Next c' w'
        end
      else cluster_again rest c w
  end.
Proof. destruct rest; reflexivity. Qed.

Lemma flow_ok_next c w : flow_ok c w (Next c w).
Proof. simpl; auto using moved_refl, quiet_refl with lia. Qed.

Lemma flow_ok_after c w w' f : quiet w w' -> flow_ok c w' f -> flow_ok c w f.
Proof.
  intros Q; destruct f; simpl; intros (M & I & Q'); eauto using quiet_trans.
Qed.

Lemma flow_ok_from c0 c w f :
  moved c0 c -> index c0 <= index c -> flow_ok c w f -> flow_ok c0 w f.
Proof.
  intros M I; destruct f; simpl; intros (M' & I' & Q');
    (split; [eapply moved_trans; eauto | split; [lia | assumption]]).
Qed.

(** [quiet w (f1 (f2 ... w))] for the writes [f1], [f2], ... of the model. *)
Ltac quiet_tac :=
  repeat first
    [ apply quiet_refl
    | eapply quiet_trans;
      [| first [ apply quiet_record_call | apply quiet_bad_arg
               | apply quiet_emit | apply quiet_poke_arg
               | apply quiet_long_restore | apply quiet_long_split ] ] ].

Ltac flow_done :=
  simpl;
  repeat match goal with
         | |- _ /\ _ => split
         | |- moved _ _ => auto using moved_refl, moved_set_index
         | |- quiet _ _ => quiet_tac
         | |- (_ <= _)%Z => simpl; lia
         end.

Lemma short_cluster_ok_step rest ch c w :
  (forall w', flow_ok c w' (cluster_again rest c w')) ->
  flow_ok c w (short_cluster rest ch c w).
Proof.
  intros A. rewrite short_cluster_eq; cbv zeta.
  destruct (cli__find_opt c (live c) (String ch EmptyString)) as [[opt cmd]|];
    [|flow_done].
  destruct (mode opt =? 0).
  { unfold invoke at 1.
    match goal with |- context [negb ?b] => destruct (negb b) end.
    - flow_done.
    - eapply flow_ok_after; [|apply A]. apply quiet_record_call. }
  destruct (negb (Z.land (mode opt) ARG_REQD =? 0)); [|apply A].
  destruct (Ascii.eqb (char_at rest 0) NUL); [destruct (index c <? argc w)|];
    unfold invoke;
    try match goal with |- context [negb ?b] => destruct (negb b) end;
    flow_done.
Qed.

Lemma cluster_again_ok rest : forall c w, flow_ok c w (cluster_again rest c w).
Proof.
  induction rest as [|ch' rest IH]; intros c w; simpl; [flow_done|].
  destruct (Ascii.eqb ch' NUL); [flow_done|].
  apply short_cluster_ok_step; intros w'; apply IH.
Qed.

Lemma short_cluster_ok rest ch c w : flow_ok c w (short_cluster rest ch c w).
Proof. apply short_cluster_ok_step; intros; apply cluster_again_ok. Qed.

Lemma long_option_ok i c w : flow_ok c w (long_option i c w).
Proof.
  unfold long_option.
  destruct (cli__find_opt c (live c) (long_key w i)) as [[opt cmd]|];
    [|flow_done].
  destruct (mode opt =? 0).
  { unfold invoke.
    match goal with |- context [negb ?b] => destruct (negb b) end; flow_done.
}
  destruct (negb (Z.land (mode opt) ARG_REQD =? 0)); [|flow_done].
  destruct (long_eq w i); [|destruct (index c <? argc (long_split w i))];
    unfold invoke;
    try match goal with |- context [negb ?b] => destruct (negb b) end;
    flow_done.
Qed.

(** ** The argument-file loader leaves the tables alone and ends *)

Lemma do_file_line_quiet c buffer w : quiet w (snd (do_file_line c buffer w)).
Proof.
  unfold do_file_line; cbv zeta.
  destruct (cli__find_opt c (live c) _) as [[opt cmd]|]; simpl.
  - match goal with |- context [negb ?b] => destruct (negb b) end;
      apply quiet_record_call.
  - apply quiet_bad_arg.
Qed.

Lemma fgets_from_length n s :
  (String.length (snd (fgets_from n s)) <= String.length s)%nat.
Proof.
  revert s; induction n as [|n IH]; intros [|ch r]; simpl; try lia.
  destruct (is_lf ch); simpl; [lia|].
  specialize (IH r). destruct (fgets_from n r); simpl in *; lia.
Qed.

Lemma fgets_shorter size f buffer f' :
  (1 < size)%nat -> fgets size f = Some (buffer, f') ->
  (String.length f' < String.length f)%nat.
Proof.
  intros Hs; unfold fgets; destruct f as [|ch r]; [discriminate|].
  destruct size as [|[|n]]; try lia.
  replace (S (S n) - 1)%nat with (S n) by lia.
  simpl. destruct (is_lf ch).
  - intros [= _ <-]; simpl; lia.
  - pose proof (fgets_from_length n r) as L.
    destruct (fgets_from n r) as [b rest]; intros [= _ <-]; simpl in *; lia.
Qed.

Lemma buffer_size_gt_1 : (1 < CLIP_BUFFER_SIZE)%nat.
Proof. unfold CLIP_BUFFER_SIZE; lia. Qed.

Lemma do_file_loop_quiet fuel : forall c f w,
  quiet w (snd (do_file_loop fuel c f w)).
Proof.
  induction fuel as [|fuel IH]; intros c f w; simpl;
    destruct (fgets CLIP_BUFFER_SIZE f) as [[buffer f']|]; simpl;
    auto using quiet_refl.
  pose proof (do_file_line_quiet c buffer w) as Q.
  destruct (do_file_line c buffer w) as [r w1]; simpl in Q.
  destruct (negb (r =? 0)); simpl; [exact Q|].
  eapply quiet_trans; [exact Q | apply IH].
Qed.

Lemma do_file_loop_finishes fuel : forall c f w,
  (String.length f <= fuel)%nat ->
  fst (do_file_loop fuel c f w) <> Unfinished.
Proof.
  induction fuel as [|fuel IH]; intros c f w L; simpl.
  - destruct f; [simpl; discriminate | simpl in L; lia].
  - destruct (fgets CLIP_BUFFER_SIZE f) as [[buffer f']|] eqn:G;
      [|simpl; discriminate].
    apply fgets_shorter in G; [|apply buffer_size_gt_1].
    destruct (do_file_line c buffer w) as [r w1].
    destruct (negb (r =? 0)); [simpl; discriminate|].
    apply IH; lia.
Qed.

Lemma cli_do_file_quiet c file w : quiet w (snd (cli_do_file c file w)).
Proof.
  unfold cli_do_file.
  destruct (Nat.leb CLIP_BUFFER_SIZE (strlen file)); simpl; [apply quiet_refl|].
  destruct (files w (cstr file)); simpl;
    [apply do_file_loop_quiet | apply quiet_emit].
Qed.

Lemma cli_do_file_finishes c file w : fst (cli_do_file c file w) <> Unfinished.
Proof.
  unfold cli_do_file.
  destruct (Nat.leb CLIP_BUFFER_SIZE (strlen file)); simpl; [discriminate|].
  destruct (files w (cstr file)); simpl; [|discriminate].
  now apply do_file_loop_finishes.
Qed.

(** ** The main loop leaves the tables alone and ends *)

(** A step of the main loop takes at least the token at the cursor. *)
Definition step_ok (c : clip) (w : world) (f : flow) : Prop :=
  match f with
  | Next c' w' =>
      moved c c' /\ index c + 1 <= index c' /\ quiet w w'
  | Done r c' w' =>
      moved c c' /\ index c + 1 <= index c' /\ quiet w w' /\ r <> Unfinished
  end.

Lemma flow_ok_step_ok c w f :
  flow_ok (set_index c (index c + 1)) w f ->
  match f with Next _ _ => True | Done r _ _ => r <> Unfinished end ->
  step_ok c w f.
Proof.
  destruct f; simpl; intros (M & I & Q) U;
    (split; [eapply moved_trans; [apply moved_set_index | exact M]|]);
    auto.
Qed.

Lemma short_cluster_result_step rest ch c w r c' w' :
  (forall w1, cluster_again rest c w1 = Done r c' w' ->
     exists z, r = Returned z) ->
  short_cluster rest ch c w = Done r c' w' -> exists z, r = Returned z.
Proof.
  intros IH. rewrite short_cluster_eq; cbv zeta.
  destruct (cli__find_opt c (live c) _) as [[opt cmd]|];
    [|intros [= <- _ _]; eauto].
  destruct (mode opt =? 0).
  { unfold invoke. match goal with |- context [negb ?b] => destruct (negb b) end;
      [intros [= <- _ _]; eauto | apply IH]. }
  destruct (negb (Z.land (mode opt) ARG_REQD =? 0)); [|apply IH].
  destruct (Ascii.eqb (char_at rest 0) NUL); [destruct (index c <? argc w)|];
    unfold invoke;
    try match goal with |- context [negb ?b] => destruct (negb b) end;
    try discriminate; intros [= <- _ _]; eauto.
Qed.

Lemma cluster_again_result rest : forall c w r c' w',
  cluster_again rest c w = Done r c' w' -> exists z, r = Returned z.
Proof.
  induction rest as [|ch' rest IH]; intros c w r c' w'; simpl;
    [discriminate|].
  destruct (Ascii.eqb ch' NUL); [discriminate|].
  apply short_cluster_result_step. intros w1; apply IH.
Qed.

Lemma short_cluster_result rest ch c w r c' w' :
  short_cluster rest ch c w = Done r c' w' -> exists z, r = Returned z.
Proof.
  apply short_cluster_result_step. intros w1; apply cluster_again_result.
Qed.

Ltac step_done :=
  simpl;
  repeat match goal with
         | |- _ /\ _ => split
         | |- moved _ (set_index _ _) => apply moved_set_index
         | |- quiet _ _ => first [assumption | quiet_tac]
         | |- (_ <= _)%Z => simpl; lia
         | |- _ <> Unfinished => discriminate
         end.

Lemma main_step_ok c w : step_ok c w (main_step c w).
Proof.
  unfold main_step; cbv zeta.
  set (arg := arg_at w (index c)).
  destruct (IS_SHORT_OPT arg).
  { apply flow_ok_step_ok; [apply short_cluster_ok|].
    destruct (short_cluster _ _ _ w) eqn:E; [exact I|].
    apply short_cluster_result in E as [z ->]; discriminate. }
  destruct (IS_LONG_OPT arg).
  { apply flow_ok_step_ok; [apply long_option_ok|].
    unfold long_option.
    destruct (cli__find_opt _ _ _) as [[opt cmd]|]; [|discriminate].
    destruct (mode opt =? 0).
    { unfold invoke; match goal with |- context [negb ?b] => destruct (negb b) end;
        [discriminate | exact I]. }
    destruct (negb (Z.land (mode opt) ARG_REQD =? 0)); [|exact I].
    destruct (long_eq w (index c));
      [|destruct (index _ <? argc (long_split w (index c)))];
      unfold invoke;
      try match goal with |- context [negb ?b] => destruct (negb b) end;
      first [discriminate | exact I]. }
  destruct (Ascii.eqb (char_at arg 0) "@").
  { pose proof (cli_do_file_quiet (set_index c (index c + 1)) (ptr_add arg 1) w) as Q.
    pose proof (cli_do_file_finishes (set_index c (index c + 1)) (ptr_add arg 1) w) as U.
    destruct (cli_do_file _ (ptr_add arg 1) w) as [[r| |] w1]; simpl in Q, U;
      try destruct (negb (r =? 0)); step_done. congruence. }
  destruct (IS_DOUBLE_DASH arg); [step_done|].
  destruct (cli__find_any _); [|step_done].
  unfold invoke; match goal with |- context [negb ?b] => destruct (negb b) end;
    step_done.
Qed.

Lemma main_loop_eq fuel c w :
  main_loop (S fuel) c w =
  if index c <? argc w then
    match main_step c w with
    | Next c' w' => main_loop fuel c' w'
    | Done r c' w' => (r, c', w')
    end
  else (Returned 0, c, w).
Proof. reflexivity. Qed.

(** The result of the main loop: only the cursor of [struct clip] has
    moved, forward; the world has changed as by steps; and the bound on
    the iterations was enough when it covers the arguments left. *)
Lemma main_loop_ok fuel : forall c w r c' w',
  main_loop fuel c w = (r, c', w') ->
  moved c c' /\ index c <= index c' /\ quiet w w'
  /\ (argc w - index c <= Z.of_nat fuel -> r <> Unfinished).
Proof.
  induction fuel as [|fuel IH]; intros c w r c' w'.
  - simpl. destruct (index c <? argc w) eqn:L; intros [= <- <- <-];
      (split; [apply moved_refl | split; [lia | split; [apply quiet_refl|]]]).
    + apply Z.ltb_lt in L; lia.
    + discriminate.
  - rewrite main_loop_eq.
    destruct (index c <? argc w) eqn:L.
    + pose proof (main_step_ok c w) as S.
      destruct (main_step c w) as [c1 w1|r1 c1 w1]; simpl in S.
      * destruct S as (M & I & Q). intros E. apply IH in E as (M' & I' & Q' & U).
        split; [eapply moved_trans; eauto|].
        split; [lia|]. split; [eapply quiet_trans; eauto|].
        intros B. apply U. rewrite (argc_quiet _ _ Q). lia.
      * destruct S as (M & I & Q & U). intros [= <- <- <-].
        repeat split; auto; try lia; apply Q.
    + intros [= <- <- <-].
      (split; [apply moved_refl | split; [lia | split; [apply quiet_refl|]]]).
      discriminate.
Qed.

(** ** The whole parse *)

(** [c'] is [c] but for the private fields [index] and [live]. *)
Definition same_config (c c' : clip) : Prop :=
  c' = set_live (set_index c (index c')) (live c').

Lemma same_config_refl c : same_config c c.
Proof. destruct c; reflexivity. Qed.

Lemma same_config_trans c1 c2 c3 :
  same_config c1 c2 -> same_config c2 c3 -> same_config c1 c3.
Proof.
  unfold same_config; intros H1 H2; rewrite H2, H1; destruct c1; reflexivity.
Qed.

Lemma moved_same_config c c' : moved c c' -> same_config c c'.
Proof. unfold moved, same_config; intros ->; destruct c; reflexivity. Qed.

Lemma same_config_fields c c' :
  same_config c c' ->
  flags c' = flags c /\ progname c' = progname c /\ version c' = version c
  /\ base c' = base c /\ cmds c' = cmds c /\ cb c' = cb c /\ out c' = out c.
Proof. intros ->; destruct c; repeat split. Qed.

Lemma detect_same_config c w : same_config c (detect c w).
Proof.
  unfold detect.
  destruct (isalnum _); [|destruct c; reflexivity].
  destruct (cmds (set_live c (base_ptr c))); [|destruct c; reflexivity].
  destruct (cli__find_cmd _ _); destruct c; reflexivity.
Qed.

Lemma detect_index c w :
  index c <= index (detect c w) <= index c + 1.
Proof.
  unfold detect.
  destruct (isalnum _); [|simpl; lia].
  destruct (cmds (set_live c (base_ptr c))); [|simpl; lia].
  destruct (cli__find_cmd _ _); simpl; lia.
Qed.

(** What [cli_summary] does to [def_version]. *)
Lemma put_default_options_def_version c at_base dv text dv' :
  put_default_options c at_base dv = Some (text, dv') ->
  dv' = dv
  \/ (dv' = set_a_short dv 0
      /\ has_flag (flags c) CLIP_FLAG_VERSION = true
      /\ cli__find_opt_0 (base c) "v" <> None).
Proof.
  unfold put_default_options; cbv zeta.
  destruct (FLAGS_HAS_AUTO (flags c)); [|intros [= _ <-]; now left].
  destruct (if has_flag (flags c) CLIP_FLAG_HELP then _ else _); simpl;
    [|discriminate].
  destruct (has_flag (flags c) CLIP_FLAG_VERSION); [|intros [= _ <-]; now left].
  destruct (cli__find_opt_0 (base c) "v") eqn:F.
  - destruct (cli__put_opt _ _); simpl; [|discriminate].
    intros [= _ <-]. right. repeat split; discriminate.
  - destruct (cli__put_opt _ _); simpl; [|discriminate].
    intros [= _ <-]. now left.
Qed.

Lemma cli_summary_text_def_version c cmd dv text dv' :
  cli_summary_text c cmd dv = Some (text, dv') ->
  dv' = dv
  \/ (dv' = set_a_short dv 0
      /\ has_flag (flags c) CLIP_FLAG_VERSION = true
      /\ cli__find_opt_0 (base c) "v" <> None).
Proof.
  unfold cli_summary_text; cbv zeta. intros H.
  repeat match type of H with
         | (mbind _ ?x = Some _) =>
             destruct x as [?|] eqn:?; simpl in H; [|discriminate]
         | context [let '(_, _) := ?p in _] => destruct p; simpl in H
         end.
  injection H as _ <-. eapply put_default_options_def_version; eauto.
Qed.

(** What [cli_summary] does to the world. *)
Lemma cli_summary_world c cmd w w' :
  cli_summary c cmd w = Some w' ->
  argv w' = argv w /\ files w' = files w /\ calls w' = calls w
  /\ (def_version w' = def_version w
      \/ (def_version w' = set_a_short (def_version w) 0
          /\ has_flag (flags c) CLIP_FLAG_VERSION = true
          /\ cli__find_opt_0 (base c) "v" <> None)).
Proof.
  unfold cli_summary.
  destruct (cli_summary_text c cmd (def_version w)) as [[text dv]|] eqn:T;
    simpl; [|discriminate].
  intros [= <-]; simpl. repeat split.
  eapply cli_summary_text_def_version; eauto.
Qed.

(** A prescan hit comes from a token that passes the test. *)
Lemma prescan_help c args :
  prescan c args = Some ShowHelp -> exists arg, In arg args /\ help_hit c arg = true.
Proof.
  induction args as [|a args IH]; simpl; [discriminate|].
  destruct (help_hit c a) eqn:H; [eauto|].
  destruct (version_hit c a); [discriminate|].
  intros E; destruct (IH E) as (arg & I & Hh); eauto.
Qed.

Lemma prescan_version c args :
  prescan c args = Some ShowVersion ->
  exists arg, In arg args /\ version_hit c arg = true.
Proof.
  induction args as [|a args IH]; simpl; [discriminate|].
  destruct (help_hit c a); [discriminate|].
  destruct (version_hit c a) eqn:H; [eauto|].
  intros E; destruct (IH E) as (arg & I & Hh); eauto.
Qed.

(** The parse as the states of the specification name them: the guard,
    [Init], [SubCommandDetection], [HelpVersionPrescan], [MainLoop]. *)
Lemma cli_parse_eq c w :
  cli_parse c w =
  if negb (index c =? 0) then (Returned CLIP_ERR_INVALID, c, w)
  else if 1 <? argc w then
    let c1 := detect (set_index c 1) w in
    if detect_undefined (set_index c 1) w then (Undefined, c1, w)
    else
      match prescan c1 (drop (Z.to_nat (index c1)) (argv w)) with
      | Some ShowHelp =>
          match cli_summary c1 (live c1) w with
          | Some w' => (Returned CLIP_ERR_HELP, c1, w')
          | None => (Undefined, c1, w)
          end
      | Some ShowVersion =>
          (Returned CLIP_ERR_HELP, c1, emit (err_stream c1) (version_line c1) w)
      | None => main_loop (length (argv w)) c1 w
      end
  else (Returned CLIP_ERR_OK, set_index c 0, w).
Proof. reflexivity. Qed.

(** The bound on the iterations of the loops is never what ends a parse. *)
Theorem cli_parse_finishes c w : fst (fst (cli_parse c w)) <> Unfinished.
Proof.
  rewrite cli_parse_eq.
  destruct (negb (index c =? 0)); [discriminate|].
  destruct (1 <? argc w) eqn:A; [|discriminate]. cbv zeta.
  pose proof (detect_index (set_index c 1) w) as I; simpl in I.
  destruct (detect_undefined _ _); [discriminate|].
  destruct (prescan _ _) as [[|]|].
  - destruct (cli_summary _ _ _); discriminate.
  - discriminate.
  - destruct (main_loop _ _ _) as [[r c'] w'] eqn:M.
    apply main_loop_ok in M as (_ & _ & _ & U). simpl. apply U.
    unfold argc. lia.
Qed.

(** A parse writes [index] and [live] of [struct clip] and nothing else
    of it; it keeps the files and the number of arguments, and adds to
    the call-back invocations. *)
Lemma cli_parse_frame c w r c' w' :
  cli_parse c w = (r, c', w') ->
  same_config c c' /\ files w' = files w
  /\ length (argv w') = length (argv w)
  /\ exists more, calls w' = calls w ++ more.
Proof.
  rewrite cli_parse_eq.
  destruct (negb (index c =? 0)).
  { intros [= <- <- <-]. split; [apply same_config_refl|].
    repeat split; exists []; now rewrite app_nil_r. }
  destruct (1 <? argc w); cbv zeta.
  2:{ intros [= <- <- <-]. split; [destruct c; reflexivity|].
      repeat split; exists []; now rewrite app_nil_r. }
  assert (S1 : same_config c (detect (set_index c 1) w)).
  { eapply same_config_trans; [|apply detect_same_config].
    destruct c; reflexivity. }
  destruct (detect_undefined _ _).
  { intros [= <- <- <-]. repeat split; auto. exists []; now rewrite app_nil_r. }
  destruct (prescan _ _) as [[|]|].
  - destruct (cli_summary _ _ _) as [w1|] eqn:E; intros [= <- <- <-].
    + apply cli_summary_world in E as (A & F & C & _).
      repeat split; auto; try congruence. exists []; now rewrite app_nil_r.
    + repeat split; auto. exists []; now rewrite app_nil_r.
  - intros [= <- <- <-]. repeat split; auto. exists []; now rewrite app_nil_r.
  - intros M. apply main_loop_ok in M as (Mv & _ & (D & F & L & C) & _).
    split; [eapply same_config_trans; [exact S1 | now apply moved_same_config]|].
    auto.
Qed.

(** ** Worked configurations

    [pip_clip] is the configuration of [expip.c]: a base group with
    [-v/--verbose] and a long-only [--version], one sub-command [install],
    automatic help and version.  [ntpd_clip] is that of [exntpd.c], cut to
    the descriptors used below.  [quiet_cb] is a call-back that accepts
    every invocation. *)

Definition quiet_cb : list cb_call -> cb_call -> Z := fun _ _ => 0.

Definition pip_base : cli_sub_cmd :=
  CLI_CMD None
    [ CLI_OPT_SWITCH 118 (Some "verbose") (Some "Give more output.");
      CLI_OPT_SWITCH 300 (Some "version") (Some "Show version and exit.");
      CLI_OPT_SWITCH 113 (Some "quit") (Some "Give less output.");
      CLI_OPT_VALUE 301 (Some "log") (Some "path")
        (Some "Path to a verbose appending log.");
      CLI_OPT_SWITCH 302 (Some "no-input") (Some "Disable prompting for input.") ].

Definition pip_install : cli_sub_cmd :=
  CLI_CMD (Some "install")
    [ CLI_OPT_VALUE 101 (Some "editable") (Some "path/url")
        (Some "Install a project in editable mode");
      CLI_OPT_VALUE 114 (Some "requirement") (Some "file")
        (Some "Install from the given requirements file.");
      CLI_OPT_VALUE 116 (Some "target") (Some "dir")
        (Some "Install packages into <dir>.");
      CLI_OPT_SWITCH 85 (Some "upgrade")
        (Some "Upgrade all packages to the newest available version.");
      CLI_OPT_SWITCH 305 (Some "no-deps")
        (Some "Don't install package dependencies.");
      CLI_OPT_SWITCH 306 (Some "secret") None ].

Definition pip_clip : clip :=
  Clip (Z.lor CLIP_FLAG_HELP CLIP_FLAG_VERSION) "pip"
    (Some "A tool for installing and managing Python packages")
    (Some "Copyright (c) 2020 someone") (Some "1.2.3-alpha")
    (Some pip_base) (Some [pip_install]) quiet_cb (Some stdout) 0 None.

(** [pip_clip] with [install] cut to the descriptors whose short key is a
    character.  The key 305 of [no-deps] is none: to render that
    descriptor [cli__put_opt] hands 305 to [isalnum]. *)
Definition pip_install_chars : cli_sub_cmd :=
  CLI_CMD (Some "install")
    [ CLI_OPT_VALUE 101 (Some "editable") (Some "path/url")
        (Some "Install a project in editable mode");
      CLI_OPT_VALUE 114 (Some "requirement") (Some "file")
        (Some "Install from the given requirements file.");
      CLI_OPT_VALUE 116 (Some "target") (Some "dir")
        (Some "Install packages into <dir>.");
      CLI_OPT_SWITCH 85 (Some "upgrade")
        (Some "Upgrade all packages to the newest available version.") ].

Definition pip_chars_clip : clip :=
  Clip (Z.lor CLIP_FLAG_HELP CLIP_FLAG_VERSION) "pip"
    (Some "A tool for installing and managing Python packages")
    (Some "Copyright (c) 2020 someone") (Some "1.2.3-alpha")
    (Some pip_base) (Some [pip_install_chars]) quiet_cb (Some stdout) 0 None.

Definition ntpd_base : cli_sub_cmd :=
  CLI_CMD None
    [ CLI_OPT_SWITCH 118 (Some "verbose") (Some "Give more output");
      CLI_OPT_SWITCH 100 (Some "no-daemon") (Some "Do not daemonize");
      CLI_OPT_VALUE 107 None (Some "FILE")
        (Some "FILE Key file (ntp.keys compatible)") ].

Definition ntpd_clip : clip :=
  Clip (Z.lor CLIP_FLAG_HELP CLIP_FLAG_VERSION) "ntpd"
    (Some "NTP client/server") None (Some "1.33.0")
    (Some ntpd_base) None quiet_cb (Some stdout) 0 None.

Definition no_files : string -> option string := fun _ => None.

(** The world at the start of a program: the arguments as the system
    passed them, [def_version] as initialized, nothing written yet. *)
Definition start (args : list string) (fs : string -> option string) : world :=
  World args def_version_init fs [] [].

(** ** C8: the guard against a second parse *)

(** C8.  A configuration whose cursor is not zero is not parsed:
    [cli_parse] returns [CLIP_ERR_INVALID] (-1) at once, with the
    configuration, the arguments, the output and the call-back
    invocations as they were. *)
Theorem parse_guard_nonzero_cursor (c : clip) (w : world) :
  index c <> 0 ->
  cli_parse c w = (Returned CLIP_ERR_INVALID, c, w) /\ CLIP_ERR_INVALID = -1.
Proof.
  intros H. split; [|reflexivity].
  rewrite cli_parse_eq. apply Z.eqb_neq in H. now rewrite H.
Qed.

Lemma parse_guard_nonzero_cursor_witness :
  cli_parse (set_index pip_clip 3) (start ["pip"; "install"; "x"] no_files)
  = (Returned CLIP_ERR_INVALID, set_index pip_clip 3,
     start ["pip"; "install"; "x"] no_files)
  /\ CLIP_ERR_INVALID = -1.
Proof. apply parse_guard_nonzero_cursor; simpl; lia. Defined.

(** A parse of at least one argument leaves the cursor past zero, so
    parsing again without a reset meets the guard. *)
Lemma parse_then_parse_again c w r c' w' :
  index c = 0 -> 1 < argc w ->
  cli_parse c w = (r, c', w') ->
  cli_parse c' w' = (Returned CLIP_ERR_INVALID, c', w').
Proof.
  intros I A P.
  assert (N : index c' <> 0).
  { revert P. rewrite cli_parse_eq.
    apply Z.eqb_eq in I; rewrite I; simpl. apply Z.ltb_lt in A; rewrite A.
    cbv zeta.
    pose proof (detect_index (set_index c 1) w) as D; simpl in D.
    destruct (detect_undefined _ _); [intros [= _ <- _]; lia|].
    destruct (prescan _ _) as [[|]|].
    - destruct (cli_summary _ _ _); intros [= _ <- _]; lia.
    - intros [= _ <- _]; lia.
    - intros M. apply main_loop_ok in M as (_ & L & _). lia. }
  rewrite cli_parse_eq. apply Z.eqb_neq in N. now rewrite N.
Qed.

(** ** C5: what a parse writes *)

(** C5, as stated, fails: [pip install -h] renders the help of [install]
    and leaves [def_version], a descriptor, with its short key cleared. *)
Lemma def_version_written_by_help :
  let w := start ["pip"; "install"; "-h"] no_files in
  let '(r, _, w') := cli_parse pip_chars_clip w in
  r = Returned CLIP_ERR_HELP
  /\ a_short (def_version w) = 118 /\ a_short (def_version w') = 0
  /\ def_version w' <> def_version w.
Proof. vm_compute. repeat split; discriminate. Qed.

(** C5, amended.  A parse leaves the caller's tables, [base] and [cmds],
    as they were.  The one descriptor it may write is the library's own
    [def_version]: either it is unchanged, or its short key was cleared,
    and then the parse ended by rendering the automatic help with the
    automatic-version flag set and a [v] option declared in the base
    group. *)
Theorem parse_writes_no_caller_table (c : clip) (w : world)
  (r : outcome) (c' : clip) (w' : world) :
  cli_parse c w = (r, c', w') ->
  base c' = base c /\ cmds c' = cmds c
  /\ (def_version w' = def_version w
      \/ (def_version w' = set_a_short (def_version w) 0
          /\ r = Returned CLIP_ERR_HELP
          /\ has_flag (flags c) CLIP_FLAG_HELP = true
          /\ has_flag (flags c) CLIP_FLAG_VERSION = true
          /\ cli__find_opt_0 (base c) "v" <> None)).
Proof.
  intros P. pose proof (cli_parse_frame _ _ _ _ _ P) as (S & _).
  apply same_config_fields in S as (_ & _ & _ & B & C & _).
  split; [exact B|]. split; [exact C|].
  revert P. rewrite cli_parse_eq.
  destruct (negb (index c =? 0)); [intros [= _ _ <-]; now left|].
  destruct (1 <? argc w); [|intros [= _ _ <-]; now left]. cbv zeta.
  pose proof (detect_same_config (set_index c 1) w) as S1.
  apply same_config_fields in S1 as (F1 & _ & _ & B1 & _); simpl in F1, B1.
  destruct (detect_undefined _ _); [intros [= _ _ <-]; now left|].
  destruct (prescan _ _) as [[|]|] eqn:PS.
  - apply prescan_help in PS as (arg & _ & Hh).
    destruct (cli_summary _ _ _) as [w1|] eqn:E; intros [= <- _ <-];
      [|now left].
    apply cli_summary_world in E as (_ & _ & _ & [D|(D & V & N)]);
      [now left|right].
    rewrite F1, B1 in *. repeat split; auto.
    unfold help_hit in Hh. rewrite F1 in Hh.
    apply andb_true_iff in Hh as [_ Hh]. exact Hh.
  - intros [= _ _ <-]; now left.
  - intros M. apply main_loop_ok in M as (_ & _ & (D & _) & _). now left.
Qed.

Lemma parse_writes_no_caller_table_witness :
  let w := start ["pip"; "install"; "-h"] no_files in
  let res := cli_parse pip_clip w in
  base (snd (fst res)) = base pip_clip /\ cmds (snd (fst res)) = cmds pip_clip
  /\ (def_version (snd res) = def_version w
      \/ (def_version (snd res) = set_a_short (def_version w) 0
          /\ fst (fst res) = Returned CLIP_ERR_HELP
          /\ has_flag (flags pip_clip) CLIP_FLAG_HELP = true
          /\ has_flag (flags pip_clip) CLIP_FLAG_VERSION = true
          /\ cli__find_opt_0 (base pip_clip) "v" <> None)).
Proof.
  intros w res.
  apply (parse_writes_no_caller_table pip_clip w).
  vm_compute; reflexivity.
Defined.

(** ** C10 and C2: tokens the main loop does not recognise *)

Lemma char_at_ptr_add s : forall i j, char_at (ptr_add s i) j = char_at s (i + j).
Proof.
  induction s as [|ch r IH]; intros [|i] j; simpl; try reflexivity.
  unfold char_at in *; simpl. apply IH.
Qed.

Lemma memcmp_S a b n :
  memcmp a b (S n)
  = Ascii.eqb (char_at a 0) (char_at b 0) && memcmp (ptr_add a 1) (ptr_add b 1) n.
Proof. reflexivity. Qed.


(** An option that takes a value: its mode is not 0 and has [ARG_REQD]. *)
Definition value_required (opt : cli_opt) : bool :=
  negb (mode opt =? 0) && negb (Z.land (mode opt) ARG_REQD =? 0).







(** The token at the cursor is one the parser cannot take: the first
    character of a short cluster or the name of a long option matches no
    descriptor of the active group or of the base group, or it matches one
    that takes a value where the token carries none and no token follows,
    or the token is bare and the active group has no catch-all. *)
Definition offending (c : clip) (w : world) : bool :=
  let i := index c in
  let arg := arg_at w i in
  if IS_SHORT_OPT arg then
    match cli__find_opt c (live c) (String (char_at arg 1) EmptyString) with
    | None => true
    | Some (opt, _) =>
        value_required opt && Ascii.eqb (char_at arg 2) NUL
        && (argc w <=? i + 1)
    end
  else if IS_LONG_OPT arg then
    match cli__find_opt c (live c) (long_key w i) with
    | None => true
    | Some (opt, _) =>
        value_required opt && is_none (long_eq w i) && (argc w <=? i + 1)
    end
  else if Ascii.eqb (char_at arg 0) "@" then false
  else if IS_DOUBLE_DASH arg then false
  else is_none (cli__find_any (deref c (live c))).

Lemma live_set_index c i : live (set_index c i) = live c.
Proof. reflexivity. Qed.

Lemma find_opt_set_index c i p s :
  cli__find_opt (set_index c i) p s = cli__find_opt c p s.
Proof. now destruct c. Qed.

Lemma deref_set_index c i p : deref (set_index c i) p = deref c p.
Proof. now destruct c. Qed.

Lemma argc_long_split w i : argc (long_split w i) = argc w.
Proof. apply argc_quiet, quiet_long_split. Qed.

(** The character [ch] of a cluster cannot be taken. *)
Definition offending_char (rest : string) (ch : ascii) (c : clip) (w : world)
  : bool :=
  match cli__find_opt c (live c) (String ch EmptyString) with
  | None => true
  | Some (opt, _) =>
      value_required opt && Ascii.eqb (char_at rest 0) NUL
      && (argc w <=? index c)
  end.

Lemma short_cluster_offending rest ch c w :
  offending_char rest ch c w = true ->
  exists text,
    short_cluster rest ch c w
    = Done (Returned CLIP_ERR_BAD_ARG) c (emit (err_stream c) text w).
Proof.
  unfold offending_char. rewrite short_cluster_eq; cbv zeta.
  destruct (cli__find_opt c (live c) _) as [[opt cmd]|];
    [|intros _; eexists; reflexivity].
  unfold value_required. intros H.
  apply andb_true_iff in H as [H A]. apply andb_true_iff in H as [H E].
  apply andb_true_iff in H as [M R].
  apply negb_true_iff in M. rewrite M, R, E.
  apply Z.leb_le in A. apply Z.ltb_ge in A. rewrite A.
  eexists; reflexivity.
Qed.

Lemma main_step_offending c w :
  offending c w = true ->
  exists w',
    main_step c w
    = Done (Returned CLIP_ERR_BAD_ARG) (set_index c (index c + 1)) w'
    /\ calls w' = calls w
    /\ exists text, written w' = written w ++ [(err_stream c, text)].
Proof.
  unfold offending, main_step; cbv zeta.
  set (arg := arg_at w (index c)).
  destruct (IS_SHORT_OPT arg).
  { intros H.
    destruct (short_cluster_offending (ptr_add arg 2) (char_at arg 1)
                (set_index c (index c + 1)) w) as [text E].
    - unfold offending_char. rewrite find_opt_set_index, live_set_index.
      destruct (cli__find_opt c (live c) _) as [[opt cmd]|]; [|reflexivity].
      now rewrite char_at_ptr_add.
    - rewrite E. eexists; split; [reflexivity|]. split; [reflexivity|].
      exists text; reflexivity. }
  destruct (IS_LONG_OPT arg).
  { unfold long_option. rewrite find_opt_set_index, live_set_index.
    destruct (cli__find_opt c (live c) _) as [[opt cmd]|].
    - unfold value_required. intros H.
      apply andb_true_iff in H as [H A]. apply andb_true_iff in H as [H E].
      apply andb_true_iff in H as [M R].
      apply negb_true_iff in M. rewrite M, R.
      unfold long_split. destruct (long_eq w (index c)); [discriminate|].
      apply Z.leb_le in A. apply Z.ltb_ge in A. simpl. rewrite A.
      eexists; split; [reflexivity|]. split; [reflexivity|].
      eexists; reflexivity.
    - intros _. eexists; split; [reflexivity|]. split.
      + destruct (quiet_long_split w (index c)) as (_ & _ & _ & _).
        unfold long_split; destruct (long_eq w (index c)); reflexivity.
      + unfold long_split; destruct (long_eq w (index c));
          eexists; reflexivity. }
  destruct (Ascii.eqb (char_at arg 0) "@"); [discriminate|].
  destruct (IS_DOUBLE_DASH arg); [discriminate|].
  rewrite deref_set_index, live_set_index.
  destruct (cli__find_any _); [discriminate|]. intros _.
  eexists; split; [reflexivity|]. split; [reflexivity|].
  eexists; reflexivity.
Qed.

(** C2, as stated, fails: [ntpd --bogus] returns [CLIP_ERR_BAD_ARG]
    (-4), not [CLIP_ERR_INVALID] (-1). *)
Lemma bogus_option_is_not_invalid :
  let '(r, _, w') := cli_parse ntpd_clip (start ["ntpd"; "--bogus"] no_files) in
  r = Returned (-4) /\ r <> Returned CLIP_ERR_INVALID
  /\ calls w' = []
  /\ written w' = [(stdout, "Invalid option: --bogus" +:+ LF)].
Proof. vm_compute. repeat split; discriminate. Qed.

(** C2, amended.  When the main loop comes to a token it cannot take
    (an unknown short-option character, an unknown long-option name, a
    bare token where the active group has no catch-all, or an option that
    takes a value with none in the token and no token after it), the
    parse returns [CLIP_ERR_BAD_ARG] (-4) there, having written one
    diagnostic and invoked the call-back for nothing of that token.  The
    same holds at each later character of a cluster of short options:
    the call-backs of the characters before it have been made, none is
    made for the character that cannot be taken.  Of a whole parse this
    is said where the scan for a sub-command is defined; where it is not,
    the parse is undefined before it comes to any token. *)
Theorem unrecognised_token_is_bad_arg :
  CLIP_ERR_BAD_ARG = -4
  /\ (forall (fuel : nat) (c : clip) (w : world),
        index c < argc w -> offending c w = true ->
        exists c' w',
          main_loop (S fuel) c w = (Returned CLIP_ERR_BAD_ARG, c', w')
          /\ calls w' = calls w
          /\ exists text, written w' = written w ++ [(err_stream c, text)])
  /\ (forall (c : clip) (w : world),
        index c = 0 -> 1 < argc w ->
        let c1 := detect (set_index c 1) w in
        prescan c1 (drop (Z.to_nat (index c1)) (argv w)) = None ->
        index c1 < argc w -> offending c1 w = true ->
        if detect_undefined (set_index c 1) w
        then cli_parse c w = (Undefined, c1, w)
        else exists c' w',
               cli_parse c w = (Returned CLIP_ERR_BAD_ARG, c', w')
               /\ calls w' = calls w)
  /\ (forall (rest : string) (ch : ascii) (c : clip) (w : world),
        offending_char rest ch c w = true ->
        exists w',
          short_cluster rest ch c w = Done (Returned CLIP_ERR_BAD_ARG) c w'
          /\ calls w' = calls w).
Proof.
  split; [reflexivity|].
  assert (A : forall fuel c w, index c < argc w -> offending c w = true ->
            exists c' w',
              main_loop (S fuel) c w = (Returned CLIP_ERR_BAD_ARG, c', w')
              /\ calls w' = calls w
              /\ exists text, written w' = written w ++ [(err_stream c, text)]).
  { intros fuel c w I O. rewrite main_loop_eq.
    apply Z.ltb_lt in I; rewrite I.
    destruct (main_step_offending c w O) as (w' & -> & C & T). eauto. }
  split; [exact A|]. split.
  - intros c w I0 A1 c1 P I1 O. rewrite cli_parse_eq.
    apply Z.eqb_eq in I0; rewrite I0. apply Z.ltb_lt in A1; rewrite A1.
    simpl. fold c1.
    destruct (detect_undefined (set_index c 1) w); [reflexivity|].
    rewrite P.
    destruct (argv w) as [|a0 args] eqn:AV.
    { unfold argc in A1. rewrite AV in A1. simpl in A1. apply Z.ltb_lt in A1. lia. }
    rewrite <- AV. replace (length (argv w)) with (S (length args))
      by now rewrite AV.
    destruct (A (length args) c1 w I1 O) as (c' & w' & E & C & _). eauto.
  - intros rest ch c w O.
    destruct (short_cluster_offending rest ch c w O) as [text ->]. eauto.
Qed.

Lemma unrecognised_token_is_bad_arg_witness :
  exists c' w',
    cli_parse ntpd_clip (start ["ntpd"; "-k"] no_files)
    = (Returned CLIP_ERR_BAD_ARG, c', w')
    /\ calls w' = calls (start ["ntpd"; "-k"] no_files).
Proof.
  refine (proj1 (proj2 (proj2 unrecognised_token_is_bad_arg))
            ntpd_clip (start ["ntpd"; "-k"] no_files) _ _ _ _ _).
  all: vm_compute; reflexivity.
Defined.

(** ** C9: the write into the argument string of a long option *)

(** [ch] does not occur in [s]. *)
Fixpoint lacks (ch : ascii) (s : string) : bool :=
  match s with
  | EmptyString => true
  | String d r => negb (Ascii.eqb d ch) && lacks ch r
  end.

Lemma poke_poke s : forall k x y, poke (poke s k x) k y = poke s k y.
Proof. induction s as [|d r IH]; intros [|k] x y; simpl; congruence. Qed.

Lemma strchr_poke s ch : forall e,
  strchr s ch = Some e -> poke s e ch = s.
Proof.
  induction s as [|d r IH]; intros e; simpl; [discriminate|].
  destruct (Ascii.eqb d NUL); [discriminate|].
  destruct (Ascii.eqb d ch) eqn:E.
  - intros [= <-]. apply Ascii.eqb_eq in E. now subst.
  - destruct (strchr r ch) as [e'|]; simpl; [|discriminate].
    intros [= <-]. now rewrite IH.
Qed.

Lemma poke_ptr_add s : forall k e ch,
  poke (ptr_add s k) e ch = ptr_add s k -> poke s (k + e) ch = s.
Proof.
  induction s as [|d r IH]; intros [|k] e ch; simpl; auto.
  intros H. f_equal. now apply IH.
Qed.

(** Writing the [=] back where [strchr] found it gives the buffer back. *)
Lemma poke_back s k e x :
  strchr (ptr_add s k) "=" = Some e ->
  poke (poke s (k + e) x) (k + e) "=" = s.
Proof.
  intros H. rewrite poke_poke. apply poke_ptr_add. now apply strchr_poke.
Qed.

Lemma arg_at_in_range w i :
  arg_at w i <> EmptyString -> argv w !! Z.to_nat i = Some (arg_at w i).
Proof.
  unfold arg_at. destruct (argv w !! Z.to_nat i); simpl; congruence.
Qed.

Lemma long_eq_in_range w i e :
  long_eq w i = Some e -> argv w !! Z.to_nat i = Some (arg_at w i).
Proof.
  unfold long_eq. intros H. apply arg_at_in_range. intros E.
  rewrite E in H. discriminate.
Qed.

Lemma arg_at_poke_arg w i k ch :
  argv w !! Z.to_nat i = Some (arg_at w i) ->
  arg_at (poke_arg w i k ch) i = poke (arg_at w i) k ch.
Proof.
  intros H. unfold poke_arg, arg_at at 1; simpl.
  rewrite list_lookup_insert_eq; [reflexivity|].
  eapply lookup_lt_Some; eauto.
Qed.

(** [*eq = '='] after [*eq = 0] leaves the arguments as they were, whatever
    was logged in between. *)
Lemma long_restore_split w i w1 :
  argv w1 = argv (long_split w i) ->
  argv (long_restore (long_eq w i) i w1) = argv w.
Proof.
  unfold long_split, long_restore.
  destruct (long_eq w i) as [e|] eqn:E; [|auto].
  intros A. pose proof (long_eq_in_range _ _ _ E) as R.
  unfold poke_arg at 1; simpl.
  assert (arg_at w1 i = poke (arg_at w i) (2 + e) NUL) as ->.
  { unfold arg_at at 1. rewrite A. now apply arg_at_poke_arg. }
  rewrite A. unfold poke_arg; simpl.
  pose proof (poke_back _ 2 e NUL E) as PB; simpl in PB.
  rewrite list_insert_insert_eq, PB.
  now apply list_insert_id.
Qed.


Lemma strlen_app_nul nm v : lacks NUL nm = true -> cstr (nm +:+ String NUL v) = nm.
Proof.
  induction nm as [|d r IH]; simpl; [reflexivity|].
  intros H. apply andb_true_iff in H as [D L].
  apply negb_true_iff in D. rewrite D. now rewrite IH.
Qed.

Lemma cstr_plain s : lacks NUL s = true -> cstr s = s.
Proof.
  induction s as [|d r IH]; simpl; [reflexivity|].
  intros H. apply andb_true_iff in H as [D L].
  apply negb_true_iff in D. rewrite D. now rewrite IH.
Qed.

Lemma strchr_app nm ch v :
  lacks NUL nm = true -> lacks ch nm = true -> ch <> NUL ->
  strchr (nm +:+ String ch v) ch = Some (String.length nm).
Proof.
  intros N L C. induction nm as [|d r IH]; simpl.
  - apply Ascii.eqb_neq in C. now rewrite C, Ascii.eqb_refl.
  - simpl in N, L. apply andb_true_iff in N as [N1 N2].
    apply andb_true_iff in L as [L1 L2].
    apply negb_true_iff in N1, L1. rewrite N1, L1, IH; auto.
Qed.

Lemma poke_app nm x y v :
  poke (nm +:+ String x v) (String.length nm) y = nm +:+ String y v.
Proof. induction nm as [|d r IH]; simpl; [reflexivity | now rewrite IH]. Qed.

Lemma ptr_add_app nm r : ptr_add (nm +:+ r) (String.length nm) = r.
Proof. induction nm as [|d t IH]; simpl; [now destruct r | exact IH]. Qed.

Lemma ptr_add_S s k : ptr_add s (S k) = ptr_add (ptr_add s 1) k.
Proof. destruct s; simpl; [now destruct k | reflexivity]. Qed.

(** The look-up reads its key as a C string. *)
Lemma cstr_idem s : cstr (cstr s) = cstr s.
Proof.
  induction s as [|d r IH]; simpl; [reflexivity|].
  destruct (Ascii.eqb d NUL) eqn:E; simpl; [reflexivity|]. now rewrite E, IH.
Qed.

Lemma strlen_cstr s : strlen (cstr s) = strlen s.
Proof. unfold strlen. now rewrite cstr_idem. Qed.

Lemma memcmp_cstr s : forall b n,
  (n <= strlen s)%nat -> memcmp (cstr s) b n = memcmp s b n.
Proof.
  induction s as [|d r IH]; intros b [|n] L; try reflexivity.
  unfold strlen in L. rewrite !memcmp_S. simpl in L |- *.
  destruct (Ascii.eqb d NUL); [simpl in L; lia|].
  simpl in L. unfold char_at at 1 3; simpl. f_equal.
  apply IH. unfold strlen. lia.
Qed.

Lemma char_at_cstr s : (1 <= strlen s)%nat -> char_at (cstr s) 0 = char_at s 0.
Proof.
  destruct s as [|d r]; [reflexivity|]. unfold strlen; simpl.
  destruct (Ascii.eqb d NUL); [simpl; lia | reflexivity].
Qed.

Lemma find_opt_from_cstr l s : find_opt_from l (cstr s) = find_opt_from l s.
Proof.
  induction l as [|opt rest IH]; simpl; [reflexivity|].
  destruct (IS_OPT_END opt); [reflexivity|].
  destruct (negb (Z.land (mode opt) ARG_ANYK =? 0)); [exact IH|].
  rewrite !strlen_cstr, IH.
  destruct (Nat.eqb (strlen s) 1) eqn:E.
  - apply Nat.eqb_eq in E. rewrite char_at_cstr by lia.
    destruct (char_int (char_at s 0) =? a_short opt); simpl; [reflexivity|].
    destruct (a_long opt); [|reflexivity]. now rewrite memcmp_cstr.
  - simpl. destruct (a_long opt); [|reflexivity]. now rewrite memcmp_cstr.
Qed.

Lemma find_opt_cstr c p s : cli__find_opt c p (cstr s) = cli__find_opt c p s.
Proof.
  unfold cli__find_opt, cli__find_opt_0.
  destruct (deref c p), (base c); now rewrite ?find_opt_from_cstr.
Qed.

Lemma world_eq w w' :
  argv w = argv w' -> def_version w = def_version w' -> files w = files w' ->
  written w = written w' -> calls w = calls w' -> w = w'.
Proof. destruct w, w'; simpl; congruence. Qed.

(** A call-back between the two writes sees the split string; after the
    second write the world is as if the string had never been touched. *)
Lemma long_restore_record_call w i k :
  long_restore (long_eq w i) i (record_call k (long_split w i))
  = record_call k w.
Proof.
  apply world_eq.
  - now rewrite long_restore_split.
  - unfold long_restore, long_split; now destruct (long_eq w i).
  - unfold long_restore, long_split; now destruct (long_eq w i).
  - unfold long_restore, long_split; now destruct (long_eq w i).
  - unfold long_restore, long_split; now destruct (long_eq w i).
Qed.


Lemma calls_long_split w i : calls (long_split w i) = calls w.
Proof. unfold long_split; now destruct (long_eq w i). Qed.







(** ** C6: clusters of short options *)

Definition opt_a : cli_opt := CLI_OPT_SWITCH 97 None (Some "a").
Definition opt_b : cli_opt := CLI_OPT_SWITCH 98 None (Some "b").
Definition opt_c : cli_opt := CLI_OPT_VALUE 99 None (Some "T") (Some "c").
Definition abc_base : cli_sub_cmd := CLI_CMD None [opt_a; opt_b; opt_c].

(** The main loop, one token at a time. *)
Lemma main_loop_next fuel c w c' w' :
  index c < argc w -> main_step c w = Next c' w' ->
  main_loop (S fuel) c w = main_loop fuel c' w'.
Proof. intros I E. rewrite main_loop_eq, E. apply Z.ltb_lt in I. now rewrite I. Qed.

Lemma main_loop_done fuel c w r c' w' :
  index c < argc w -> main_step c w = Done r c' w' ->
  main_loop (S fuel) c w = (r, c', w').
Proof. intros I E. rewrite main_loop_eq, E. apply Z.ltb_lt in I. now rewrite I. Qed.

Lemma main_loop_end fuel c w :
  argc w <= index c -> main_loop fuel c w = (Returned 0, c, w).
Proof. intros I. apply Z.ltb_ge in I. destruct fuel; simpl; now rewrite I. Qed.

Lemma cluster_again_cons ch rest c w :
  ch <> NUL -> cluster_again (String ch rest) c w = short_cluster rest ch c w.
Proof. intros N. apply Ascii.eqb_neq in N. simpl. now rewrite N. Qed.

(** A switch in a cluster: one invocation without a value, and on to the
    next character. *)
Lemma short_cluster_switch rest ch c w opt cmd :
  cli__find_opt c (live c) (String ch EmptyString) = Some (opt, cmd) ->
  mode opt = 0 ->
  let k := CbCall cmd (Some opt) None in
  short_cluster rest ch c w =
    if cb c (calls w) k =? 0 then cluster_again rest c (record_call k w)
    else Done (Returned CLIP_ERR_CB_FAIL) c (record_call k w).
Proof.
  intros F M k. rewrite short_cluster_eq; cbv zeta. rewrite F, M. simpl.
  unfold invoke. fold k. now destruct (cb c (calls w) k =? 0).
Qed.

(** A value-required character of a cluster with characters after it. *)
Lemma short_cluster_inline rest ch c w opt cmd :
  cli__find_opt c (live c) (String ch EmptyString) = Some (opt, cmd) ->
  value_required opt = true ->
  char_at rest 0 <> NUL ->
  let k := CbCall cmd (Some opt) (Some (cstr rest)) in
  short_cluster rest ch c w =
    if cb c (calls w) k =? 0 then Next c (record_call k w)
    else Done (Returned CLIP_ERR_CB_FAIL) c (record_call k w).
Proof.
  intros F V N k. rewrite short_cluster_eq; cbv zeta. rewrite F.
  unfold value_required in V. apply andb_true_iff in V as [M R].
  apply negb_true_iff in M. rewrite M, R.
  apply Ascii.eqb_neq in N. rewrite N. unfold invoke. fold k.
  now destruct (cb c (calls w) k =? 0).
Qed.

(** A value-required character that ends its token, with a token after. *)
Lemma short_cluster_next_token rest ch c w opt cmd :
  cli__find_opt c (live c) (String ch EmptyString) = Some (opt, cmd) ->
  value_required opt = true ->
  char_at rest 0 = NUL ->
  index c < argc w ->
  let k := CbCall cmd (Some opt) (Some (cstr (arg_at w (index c)))) in
  let c' := set_index c (index c + 1) in
  short_cluster rest ch c w =
    if cb c (calls w) k =? 0 then Next c' (record_call k w)
    else Done (Returned CLIP_ERR_CB_FAIL) c' (record_call k w).
Proof.
  intros F V N I k c'. rewrite short_cluster_eq; cbv zeta. rewrite F.
  unfold value_required in V. apply andb_true_iff in V as [M R].
  apply negb_true_iff in M. rewrite M, R, N. simpl.
  apply Z.ltb_lt in I. rewrite I. unfold invoke. fold k c'.
  change (cb c') with (cb c).
  now destruct (cb c (calls w) k =? 0).
Qed.

(** The cluster [-abc...] under a call-back that accepts everything:
    [a], [b], then [c] with its value. *)
Lemma cluster_abc c w rest :
  base c = Some abc_base -> live c = Some Base ->
  (forall h k, cb c h k = 0) ->
  let ka := CbCall (Some Base) (Some opt_a) None in
  let kb := CbCall (Some Base) (Some opt_b) None in
  short_cluster (String "b" (String "c" rest)) "a" c w
  = short_cluster rest "c" c (record_call kb (record_call ka w)).
Proof.
  intros B L H ka kb.
  assert (F : forall ch, cli__find_opt c (live c) (String ch EmptyString)
              = match find_opt_from [opt_a; opt_b; opt_c] (String ch EmptyString) with
                | Some o => Some (o, Some Base)
                | None => None
                end).
  { intros ch. unfold cli__find_opt, cli__find_opt_0, deref, base_ptr.
    rewrite L, B. change (opts abc_base) with [opt_a; opt_b; opt_c].
    now destruct (find_opt_from [opt_a; opt_b; opt_c] (String ch EmptyString)). }
  rewrite (short_cluster_switch _ "a" c w opt_a (Some Base))
    by (rewrite ?F; reflexivity).
  cbv zeta. rewrite H. change (0 =? 0) with true. cbv iota.
  rewrite cluster_again_cons by discriminate.
  rewrite (short_cluster_switch _ "b" c _ opt_b (Some Base))
    by (rewrite ?F; reflexivity).
  cbv zeta. rewrite H. change (0 =? 0) with true. cbv iota.
  now rewrite cluster_again_cons by discriminate.
Qed.

(** C6.  With the options [-a] and [-b], switches, and [-c <T>], which
    takes a value, declared in the base group and a call-back that
    accepts every invocation, the arguments [-abc data] and the argument
    [-abcdata] both give the invocations [a], [b], [c] with the value
    [data], and the parse succeeds.  In general a character of a cluster
    that takes a value takes what is left of its token as the value, or,
    with nothing left, the whole next token; the call-back is invoked
    once with it and no character of the cluster is looked up after. *)
Theorem cluster_with_value (c : clip) (fs : string -> option string) :
  base c = Some abc_base -> index c = 0 ->
  (forall h k, cb c h k = 0) ->
  let expected :=
    [ CbCall (Some Base) (Some opt_a) None;
      CbCall (Some Base) (Some opt_b) None;
      CbCall (Some Base) (Some opt_c) (Some "data") ] in
  (exists c' w',
     cli_parse c (start ["prog"; "-abc"; "data"] fs)
     = (Returned CLIP_ERR_OK, c', w')
     /\ calls w' = expected /\ index c' = 3)
  /\ (exists c' w',
        cli_parse c (start ["prog"; "-abcdata"] fs)
        = (Returned CLIP_ERR_OK, c', w')
        /\ calls w' = expected /\ index c' = 2)
  /\ (forall rest ch c0 w opt cmd,
        cli__find_opt c0 (live c0) (String ch EmptyString) = Some (opt, cmd) ->
        value_required opt = true ->
        char_at rest 0 <> NUL ->
        let k := CbCall cmd (Some opt) (Some (cstr rest)) in
        short_cluster rest ch c0 w =
          if cb c0 (calls w) k =? 0 then Next c0 (record_call k w)
          else Done (Returned CLIP_ERR_CB_FAIL) c0 (record_call k w))
  /\ (forall rest ch c0 w opt cmd,
        cli__find_opt c0 (live c0) (String ch EmptyString) = Some (opt, cmd) ->
        value_required opt = true ->
        char_at rest 0 = NUL ->
        index c0 < argc w ->
        let k := CbCall cmd (Some opt) (Some (cstr (arg_at w (index c0)))) in
        let c' := set_index c0 (index c0 + 1) in
        short_cluster rest ch c0 w =
          if cb c0 (calls w) k =? 0 then Next c' (record_call k w)
          else Done (Returned CLIP_ERR_CB_FAIL) c' (record_call k w)).
Proof.
  intros B I H expected.
  destruct c as [fl pn hd ft ver bs cm cbf o ix lv]; simpl in B, I, H; subst.
  set (c1 := Clip fl pn hd ft ver (Some abc_base) cm cbf o 1 (Some Base)).
  set (c2 := set_index c1 2).
  assert (Fc : forall c, base c = Some abc_base -> live c = Some Base ->
               cli__find_opt c (live c) "c" = Some (opt_c, Some Base)).
  { intros c Bc Lc. unfold cli__find_opt, cli__find_opt_0, deref.
    now rewrite Lc, Bc. }
  split; [|split; [|split]].
  - set (w := start ["prog"; "-abc"; "data"] fs).
    assert (E : cli_parse (Clip fl pn hd ft ver (Some abc_base) cm cbf o 0 lv) w
                = main_loop 3 c1 w) by reflexivity.
    rewrite E.
    assert (S1 : main_step c1 w = short_cluster "bc" "a" c2 w) by reflexivity.
    rewrite (cluster_abc c2 w EmptyString eq_refl eq_refl H) in S1.
    cbv zeta in S1.
    rewrite (short_cluster_next_token _ "c" c2 _ opt_c (Some Base)) in S1
      by (try apply Fc; reflexivity).
    cbv zeta in S1. rewrite H in S1. change (0 =? 0) with true in S1.
    cbv iota in S1.
    erewrite main_loop_next; [|reflexivity|exact S1].
    rewrite main_loop_end by (vm_compute; discriminate).
    do 2 eexists. split; [reflexivity|]. split; reflexivity.
  - set (w := start ["prog"; "-abcdata"] fs).
    assert (E : cli_parse (Clip fl pn hd ft ver (Some abc_base) cm cbf o 0 lv) w
                = main_loop 2 c1 w) by reflexivity.
    rewrite E.
    assert (S1 : main_step c1 w = short_cluster "bcdata" "a" c2 w) by reflexivity.
    rewrite (cluster_abc c2 w "data" eq_refl eq_refl H) in S1.
    cbv zeta in S1.
    rewrite (short_cluster_inline _ "c" c2 _ opt_c (Some Base)) in S1
      by (try apply Fc; try reflexivity; discriminate).
    cbv zeta in S1. rewrite H in S1. change (0 =? 0) with true in S1.
    cbv iota in S1.
    erewrite main_loop_next; [|reflexivity|exact S1].
    rewrite main_loop_end by (vm_compute; discriminate).
    do 2 eexists. split; [reflexivity|]. split; reflexivity.
  - exact short_cluster_inline.
  - exact short_cluster_next_token.
Qed.

Definition abc_clip : clip :=
  Clip 0 "prog" None None None (Some abc_base) None quiet_cb None 0 None.

Lemma cluster_with_value_witness :
  (exists c' w',
     cli_parse abc_clip (start ["prog"; "-abc"; "data"] no_files)
     = (Returned CLIP_ERR_OK, c', w')
     /\ calls w' =
        [ CbCall (Some Base) (Some opt_a) None;
          CbCall (Some Base) (Some opt_b) None;
          CbCall (Some Base) (Some opt_c) (Some "data") ]
     /\ index c' = 3).
Proof.
  exact (proj1 (cluster_with_value abc_clip no_files eq_refl eq_refl
                  (fun _ _ => eq_refl))).
Defined.


(** ** C7: argument files *)

Definition lf : ascii := ascii_of_nat 10.

(** What [cli_do_file] does with a key and an optional value. *)
Definition file_dispatch (c : clip) (key : string) (val : option string)
  (w : world) : Z * world :=
  match cli__find_opt c (live c) key with
  | None =>
      (CLIP_ERR_BAD_ARG,
       cli_bad_arg (err_stream c) (flags c)
         (if Nat.eqb (strlen key) 1 then 1 else 2) "Invalid option:" key w)
  | Some (opt, cmd) =>
      let k := CbCall cmd (Some opt) val in
      (if cb c (calls w) k =? 0 then 0 else CLIP_ERR_CB_FAIL, record_call k w)
  end.

Lemma append_nil_l s : EmptyString +:+ s = s.
Proof. reflexivity. Qed.

Lemma append_cons d s r : String d s +:+ r = String d (s +:+ r).
Proof. reflexivity. Qed.

(** [simpl] through [+:+], which it does not unfold by itself. *)
Ltac str_simpl := rewrite ?append_cons, ?append_nil_l; simpl.

Lemma append_assoc a b c : (a +:+ b) +:+ c = a +:+ (b +:+ c).
Proof. induction a as [|d t IH]; str_simpl; [reflexivity | now rewrite IH]. Qed.

Lemma strchr_app_gen s r ch :
  lacks NUL s = true -> lacks ch s = true ->
  strchr (s +:+ r) ch = option_map (Nat.add (String.length s)) (strchr r ch).
Proof.
  intros N L. induction s as [|d t IH]; str_simpl.
  - now destruct (strchr r ch).
  - simpl in N, L. apply andb_true_iff in N as [N1 N2].
    apply andb_true_iff in L as [L1 L2].
    apply negb_true_iff in N1, L1. rewrite N1, L1, IH; auto.
    now destruct (strchr r ch).
Qed.

Lemma poke_app_gen s r e y :
  poke (s +:+ r) (String.length s + e) y = s +:+ poke r e y.
Proof. induction s as [|d t IH]; str_simpl; [reflexivity | now rewrite IH]. Qed.

Lemma ptr_add_app_gen s r e :
  ptr_add (s +:+ r) (String.length s + e) = ptr_add r e.
Proof. induction s as [|d t IH]; str_simpl; [reflexivity | exact IH]. Qed.

Lemma cstr_app s r : lacks NUL s = true -> cstr (s +:+ r) = s +:+ cstr r.
Proof.
  induction s as [|d t IH]; str_simpl; [reflexivity|].
  intros H. apply andb_true_iff in H as [D L].
  apply negb_true_iff in D. rewrite D. now rewrite IH.
Qed.

Lemma append_nil_r s : s +:+ EmptyString = s.
Proof. induction s as [|d t IH]; str_simpl; [reflexivity | now rewrite IH]. Qed.

Lemma strchr_none s ch :
  lacks ch s = true -> strchr s ch = None.
Proof.
  induction s as [|d t IH]; simpl; [reflexivity|].
  intros H. apply andb_true_iff in H as [D L].
  apply negb_true_iff in D. rewrite D, IH by auto.
  now destruct (Ascii.eqb d NUL).
Qed.

Lemma strchr_cons_ne d r ch :
  d <> NUL -> d <> ch -> strchr (String d r) ch = option_map S (strchr r ch).
Proof.
  intros N C. apply Ascii.eqb_neq in N, C. simpl. now rewrite N, C.
Qed.

Lemma strchr_cons_eq ch r : ch <> NUL -> strchr (String ch r) ch = Some O.
Proof.
  intros N. apply Ascii.eqb_neq in N. simpl. now rewrite N, Ascii.eqb_refl.
Qed.

(** The first newline of [s], a line without NUL or newline, followed by
    a newline, and the line once the newline is overwritten. *)
Lemma strchr_newline s :
  lacks NUL s = true -> lacks lf s = true ->
  strchr (s +:+ LF) lf = Some (String.length s + 0)%nat.
Proof.
  intros N L. rewrite strchr_app_gen by assumption. unfold LF.
  change (ascii_of_nat 10) with lf. now rewrite strchr_cons_eq.
Qed.

Lemma poke_newline s :
  poke (s +:+ LF) (String.length s + 0) NUL = s +:+ String NUL EmptyString.
Proof. now rewrite poke_app_gen. Qed.

Lemma lacks_app ch s r :
  lacks ch (s +:+ r) = lacks ch s && lacks ch r.
Proof.
  induction s as [|d t IH]; str_simpl; [reflexivity|].
  now rewrite IH, andb_assoc.
Qed.

Lemma bad_arg_cstr f fl tg pfx key key' w :
  cstr key = cstr key' ->
  cli_bad_arg f fl tg pfx key w = cli_bad_arg f fl tg pfx key' w.
Proof. unfold cli_bad_arg. now intros ->. Qed.

(** The body of the loop, once the buffer is known to hold the key [key],
    NUL-terminated, and the value [val]. *)
Lemma file_dispatch_eq c w key b2 val :
  cstr b2 = key -> lacks NUL key = true ->
  match cli__find_opt c (live c) b2 with
  | None =>
      (CLIP_ERR_BAD_ARG,
       cli_bad_arg (err_stream c) (flags c)
         (if Nat.eqb (strlen b2) 1 then 1 else 2) "Invalid option:" b2 w)
  | Some (opt, cmd) =>
      let '(r, w') := invoke c (CbCall cmd (Some opt) val) w in
      if negb (r =? 0) then (CLIP_ERR_CB_FAIL, w') else (0, w')
  end = file_dispatch c key val w.
Proof.
  intros K N. unfold file_dispatch.
  rewrite <- (find_opt_cstr c (live c) b2), K.
  destruct (cli__find_opt c (live c) key) as [[opt cmd]|].
  - unfold invoke. now destruct (cb c (calls w) _ =? 0).
  - rewrite <- (strlen_cstr b2), K. f_equal.
    apply bad_arg_cstr. rewrite K. now rewrite cstr_plain.
Qed.

(** The first part of the loop body: the newline goes. *)
Lemma do_file_line_strip c w s :
  lacks NUL s = true -> lacks lf s = true ->
  do_file_line c (s +:+ LF) w = do_file_line c (s +:+ String NUL EmptyString) w.
Proof.
  intros N L. unfold do_file_line. change (ascii_of_nat 10) with lf.
  rewrite strchr_newline, poke_newline by assumption.
  assert (X : strchr (s +:+ String NUL EmptyString) lf = None).
  { rewrite strchr_app_gen by assumption. reflexivity. }
  now rewrite X.
Qed.

(** A line [key=value]. *)
Lemma do_file_line_equals c w key val :
  lacks NUL key = true -> lacks lf key = true -> lacks "=" key = true ->
  lacks NUL val = true -> lacks lf val = true ->
  do_file_line c ((key +:+ String "=" val) +:+ LF) w
  = file_dispatch c key (Some val) w.
Proof.
  intros Nk Lk Ek Nv Lv.
  rewrite do_file_line_strip
    by (rewrite lacks_app; simpl; rewrite ?Nk, ?Lk, ?Nv, ?Lv; reflexivity).
  unfold do_file_line; cbv zeta. change (ascii_of_nat 10) with lf.
  replace ((key +:+ String "=" val) +:+ String NUL EmptyString)
    with (key +:+ String "=" (val +:+ String NUL EmptyString))
    by (now rewrite append_assoc).
  set (tail := val +:+ String NUL EmptyString).
  assert (S0 : strchr (key +:+ String "=" tail) lf = None).
  { rewrite strchr_app_gen by assumption.
    rewrite strchr_cons_ne by discriminate. unfold tail.
    rewrite strchr_app_gen by assumption. reflexivity. }
  assert (S2 : strchr (key +:+ String "=" tail) "="
               = Some (String.length key + 0)%nat).
  { rewrite strchr_app_gen by assumption.
    now rewrite strchr_cons_eq by discriminate. }
  rewrite S0, S2, poke_app_gen. simpl poke.
  replace (S (String.length key + 0))%nat with (String.length key + 1)%nat by lia.
  rewrite ptr_add_app_gen. simpl ptr_add. unfold tail at 2.
  rewrite strlen_app_nul by assumption.
  apply file_dispatch_eq; [|assumption]. now apply strlen_app_nul.
Qed.

(** A line that is a key alone. *)
Lemma do_file_line_bare c w key :
  lacks NUL key = true -> lacks lf key = true -> lacks "=" key = true ->
  lacks " " key = true ->
  do_file_line c (key +:+ LF) w = file_dispatch c key None w.
Proof.
  intros Nk Lk Ek Sk. rewrite do_file_line_strip by assumption.
  unfold do_file_line; cbv zeta.
  assert (S2 : forall ch, lacks ch key = true ->
               strchr (key +:+ String NUL EmptyString) ch = None).
  { intros ch L. rewrite strchr_app_gen by assumption. reflexivity. }
  change (ascii_of_nat 10) with lf. rewrite !S2 by assumption.
  apply file_dispatch_eq; [|assumption]. now apply strlen_app_nul.
Qed.

(** A line [key value], without a [=]. *)
Lemma do_file_line_space c w key val :
  lacks NUL key = true -> lacks lf key = true -> lacks "=" key = true ->
  lacks " " key = true ->
  lacks NUL val = true -> lacks lf val = true -> lacks "=" val = true ->
  do_file_line c ((key +:+ String " " val) +:+ LF) w
  = file_dispatch c key (Some val) w.
Proof.
  intros Nk Lk Ek Sk Nv Lv Ev.
  rewrite do_file_line_strip
    by (rewrite lacks_app; simpl; rewrite ?Nk, ?Lk, ?Nv, ?Lv; reflexivity).
  unfold do_file_line; cbv zeta. change (ascii_of_nat 10) with lf.
  replace ((key +:+ String " " val) +:+ String NUL EmptyString)
    with (key +:+ String " " (val +:+ String NUL EmptyString))
    by (now rewrite append_assoc).
  set (tail := val +:+ String NUL EmptyString).
  assert (S0 : forall ch, ch <> " "%char -> lacks ch key = true ->
               lacks ch val = true ->
               strchr (key +:+ String " " tail) ch = None).
  { intros ch C Lk' Lv'. rewrite strchr_app_gen by assumption.
    rewrite strchr_cons_ne by (discriminate || congruence). unfold tail.
    rewrite strchr_app_gen by assumption. reflexivity. }
  assert (S3 : strchr (key +:+ String " " tail) " "
               = Some (String.length key + 0)%nat).
  { rewrite strchr_app_gen by assumption.
    now rewrite strchr_cons_eq by discriminate. }
  rewrite (S0 lf), (S0 "="%char), S3, poke_app_gen by (assumption || discriminate).
  simpl poke.
  replace (S (String.length key + 0))%nat with (String.length key + 1)%nat by lia.
  rewrite ptr_add_app_gen. simpl ptr_add. unfold tail at 2.
  rewrite strlen_app_nul by assumption.
  apply file_dispatch_eq; [|assumption]. now apply strlen_app_nul.
Qed.

Lemma do_file_loop_eq fuel c f w :
  do_file_loop (S fuel) c f w =
  match fgets CLIP_BUFFER_SIZE f with
  | None => (Returned 0, w)
  | Some (buffer, f') =>
      let '(r, w') := do_file_line c buffer w in
      if negb (r =? 0) then (Returned r, w') else do_file_loop fuel c f' w'
  end.
Proof. reflexivity. Qed.

(** The base group of the example: [-v/--verbose], a switch, and
    [-f/--file], which takes a value. *)
Definition opt_verbose (h : option string) : cli_opt :=
  CLI_OPT_SWITCH 118 (Some "verbose") h.
Definition opt_file (t h : option string) : cli_opt :=
  CLI_OPT_VALUE 102 (Some "file") t h.
Definition vf_base (h1 t h2 : option string) : cli_sub_cmd :=
  CLI_CMD None [opt_verbose h1; opt_file t h2].

(** The file of the example: the lines [verbose] and [file=x.txt]. *)
Definition thatfile : string :=
  ("verbose" +:+ LF) +:+ (("file" +:+ String "=" "x.txt") +:+ LF).

Section ArgumentFileExample.

Variables (fl : Z) (pn : string) (hd ft ver : option string)
  (cm : option (list cli_sub_cmd)) (cbf : list cb_call -> cb_call -> Z)
  (o : option FILE) (lv : option cmd_ref) (h1 t h2 : option string)
  (fs : string -> option string).

Hypothesis fs_thatfile : fs "thatfile" = Some thatfile.

Let c0 : clip :=
  Clip fl pn hd ft ver (Some (vf_base h1 t h2)) cm cbf o 0 lv.
Let at_ (i : Z) : clip :=
  Clip fl pn hd ft ver (Some (vf_base h1 t h2)) cm cbf o i (Some Base).
Let kv : cb_call := CbCall (Some Base) (Some (opt_verbose h1)) None.
Let kf : cb_call := CbCall (Some Base) (Some (opt_file t h2)) (Some "x.txt").

(** The parse of [-v --file=x.txt]. *)
Lemma direct_run :
  let w := start ["prog"; "-v"; "--file=x.txt"] fs in
  cli_parse c0 w =
  if cbf [] kv =? 0 then
    if cbf [kv] kf =? 0
    then (Returned 0, at_ 3, record_call kf (record_call kv w))
    else (Returned CLIP_ERR_CB_FAIL, at_ 3,
          record_call kf (long_split (record_call kv w) 2))
  else (Returned CLIP_ERR_CB_FAIL, at_ 2, record_call kv w).
Proof.
  intros w.
  assert (E : cli_parse c0 w = main_loop 3 (at_ 1) w) by reflexivity.
  rewrite E.
  assert (S1 : main_step (at_ 1) w
               = if cbf [] kv =? 0 then Next (at_ 2) (record_call kv w)
                 else Done (Returned CLIP_ERR_CB_FAIL) (at_ 2) (record_call kv w)).
  { transitivity (short_cluster EmptyString "v" (at_ 2) w); [reflexivity|].
    rewrite (short_cluster_switch _ "v" (at_ 2) w (opt_verbose h1) (Some Base))
      by reflexivity.
    reflexivity. }
  destruct (cbf [] kv =? 0) eqn:A.
  2:{ erewrite main_loop_done; [|reflexivity|exact S1]. reflexivity. }
  erewrite main_loop_next; [|reflexivity|exact S1].
  assert (S2 : main_step (at_ 2) (record_call kv w)
               = if cbf [kv] kf =? 0
                 then Next (at_ 3) (record_call kf (record_call kv w))
                 else Done (Returned CLIP_ERR_CB_FAIL) (at_ 3)
                        (record_call kf (long_split (record_call kv w) 2))).
  { transitivity
      (if negb (cbf [kv] kf =? 0)
       then Done (Returned CLIP_ERR_CB_FAIL) (at_ 3)
              (record_call kf (long_split (record_call kv w) 2))
       else Next (at_ 3) (record_call kf (record_call kv w))); [reflexivity|].
    now destruct (cbf [kv] kf =? 0). }
  destruct (cbf [kv] kf =? 0) eqn:B.
  2:{ erewrite main_loop_done; [|reflexivity|exact S2]. reflexivity. }
  erewrite main_loop_next; [|reflexivity|exact S2].
  now rewrite main_loop_end by (vm_compute; discriminate).
Qed.

(** The parse of [@thatfile]. *)
Lemma file_run :
  let w := start ["prog"; "@thatfile"] fs in
  cli_parse c0 w =
  if cbf [] kv =? 0 then
    if cbf [kv] kf =? 0
    then (Returned 0, at_ 2, record_call kf (record_call kv w))
    else (Returned CLIP_ERR_CB_FAIL, at_ 2, record_call kf (record_call kv w))
  else (Returned CLIP_ERR_CB_FAIL, at_ 2, record_call kv w).
Proof.
  intros w.
  assert (E : cli_parse c0 w = main_loop 2 (at_ 1) w) by reflexivity.
  rewrite E.
  assert (S1 : main_step (at_ 1) w
               = match cli_do_file (at_ 2) "thatfile" w with
                 | (Returned r, w') =>
                     if negb (r =? 0) then Done (Returned r) (at_ 2) w'
                     else Next (at_ 2) w'
                 | (u, w') => Done u (at_ 2) w'
                 end) by reflexivity.
  assert (D : cli_do_file (at_ 2) "thatfile" w
              = do_file_loop (String.length thatfile) (at_ 2) thatfile w).
  { unfold cli_do_file.
    change (Nat.leb CLIP_BUFFER_SIZE (strlen "thatfile")) with false.
    cbv iota. change (files w (cstr "thatfile")) with (fs "thatfile").
    now rewrite fs_thatfile. }
  assert (L1 : do_file_line (at_ 2) ("verbose" +:+ LF) w
               = (if cbf [] kv =? 0 then 0 else CLIP_ERR_CB_FAIL,
                  record_call kv w)).
  { now rewrite do_file_line_bare. }
  assert (L2 : do_file_line (at_ 2) (("file" +:+ String "=" "x.txt") +:+ LF)
                 (record_call kv w)
               = (if cbf [kv] kf =? 0 then 0 else CLIP_ERR_CB_FAIL,
                  record_call kf (record_call kv w))).
  { now rewrite do_file_line_equals. }
  assert (G1 : fgets CLIP_BUFFER_SIZE thatfile
               = Some ("verbose" +:+ LF, ("file" +:+ String "=" "x.txt") +:+ LF))
    by reflexivity.
  assert (G2 : fgets CLIP_BUFFER_SIZE (("file" +:+ String "=" "x.txt") +:+ LF)
               = Some (("file" +:+ String "=" "x.txt") +:+ LF, EmptyString))
    by reflexivity.
  change (String.length thatfile) with (S (S 17)) in D.
  rewrite do_file_loop_eq, G1, L1 in D.
  destruct (cbf [] kv =? 0) eqn:A.
  2:{ simpl in D. rewrite D in S1. simpl in S1.
      erewrite main_loop_done; [|reflexivity|exact S1]. reflexivity. }
  simpl negb in D. cbv iota in D.
  rewrite do_file_loop_eq, G2, L2 in D.
  destruct (cbf [kv] kf =? 0) eqn:B.
  2:{ simpl in D. rewrite D in S1. simpl in S1.
      erewrite main_loop_done; [|reflexivity|exact S1]. reflexivity. }
  simpl in D. rewrite D in S1. simpl in S1.
  erewrite main_loop_next; [|reflexivity|exact S1].
  now rewrite main_loop_end by (vm_compute; discriminate).
Qed.

End ArgumentFileExample.

(** C7.  With [-v/--verbose], a switch, and [-f/--file], which takes a
    value, in the base group, and a file [thatfile] of the two lines
    [verbose] and [file=x.txt], the argument [@thatfile] gives the same
    call-back invocations (descriptor, group and value, in the same order)
    and the same outcome as the arguments [-v --file=x.txt], whatever the
    call-back answers; when it accepts both, the parse succeeds with the
    invocations [verbose] and [file] with [x.txt].  In general a line is
    split at its first [=], or without one at its first space, into a key
    and a value; a line without either is a key without a value; the key
    is looked up in the active group, then in the base group, and the
    call-back is invoked once for the line. *)
Theorem argument_file_matches_direct (c : clip)
  (fs : string -> option string) (h1 t h2 : option string) :
  base c = Some (vf_base h1 t h2) -> index c = 0 ->
  fs "thatfile" = Some thatfile ->
  let r1 := cli_parse c (start ["prog"; "@thatfile"] fs) in
  let r2 := cli_parse c (start ["prog"; "-v"; "--file=x.txt"] fs) in
  let kv := CbCall (Some Base) (Some (opt_verbose h1)) None in
  let kf := CbCall (Some Base) (Some (opt_file t h2)) (Some "x.txt") in
  fst (fst r1) = fst (fst r2)
  /\ calls (snd r1) = calls (snd r2)
  /\ ((forall h k, cb c h k = 0) ->
      fst (fst r1) = Returned CLIP_ERR_OK /\ calls (snd r1) = [kv; kf])
  /\ (forall c w key val,
        lacks NUL key = true -> lacks lf key = true -> lacks "=" key = true ->
        lacks NUL val = true -> lacks lf val = true ->
        do_file_line c ((key +:+ String "=" val) +:+ LF) w
        = file_dispatch c key (Some val) w)
  /\ (forall c w key val,
        lacks NUL key = true -> lacks lf key = true -> lacks "=" key = true ->
        lacks " " key = true ->
        lacks NUL val = true -> lacks lf val = true -> lacks "=" val = true ->
        do_file_line c ((key +:+ String " " val) +:+ LF) w
        = file_dispatch c key (Some val) w)
  /\ (forall c w key,
        lacks NUL key = true -> lacks lf key = true -> lacks "=" key = true ->
        lacks " " key = true ->
        do_file_line c (key +:+ LF) w = file_dispatch c key None w).
Proof.
  intros B I F r1 r2 kv kf.
  destruct c as [fl pn hd ft ver bs cm cbf o ix lv]; simpl in B, I; subst.
  unfold r1, r2. rewrite file_run by assumption. rewrite direct_run.
  fold kv kf. cbv zeta.
  split; [|split; [|split; [|split; [|split]]]].
  - destruct (cbf [] kv =? 0); [destruct (cbf [kv] kf =? 0)|]; reflexivity.
  - destruct (cbf [] kv =? 0); [destruct (cbf [kv] kf =? 0)|]; reflexivity.
  - intros H; simpl in H. rewrite !H. split; reflexivity.
  - exact do_file_line_equals.
  - exact do_file_line_space.
  - exact do_file_line_bare.
Qed.

Definition vf_clip : clip :=
  Clip 0 "prog" None None None
    (Some (vf_base (Some "Give more output.") (Some "PATH") (Some "Input file.")))
    None quiet_cb None 0 None.

Definition one_file (p : string) : option string :=
  if String.eqb p "thatfile" then Some thatfile else None.

Lemma argument_file_matches_direct_witness :
  let r1 := cli_parse vf_clip (start ["prog"; "@thatfile"] one_file) in
  let r2 := cli_parse vf_clip (start ["prog"; "-v"; "--file=x.txt"] one_file) in
  fst (fst r1) = fst (fst r2) /\ calls (snd r1) = calls (snd r2).
Proof.
  intros r1 r2.
  destruct (argument_file_matches_direct vf_clip one_file
              (Some "Give more output.") (Some "PATH") (Some "Input file.")
              eq_refl eq_refl eq_refl) as (A & B & _).
  split; assumption.
Defined.

(** ** C1: the selection of a sub-command *)

Definition pkg_install : cli_sub_cmd :=
  CLI_CMD (Some "install")
    [CLI_OPT_NARGS (Some "PACKAGE") (Some "Packages to install")].

Definition pkg_clip : clip :=
  Clip 0 "prog" None None None (Some (CLI_CMD None [])) (Some [pkg_install])
    quiet_cb None 0 None.

(** C1 at the example of the specification: [install pkgA pkgB] selects
    the sub-command [install] and moves the cursor past it, and the
    call-back is invoked for [pkgA] and for [pkgB] under [install]; it is
    not invoked for the selection of the sub-command. *)
Lemma sub_command_selected_without_callback :
  let w := start ["prog"; "install"; "pkgA"; "pkgB"] no_files in
  let any := CLI_OPT_NARGS (Some "PACKAGE") (Some "Packages to install") in
  live (detect (set_index pkg_clip 1) w) = Some (Sub 0)
  /\ index (detect (set_index pkg_clip 1) w) = 2
  /\ exists c' w',
       cli_parse pkg_clip w = (Returned CLIP_ERR_OK, c', w')
       /\ calls w' = [ CbCall (Some (Sub 0)) (Some any) (Some "pkgA");
                       CbCall (Some (Sub 0)) (Some any) (Some "pkgB") ].
Proof. vm_compute. repeat split. do 2 eexists. split; reflexivity. Qed.

(** * Look-ups and what every parse keeps *)

(** ** The matching engine ([cli__find_cmd], [cli__find_opt_0],
    [cli__find_opt], [cli__find_any]) *)

(** Equal length and equal bytes: the two C strings are the same. *)
Lemma strlen_memcmp_eq a : forall b,
  Nat.eqb (strlen a) (strlen b) && memcmp a b (strlen a) = true
  <-> cstr a = cstr b.
Proof.
  unfold strlen.
  induction a as [|x a IH]; intros [|y b]; simpl cstr.
  - split; reflexivity.
  - destruct (Ascii.eqb y NUL); simpl; split; try reflexivity; discriminate.
  - destruct (Ascii.eqb x NUL); simpl; split; try reflexivity; discriminate.
  - destruct (Ascii.eqb x NUL) eqn:X, (Ascii.eqb y NUL) eqn:Y;
      try (split; [reflexivity | reflexivity]);
      try (simpl; split; discriminate).
    simpl String.length. rewrite memcmp_S. unfold char_at at 1 2.
    simpl String.get. simpl ptr_add. simpl Nat.eqb.
    destruct (Ascii.eqb x y) eqn:E.
    + apply Ascii.eqb_eq in E. subst y. simpl andb. rewrite IH.
      split; [intros ->; reflexivity | intros [= H]; exact H].
    + simpl andb. rewrite andb_false_r. split; [discriminate|].
      intros [= H _]. apply Ascii.eqb_neq in E. contradiction.
Qed.

Lemma strlen_memcmp_eq_sym a b :
  Nat.eqb (strlen a) (strlen b) && memcmp b a (strlen a) = true
  <-> cstr b = cstr a.
Proof.
  rewrite <- strlen_memcmp_eq. rewrite Nat.eqb_sym.
  destruct (Nat.eqb (strlen b) (strlen a)) eqn:E; [|reflexivity].
  apply Nat.eqb_eq in E. now rewrite E.
Qed.

(** The entry [g] of a sub-command table answers to the name [nm]. *)
Definition named (nm : string) (g : cli_sub_cmd) : Prop :=
  exists cn, name g = Some cn /\ cstr cn = cstr nm.

Lemma find_cmd_from_spec l : forall k nm,
  match find_cmd_from l k nm with
  | CmdAt i =>
      exists j g, i = (k + j)%nat /\ l !! j = Some g /\ named nm g
                  /\ forall j' g', (j' < j)%nat -> l !! j' = Some g' ->
                                   name g' <> None /\ ~ named nm g'
  | CmdNone =>
      forall j g, l !! j = Some g -> name g <> None /\ ~ named nm g
  | CmdUndefined =>
      exists j g, l !! j = Some g /\ name g = None
                  /\ forall j' g', (j' < j)%nat -> l !! j' = Some g' ->
                                   name g' <> None /\ ~ named nm g'
  end.
Proof.
  induction l as [|g l IH]; intros k nm; simpl.
  - intros j g H. discriminate.
  - destruct (name g) as [cn|] eqn:N.
    + destruct (Nat.eqb (strlen nm) (strlen cn) && memcmp cn nm (strlen nm))
        eqn:M.
      * apply strlen_memcmp_eq_sym in M.
        exists O, g. split; [lia|]. split; [reflexivity|].
        split; [exists cn; auto|]. intros j' g' L. lia.
      * assert (X : name g <> None /\ ~ named nm g).
        { split; [congruence|].
          intros (cn' & N' & E). rewrite N in N'. injection N' as <-.
          apply strlen_memcmp_eq_sym in E. congruence. }
        specialize (IH (S k) nm).
        destruct (find_cmd_from l (S k) nm) as [i| |].
        -- destruct IH as (j & g0 & -> & L & Nm & F).
           exists (S j), g0. split; [lia|]. split; [exact L|].
           split; [exact Nm|]. intros [|j'] g' Lt H; simpl in H.
           ++ injection H as <-. exact X.
           ++ apply (F j' g'); [lia | exact H].
        -- intros [|j] g0 H; simpl in H.
           ++ injection H as <-. exact X.
           ++ eapply IH; eauto.
        -- destruct IH as (j & g0 & L & Nn & F).
           exists (S j), g0. split; [exact L|]. split; [exact Nn|].
           intros [|j'] g' Lt H; simpl in H.
           ++ injection H as <-. exact X.
           ++ apply (F j' g'); [lia | exact H].
    + exists O, g. split; [reflexivity|]. split; [exact N|].
      intros j' g' L. lia.
Qed.

(** X1.  [cli__find_cmd] matches whole names, case-sensitively.  The
    scan goes through [clip->cmds] in order.  It returns a pointer to the
    first entry whose name is the token, byte for byte, every entry
    before it having another name; it returns null exactly when every
    entry has a name and none is the token (in particular when there is
    no table); and when it comes to an entry without a name before any
    match it calls [strlen] on a null pointer, which is undefined.  What
    it returns is an entry of the table, never the base group. *)
Theorem find_cmd_exact (c : clip) (nm : string) :
  match cli__find_cmd c nm with
  | CmdAt i =>
      exists l g, cmds c = Some l /\ l !! i = Some g /\ named nm g
                  /\ forall j g', (j < i)%nat -> l !! j = Some g' ->
                                  name g' <> None /\ ~ named nm g'
  | CmdNone =>
      forall l j g, cmds c = Some l -> l !! j = Some g ->
                    name g <> None /\ ~ named nm g
  | CmdUndefined =>
      exists l j g, cmds c = Some l /\ l !! j = Some g /\ name g = None
                    /\ forall j' g', (j' < j)%nat -> l !! j' = Some g' ->
                                     name g' <> None /\ ~ named nm g'
  end.
Proof.
  unfold cli__find_cmd. destruct (cmds c) as [l|]; [|discriminate].
  pose proof (find_cmd_from_spec l 0 nm) as H.
  destruct (find_cmd_from l 0 nm) as [i| |].
  - destruct H as (j & g & -> & L & N & F). exists l, g. auto.
  - intros l' j g [= <-]. apply H.
  - destruct H as (j & g & L & N & F). exists l, j, g. auto.
Qed.

(** The entries of an option table that a scan can reach: those before
    the first entry that looks like [CLI_OPT_END]. *)
Fixpoint active (l : list cli_opt) : list cli_opt :=
  match l with
  | [] => []
  | opt :: rest => if IS_OPT_END opt then [] else opt :: active rest
  end.

(** The descriptor [opt] answers to the key [str]: it is not a catch-all
    and either the key is one character, and its short key is that
    character read as a plain [char], or the key is longer and its long
    name. *)
Definition answers (str : string) (opt : cli_opt) : Prop :=
  Z.land (mode opt) ARG_ANYK = 0
  /\ ((strlen str = 1%nat /\ a_short opt = char_int (char_at str 0))
      \/ ((1 < strlen str)%nat
          /\ exists al, a_long opt = Some al /\ cstr al = cstr str)).

Lemma answers_dec str opt :
  IS_OPT_END opt = false ->
  (if negb (Z.land (mode opt) ARG_ANYK =? 0) then false
   else if Nat.eqb (strlen str) 1 && (char_int (char_at str 0) =? a_short opt)
   then true
   else match a_long opt with
        | Some al =>
            Nat.ltb 1 (strlen str) && Nat.eqb (strlen str) (strlen al)
            && memcmp str al (strlen str)
        | None => false
        end) = true
  <-> answers str opt.
Proof.
  intros _. unfold answers.
  destruct (Z.land (mode opt) ARG_ANYK =? 0) eqn:A; simpl negb; cbv iota.
  2:{ apply Z.eqb_neq in A. split; [discriminate | intros [H _]; contradiction]. }
  apply Z.eqb_eq in A.
  destruct (Nat.eqb (strlen str) 1) eqn:L1.
  - apply Nat.eqb_eq in L1.
    destruct (char_int (char_at str 0) =? a_short opt) eqn:S; simpl andb; cbv iota.
    + apply Z.eqb_eq in S. split; [intros _|reflexivity].
      split; [assumption|]. left. auto.
    + apply Z.eqb_neq in S.
      assert (X : Nat.ltb 1 (strlen str) = false) by (apply Nat.ltb_ge; lia).
      rewrite X. simpl andb.
      split.
      * destruct (a_long opt); discriminate.
      * intros (_ & [[_ E]|[Lt _]]); [congruence | lia].
  - apply Nat.eqb_neq in L1. simpl andb. cbv iota.
    destruct (a_long opt) as [al|] eqn:AL.
    + rewrite <- andb_assoc.
      destruct (Nat.ltb 1 (strlen str)) eqn:Lt; simpl andb.
      * apply Nat.ltb_lt in Lt. rewrite strlen_memcmp_eq. split.
        -- intros E. split; [assumption|]. right. split; [assumption|].
           exists al. auto.
        -- intros (_ & [[E _]|(_ & al' & [= <-] & E)]); [lia | auto].
      * apply Nat.ltb_ge in Lt. split; [discriminate|].
        intros (_ & [[E _]|(Lt' & _)]); lia.
    + split; [discriminate|].
      intros (_ & [[E _]|(_ & al' & E & _)]); [lia | discriminate].
Qed.

Lemma find_opt_from_spec l str :
  match find_opt_from l str with
  | Some opt =>
      exists j, active l !! j = Some opt /\ answers str opt
                /\ forall j' o, (j' < j)%nat -> active l !! j' = Some o ->
                                ~ answers str o
  | None => forall j o, active l !! j = Some o -> ~ answers str o
  end.
Proof.
  induction l as [|opt l IH]; simpl.
  - intros j o H; discriminate.
  - destruct (IS_OPT_END opt) eqn:E.
    { intros j o H; discriminate. }
    pose proof (answers_dec str opt E) as D.
    destruct (negb (Z.land (mode opt) ARG_ANYK =? 0)).
    { assert (X : ~ answers str opt) by (intros H; apply D in H; discriminate).
      destruct (find_opt_from l str) as [o|].
      - destruct IH as (j & L & A & F). exists (S j). split; [exact L|].
        split; [exact A|]. intros [|j'] o' Lt H; simpl in H.
        + injection H as <-. exact X.
        + apply (F j' o'); [lia | exact H].
      - intros [|j] o H; simpl in H.
        + injection H as <-. exact X.
        + eapply IH; eauto. }
    destruct (Nat.eqb (strlen str) 1 && (char_int (char_at str 0) =? a_short opt)).
    { exists O. split; [reflexivity|]. split; [now apply D|].
      intros j' o Lt; lia. }
    destruct (a_long opt) as [al|].
    + destruct (Nat.ltb 1 (strlen str) && Nat.eqb (strlen str) (strlen al)
                && memcmp str al (strlen str)).
      { exists O. split; [reflexivity|]. split; [now apply D|].
        intros j' o Lt; lia. }
      assert (X : ~ answers str opt) by (intros H; apply D in H; discriminate).
      destruct (find_opt_from l str) as [o|].
      * destruct IH as (j & L & A & F). exists (S j). split; [exact L|].
        split; [exact A|]. intros [|j'] o' Lt H; simpl in H.
        -- injection H as <-. exact X.
        -- apply (F j' o'); [lia | exact H].
      * intros [|j] o H; simpl in H.
        -- injection H as <-. exact X.
        -- eapply IH; eauto.
    + assert (X : ~ answers str opt) by (intros H; apply D in H; discriminate).
      destruct (find_opt_from l str) as [o|].
      * destruct IH as (j & L & A & F). exists (S j). split; [exact L|].
        split; [exact A|]. intros [|j'] o' Lt H; simpl in H.
        -- injection H as <-. exact X.
        -- apply (F j' o'); [lia | exact H].
      * intros [|j] o H; simpl in H.
        -- injection H as <-. exact X.
        -- eapply IH; eauto.
Qed.

(** X2.  [cli__find_opt_0] returns the first descriptor, of those before
    the terminator of the group's table, that answers to the key: never a
    catch-all; for a key of one character the descriptor whose short key
    is that character read as a plain [char] (a long name is not
    compared), for a longer key the descriptor with exactly that long
    name.  It returns null exactly when no such descriptor answers, so
    always for the empty key and for a null group.  Plain [char] being
    signed, the byte 233 answers to the short key -23 and not to 233. *)
Theorem find_opt_0_first_answer (cmd : option cli_sub_cmd) (str : string) :
  match cli__find_opt_0 cmd str with
  | Some opt =>
      exists g j, cmd = Some g /\ active (opts g) !! j = Some opt
                  /\ answers str opt
                  /\ forall j' o, (j' < j)%nat ->
                                  active (opts g) !! j' = Some o ->
                                  ~ answers str o
  | None =>
      forall g j o, cmd = Some g -> active (opts g) !! j = Some o ->
                    ~ answers str o
  end
  /\ (strlen str = 0%nat -> cli__find_opt_0 cmd str = None)
  /\ (let key := String (ascii_of_nat 233) EmptyString in
      let group k := Some (CLI_CMD None [CLI_OPT_SWITCH k None None]) in
      cli__find_opt_0 (group (-23)) key = Some (CLI_OPT_SWITCH (-23) None None)
      /\ cli__find_opt_0 (group 233) key = None).
Proof.
  split; [|split].
  - destruct cmd as [g|]; simpl; [|discriminate].
    pose proof (find_opt_from_spec (opts g) str) as H.
    destruct (find_opt_from (opts g) str) as [opt|].
    + destruct H as (j & L & A & F). exists g, j. auto.
    + intros g' j o [= <-]. apply H.
  - intros Z. destruct cmd as [g|]; simpl; [|reflexivity].
    pose proof (find_opt_from_spec (opts g) str) as H.
    destruct (find_opt_from (opts g) str) as [opt|]; [|reflexivity].
    destruct H as (j & _ & (_ & [[E _]|[E _]]) & _); lia.
  - split; vm_compute; reflexivity.
Qed.

Lemma find_opt_whence c cmd str opt wh :
  cli__find_opt c cmd str = Some (opt, wh) -> wh <> None.
Proof.
  unfold cli__find_opt.
  destruct (cli__find_opt_0 (deref c cmd) str) as [o|] eqn:F.
  - intros [= <- <-]. intros ->. discriminate.
  - destruct (negb (ptr_eqb cmd (base_ptr c))); [|discriminate].
    unfold base_ptr. destruct (base c) as [g|]; [|discriminate].
    destruct (cli__find_opt_0 (Some g) str); [|discriminate].
    intros [= <- <-]. discriminate.
Qed.

(** X3.  [cli__find_opt] looks in the active group first and in the base
    group only when the active group has no answer: an option of the
    sub-command shadows a base option of the same name.  The group it
    reports is never null and is the one whose table holds the
    descriptor; it fails exactly when neither group answers. *)
Theorem find_opt_scope (c : clip) (cmd : option cmd_ref) (str : string) :
  (forall opt, cli__find_opt_0 (deref c cmd) str = Some opt ->
               cli__find_opt c cmd str = Some (opt, cmd))
  /\ (forall opt,
        cli__find_opt_0 (deref c cmd) str = None ->
        cli__find_opt_0 (base c) str = Some opt ->
        cli__find_opt c cmd str = Some (opt, Some Base))
  /\ (forall opt wh,
        cli__find_opt c cmd str = Some (opt, wh) ->
        wh <> None /\ cli__find_opt_0 (deref c wh) str = Some opt
        /\ (wh = cmd \/ wh = Some Base))
  /\ (cli__find_opt c cmd str = None <->
      cli__find_opt_0 (deref c cmd) str = None
      /\ cli__find_opt_0 (base c) str = None).
Proof.
  unfold cli__find_opt.
  assert (E : ptr_eqb cmd (base_ptr c) = true -> deref c cmd = base c).
  { unfold base_ptr. destruct cmd as [[|i]|]; simpl.
    - reflexivity.
    - destruct (base c); discriminate.
    - destruct (base c); [discriminate | reflexivity]. }
  assert (B : forall opt, cli__find_opt_0 (base c) str = Some opt ->
              base_ptr c = Some Base /\ deref c (Some Base) = base c).
  { intros opt. unfold base_ptr, deref. destruct (base c); [auto | discriminate]. }
  split; [|split; [|split]].
  - intros opt ->. reflexivity.
  - intros opt N F. rewrite N.
    destruct (ptr_eqb cmd (base_ptr c)) eqn:P.
    + rewrite (E eq_refl) in N. congruence.
    + simpl. rewrite F. now destruct (B opt F) as [-> _].
  - intros opt wh.
    destruct (cli__find_opt_0 (deref c cmd) str) as [o|] eqn:F.
    + intros [= <- <-]. split; [|auto].
      intros ->. discriminate.
    + destruct (ptr_eqb cmd (base_ptr c)); simpl; [discriminate|].
      destruct (cli__find_opt_0 (base c) str) as [o|] eqn:G; [|discriminate].
      intros [= <- <-]. destruct (B o eq_refl) as [-> D].
      split; [discriminate|]. split; [now rewrite D | auto].
  - destruct (cli__find_opt_0 (deref c cmd) str) as [o|] eqn:F.
    + split; [discriminate | intros [H _]; discriminate].
    + destruct (ptr_eqb cmd (base_ptr c)) eqn:P; simpl.
      * rewrite <- (E eq_refl), F. split; auto.
      * destruct (cli__find_opt_0 (base c) str);
          split; auto; try discriminate. intros [_ H]; discriminate.
Qed.

Lemma find_any_from_spec l :
  match find_any_from l with
  | Some opt =>
      exists j, active l !! j = Some opt /\ Z.land (mode opt) ARG_ANYK <> 0
                /\ forall j' o, (j' < j)%nat -> active l !! j' = Some o ->
                                Z.land (mode o) ARG_ANYK = 0
  | None => forall j o, active l !! j = Some o -> Z.land (mode o) ARG_ANYK = 0
  end.
Proof.
  induction l as [|opt l IH]; simpl.
  - intros j o H; discriminate.
  - destruct (IS_OPT_END opt); [intros j o H; discriminate|].
    destruct (Z.land (mode opt) ARG_ANYK =? 0) eqn:A; simpl.
    + apply Z.eqb_eq in A. destruct (find_any_from l) as [o|].
      * destruct IH as (j & L & N & F). exists (S j). split; [exact L|].
        split; [exact N|]. intros [|j'] o' Lt H; simpl in H.
        -- now injection H as <-.
        -- apply (F j' o'); [lia | exact H].
      * intros [|j] o H; simpl in H.
        -- now injection H as <-.
        -- eapply IH; eauto.
    + apply Z.eqb_neq in A. exists O. split; [reflexivity|].
      split; [exact A|]. intros j' o Lt; lia.
Qed.

(** X4.  [cli__find_any] returns the first descriptor before the
    terminator whose mode has the catch-all bit, and null exactly when
    the group is null or has none; what the option look-up can return
    and what [cli__find_any] can return are never the same descriptor. *)
Theorem find_any_first_catch_all (cmd : option cli_sub_cmd) :
  match cli__find_any cmd with
  | Some opt =>
      exists g j, cmd = Some g /\ active (opts g) !! j = Some opt
                  /\ Z.land (mode opt) ARG_ANYK <> 0
                  /\ forall j' o, (j' < j)%nat ->
                                  active (opts g) !! j' = Some o ->
                                  Z.land (mode o) ARG_ANYK = 0
  | None =>
      forall g j o, cmd = Some g -> active (opts g) !! j = Some o ->
                    Z.land (mode o) ARG_ANYK = 0
  end
  /\ (forall cmd' str opt,
        cli__find_opt_0 cmd' str = Some opt -> cli__find_any cmd <> Some opt).
Proof.
  split.
  - destruct cmd as [g|]; simpl; [|discriminate].
    pose proof (find_any_from_spec (opts g)) as H.
    destruct (find_any_from (opts g)) as [opt|].
    + destruct H as (j & L & A & F). exists g, j. auto.
    + intros g' j o [= <-]. apply H.
  - intros cmd' str opt F A.
    destruct cmd' as [g'|]; simpl in F; [|discriminate].
    pose proof (find_opt_from_spec (opts g') str) as H.
    rewrite F in H. destruct H as (_ & _ & (M & _) & _).
    destruct cmd as [g|]; simpl in A; [|discriminate].
    pose proof (find_any_from_spec (opts g)) as H.
    rewrite A in H. destruct H as (_ & _ & N & _). contradiction.
Qed.

(** ** What every parse keeps ([cli_parse], [cli_do_file]) *)

(** An invocation of the call-back for an option: neither its group nor
    its descriptor is null. *)
Definition for_option (k : cb_call) : Prop :=
  cb_cmd k <> None /\ cb_opt k <> None.

(** The call-back [f], having received [h], accepts each of [more] in
    turn. *)
Definition accepted (f : list cb_call -> cb_call -> Z) (h more : list cb_call)
  : Prop :=
  forall pre k post, more = pre ++ k :: post -> f (h ++ pre) k = 0.

(** The call-back accepts all of [more] but the last, which it rejects. *)
Definition rejected_last (f : list cb_call -> cb_call -> Z)
  (h more : list cb_call) : Prop :=
  exists pre k, more = pre ++ [k] /\ accepted f h pre /\ f (h ++ pre) k <> 0.

Lemma accepted_nil f h : accepted f h [].
Proof. intros [|x pre] k post H; discriminate. Qed.

Lemma accepted_one f h k : f h k = 0 -> accepted f h [k].
Proof.
  intros H [|x pre] k' post E.
  - injection E as <- _. now rewrite app_nil_r.
  - injection E as _ E. destruct pre; discriminate.
Qed.

Lemma accepted_app f h m1 m2 :
  accepted f h m1 -> accepted f (h ++ m1) m2 -> accepted f h (m1 ++ m2).
Proof.
  intros A1 A2 pre k post E.
  apply List.app_eq_app in E as [l [[E1 E2]|[E1 E2]]].
  - destruct l as [|x l]; simpl in E2.
    + rewrite app_nil_r in E1. subst pre.
      rewrite <- (app_nil_r (h ++ m1)). apply (A2 [] k post). now symmetry.
    + injection E2 as <- E2. eapply A1; eauto.
  - subst pre. rewrite app_assoc. eapply A2; eauto.
Qed.

Lemma rejected_after f h m1 m2 :
  accepted f h m1 -> rejected_last f (h ++ m1) m2 ->
  rejected_last f h (m1 ++ m2).
Proof.
  intros A (pre & k & -> & A2 & R).
  exists (m1 ++ pre), k. split; [now rewrite app_assoc|].
  split; [now apply accepted_app | now rewrite app_assoc].
Qed.

Lemma rejected_one f h k : f h k <> 0 -> rejected_last f h [k].
Proof.
  intros H. exists [], k. split; [reflexivity|].
  split; [apply accepted_nil | now rewrite app_nil_r].
Qed.

(** How a branch of the main loop, entered with the cursor and world of
    [c] and [w], may end.  [more] is what the call-back received in the
    branch. *)
Definition ends (c : clip) (w : world) (f : flow) : Prop :=
  match f with
  | Next c' w' =>
      exists more,
        calls w' = calls w ++ more /\ Forall for_option more
        /\ accepted (cb c) (calls w) more
        /\ argv w' = argv w
        /\ index c' <= Z.max (index c) (argc w)
  | Done r c' w' =>
      exists more,
        calls w' = calls w ++ more /\ Forall for_option more
        /\ index c' <= Z.max (index c) (argc w)
        /\ ((r = Returned 0 /\ accepted (cb c) (calls w) more
             /\ argv w' = argv w)
            \/ (r = Returned CLIP_ERR_CB_FAIL
                /\ rejected_last (cb c) (calls w) more)
            \/ (r = Returned CLIP_ERR_BAD_ARG
                /\ accepted (cb c) (calls w) more)
            \/ (r = Undefined /\ accepted (cb c) (calls w) more))
  end.

Lemma ends_after c w k f :
  cb c (calls w) k = 0 -> for_option k ->
  ends c (record_call k w) f -> ends c w f.
Proof.
  intros A O. destruct f as [c' w'|r c' w']; simpl.
  - intros (more & C & F & Ac & Av & I). exists (k :: more).
    split; [rewrite C; simpl; now rewrite <- app_assoc|].
    split; [now constructor|].
    split; [apply (accepted_app _ _ [k]); [now apply accepted_one | exact Ac]|].
    split; [exact Av | exact I].
  - intros (more & C & F & I & H). exists (k :: more).
    split; [rewrite C; simpl; now rewrite <- app_assoc|].
    split; [now constructor|]. split; [exact I|].
    assert (A1 : accepted (cb c) (calls w) [k]) by now apply accepted_one.
    destruct H as [(-> & Ac & Av)|[(-> & R)|[(-> & Ac)|(-> & Ac)]]].
    + left. split; [reflexivity|].
      split; [now apply (accepted_app _ _ [k]) | exact Av].
    + right; left. split; [reflexivity|]. now apply (rejected_after _ _ [k]).
    + right; right; left. split; [reflexivity|].
      now apply (accepted_app _ _ [k]).
    + right; right; right. split; [reflexivity|].
      now apply (accepted_app _ _ [k]).
Qed.

Lemma ends_next_same c w : ends c w (Next c w).
Proof.
  exists []. rewrite app_nil_r.
  split; [reflexivity|]. split; [constructor|].
  split; [apply accepted_nil|]. split; [reflexivity | lia].
Qed.

Lemma ends_bad_arg c w f fl tg pfx key :
  ends c w (Done (Returned CLIP_ERR_BAD_ARG) c (cli_bad_arg f fl tg pfx key w)).
Proof.
  exists []. simpl. rewrite app_nil_r.
  split; [reflexivity|]. split; [constructor|]. split; [lia|].
  right; right; left. auto using accepted_nil.
Qed.

Lemma ends_call c c' w k :
  cb c' = cb c -> for_option k ->
  index c' <= Z.max (index c) (argc w) ->
  ends c w
    (if negb (cb c' (calls w) k =? 0)
     then Done (Returned CLIP_ERR_CB_FAIL) c' (record_call k w)
     else Next c' (record_call k w)).
Proof.
  intros E O I. rewrite E.
  destruct (cb c (calls w) k =? 0) eqn:A; simpl.
  - apply Z.eqb_eq in A. exists [k].
    split; [reflexivity|]. split; [now constructor|].
    split; [now apply accepted_one|]. split; [reflexivity | exact I].
  - apply Z.eqb_neq in A. exists [k].
    split; [reflexivity|]. split; [now constructor|]. split; [exact I|].
    right; left. split; [reflexivity | now apply rejected_one].
Qed.

Lemma short_cluster_ends_step rest ch c w :
  (forall w', ends c w' (cluster_again rest c w')) ->
  ends c w (short_cluster rest ch c w).
Proof.
  intros A. rewrite short_cluster_eq; cbv zeta.
  destruct (cli__find_opt c (live c) (String ch EmptyString))
    as [[opt cmd]|] eqn:F; [|apply ends_bad_arg].
  assert (O : forall v, for_option (CbCall cmd (Some opt) v)).
  { intros v. split; simpl; [|discriminate]. eapply find_opt_whence; eauto. }
  destruct (mode opt =? 0).
  { unfold invoke.
    destruct (cb c (calls w) (CbCall cmd (Some opt) None) =? 0) eqn:E; simpl.
    - apply Z.eqb_eq in E. eapply ends_after; eauto.
    - apply Z.eqb_neq in E. exists [CbCall cmd (Some opt) None].
      split; [reflexivity|]. split; [constructor; auto|]. split; [lia|].
      right; left. split; [reflexivity | now apply rejected_one]. }
  destruct (negb (Z.land (mode opt) ARG_REQD =? 0)); [|apply A].
  destruct (Ascii.eqb (char_at rest 0) NUL).
  - destruct (index c <? argc w) eqn:L.
    + apply Z.ltb_lt in L. unfold invoke.
      apply ends_call; [reflexivity | apply O | simpl; lia].
    + apply ends_bad_arg.
  - unfold invoke. apply ends_call; [reflexivity | apply O | lia].
Qed.

Lemma cluster_again_ends rest : forall c w, ends c w (cluster_again rest c w).
Proof.
  induction rest as [|ch' rest IH]; intros c w; simpl;
    [apply ends_next_same|].
  destruct (Ascii.eqb ch' NUL); [apply ends_next_same|].
  apply short_cluster_ends_step. intros w'. apply IH.
Qed.

Lemma short_cluster_ends rest ch c w : ends c w (short_cluster rest ch c w).
Proof. apply short_cluster_ends_step. intros; apply cluster_again_ends. Qed.

Lemma argv_record_call k w : argv (record_call k w) = argv w.
Proof. reflexivity. Qed.

Lemma long_option_ends i c w : ends c w (long_option i c w).
Proof.
  unfold long_option.
  pose proof (calls_long_split w i) as C1.
  set (rs := long_restore (long_eq w i) i).
  assert (R : forall k, argv (rs (record_call k (long_split w i))) = argv w)
    by (intros k; now apply long_restore_split).
  assert (RC : forall k, calls (rs (record_call k (long_split w i)))
                         = calls w ++ [k]).
  { intros k. unfold rs. rewrite long_restore_record_call. reflexivity. }
  assert (R0 : argv (rs (long_split w i)) = argv w)
    by now apply long_restore_split.
  assert (RC0 : calls (rs (long_split w i)) = calls w).
  { unfold rs, long_restore, long_split; now destruct (long_eq w i). }
  destruct (cli__find_opt c (live c) (long_key w i)) as [[opt cmd]|] eqn:F.
  2:{ exists []. simpl. rewrite app_nil_r.
      split; [exact C1|]. split; [constructor|]. split; [lia|].
      right; right; left. auto using accepted_nil. }
  assert (O : forall v, for_option (CbCall cmd (Some opt) v)).
  { intros v. split; simpl; [|discriminate]. eapply find_opt_whence; eauto. }
  assert (call_ends : forall c' k,
            cb c' = cb c -> for_option k ->
            index c' <= Z.max (index c) (argc w) ->
            ends c w
              (if negb (cb c' (calls (long_split w i)) k =? 0)
               then Done (Returned CLIP_ERR_CB_FAIL) c'
                      (record_call k (long_split w i))
               else Next c' (rs (record_call k (long_split w i))))).
  { intros c' k E Ok I. rewrite E, C1.
    destruct (cb c (calls w) k =? 0) eqn:A; simpl.
    - apply Z.eqb_eq in A. exists [k].
      split; [apply RC|]. split; [now constructor|].
      split; [now apply accepted_one|]. split; [apply R | exact I].
    - apply Z.eqb_neq in A. exists [k].
      split; [now rewrite C1|]. split; [now constructor|]. split; [exact I|].
      right; left. split; [reflexivity | now apply rejected_one]. }
  destruct (mode opt =? 0).
  { unfold invoke. apply call_ends; [reflexivity | apply O | lia]. }
  destruct (negb (Z.land (mode opt) ARG_REQD =? 0)).
  2:{ exists []. rewrite app_nil_r.
      split; [exact RC0|]. split; [constructor|]. split; [apply accepted_nil|].
      split; [exact R0 | lia]. }
  destruct (long_eq w i).
  - unfold invoke. apply call_ends; [reflexivity | apply O | lia].
  - rewrite argc_long_split. destruct (index c <? argc w) eqn:L.
    + apply Z.ltb_lt in L. unfold invoke.
      apply call_ends; [reflexivity | apply O | simpl; lia].
    + exists []. simpl. rewrite app_nil_r.
      split; [exact C1|]. split; [constructor|]. split; [lia|].
      right; right; left. auto using accepted_nil.
Qed.

(** How the loader ends. *)
Definition file_ends (c : clip) (w : world) (res : outcome * world) : Prop :=
  let '(r, w') := res in
  exists more,
    calls w' = calls w ++ more /\ Forall for_option more
    /\ argv w' = argv w
    /\ ((r = Returned 0 /\ accepted (cb c) (calls w) more)
        \/ (r = Returned CLIP_ERR_CB_FAIL
            /\ rejected_last (cb c) (calls w) more)
        \/ (r = Returned CLIP_ERR_BAD_ARG /\ accepted (cb c) (calls w) more)
        \/ ((r = Undefined \/ r = Unfinished)
            /\ accepted (cb c) (calls w) more)).


Lemma do_file_line_ends c buffer w r w' :
  do_file_line c buffer w = (r, w') ->
  (r = CLIP_ERR_BAD_ARG /\ calls w' = calls w /\ argv w' = argv w)
  \/ exists k, w' = record_call k w /\ for_option k
               /\ ((r = 0 /\ cb c (calls w) k = 0)
                   \/ (r = CLIP_ERR_CB_FAIL /\ cb c (calls w) k <> 0)).
Proof.
  unfold do_file_line; cbv zeta.
  destruct (cli__find_opt c (live c) _) as [[opt cmd]|] eqn:F.
  - unfold invoke. intros H. right.
    match type of H with
    | context [record_call ?k0 w] => set (k := k0) in *
    end.
    assert (O : for_option k).
    { split; simpl; [|discriminate]. eapply find_opt_whence; eauto. }
    exists k. revert H.
    destruct (cb c (calls w) k =? 0) eqn:E; simpl; intros [= <- <-].
    + split; [reflexivity|]. split; [exact O|].
      left. apply Z.eqb_eq in E. auto.
    + split; [reflexivity|]. split; [exact O|].
      right. apply Z.eqb_neq in E. auto.
  - intros [= <- <-]. left. auto.
Qed.

Lemma file_ends_nil c w r :
  r = Returned 0 \/ r = Returned CLIP_ERR_BAD_ARG \/ r = Undefined
  \/ r = Unfinished ->
  forall w', calls w' = calls w -> argv w' = argv w ->
  file_ends c w (r, w').
Proof.
  intros H w' C A. exists []. rewrite app_nil_r.
  split; [exact C|]. split; [constructor|]. split; [exact A|].
  pose proof (accepted_nil (cb c) (calls w)) as N.
  destruct H as [->|[->|[->| ->]]]; auto 8.
Qed.

Lemma do_file_loop_ends fuel : forall c f w,
  file_ends c w (do_file_loop fuel c f w).
Proof.
  induction fuel as [|fuel IH]; intros c f w; simpl;
    destruct (fgets CLIP_BUFFER_SIZE f) as [[buffer f']|];
    try (apply file_ends_nil; auto).
  destruct (do_file_line c buffer w) as [r w1] eqn:L.
  apply do_file_line_ends in L
    as [(-> & C & A)|(k & -> & O & [(-> & E)|(-> & E)])]; simpl.
  - apply file_ends_nil; auto.
  - specialize (IH c f' (record_call k w)).
    destruct (do_file_loop fuel c f' (record_call k w)) as [r w2].
    destruct IH as (more & C & F & A & H). exists (k :: more).
    split; [rewrite C; simpl; now rewrite <- app_assoc|].
    split; [now constructor|]. split; [exact A|].
    assert (A1 : accepted (cb c) (calls w) [k]) by now apply accepted_one.
    destruct H as [(-> & Ac)|[(-> & R)|[(-> & Ac)|(U & Ac)]]].
    + left. split; [reflexivity | now apply (accepted_app _ _ [k])].
    + right; left. split; [reflexivity|]. now apply (rejected_after _ _ [k]).
    + right; right; left. split; [reflexivity|].
      now apply (accepted_app _ _ [k]).
    + right; right; right. split; [exact U|].
      now apply (accepted_app _ _ [k]).
  - exists [k]. split; [reflexivity|]. split; [now constructor|].
    split; [reflexivity|]. right; left.
    split; [reflexivity | now apply rejected_one].
Qed.

Lemma cli_do_file_ends c file w : file_ends c w (cli_do_file c file w).
Proof.
  unfold cli_do_file.
  destruct (Nat.leb CLIP_BUFFER_SIZE (strlen file));
    [apply file_ends_nil; auto|].
  destruct (files w (cstr file)); [apply do_file_loop_ends|].
  apply file_ends_nil; auto.
Qed.

(** How a step of the main loop ends when a token is left. *)
Definition step_ends (c : clip) (w : world) (f : flow) : Prop :=
  match f with
  | Next c' w' =>
      exists more,
        calls w' = calls w ++ more /\ Forall for_option more
        /\ accepted (cb c) (calls w) more /\ argv w' = argv w
        /\ index c' <= argc w
  | Done r c' w' =>
      exists more,
        calls w' = calls w ++ more /\ Forall for_option more
        /\ index c' <= argc w
        /\ ((r = Returned 0 /\ accepted (cb c) (calls w) more
             /\ argv w' = argv w)
            \/ (r = Returned CLIP_ERR_CB_FAIL
                /\ rejected_last (cb c) (calls w) more)
            \/ (r = Returned CLIP_ERR_BAD_ARG
                /\ accepted (cb c) (calls w) more)
            \/ (r = Undefined /\ accepted (cb c) (calls w) more))
  end.

Lemma ends_step_ends c w f :
  index c < argc w ->
  ends (set_index c (index c + 1)) w f -> step_ends c w f.
Proof.
  intros I. destruct f as [c' w'|r c' w']; simpl.
  - intros (more & C & F & A & Av & Ix). exists more.
    split; [exact C|]. split; [exact F|]. split; [exact A|].
    split; [exact Av | lia].
  - intros (more & C & F & Ix & H). exists more.
    split; [exact C|]. split; [exact F|]. split; [lia | exact H].
Qed.

Lemma main_step_ends c w :
  index c < argc w -> step_ends c w (main_step c w).
Proof.
  intros I. unfold main_step; cbv zeta.
  set (c1 := set_index c (index c + 1)).
  set (arg := arg_at w (index c)).
  destruct (IS_SHORT_OPT arg);
    [apply ends_step_ends; [exact I | apply short_cluster_ends]|].
  destruct (IS_LONG_OPT arg);
    [apply ends_step_ends; [exact I | apply long_option_ends]|].
  destruct (Ascii.eqb (char_at arg 0) "@").
  { pose proof (cli_do_file_ends c1 (ptr_add arg 1) w) as E.
    pose proof (cli_do_file_finishes c1 (ptr_add arg 1) w) as U.
    destruct (cli_do_file c1 (ptr_add arg 1) w) as [r w1]. simpl in U.
    destruct E as (more & C & F & Av & H).
    assert (Ix : index c1 <= argc w) by (unfold c1; simpl; lia).
    destruct H as [(-> & Ac)|[(-> & R)|[(-> & Ac)|([-> | ->] & Ac)]]]; simpl.
    - exists more. auto 8.
    - exists more. split; [exact C|]. split; [exact F|]. split; [exact Ix|].
      right; left. auto.
    - exists more. split; [exact C|]. split; [exact F|]. split; [exact Ix|].
      right; right; left. auto.
    - exists more. split; [exact C|]. split; [exact F|]. split; [exact Ix|].
      right; right; right. auto.
    - contradiction. }
  apply ends_step_ends; [exact I|].
  destruct (IS_DOUBLE_DASH arg).
  { exists []. rewrite app_nil_r.
    split; [reflexivity|]. split; [constructor|].
    split; [apply Z.le_max_l|].
    left. auto using accepted_nil. }
  destruct (cli__find_any (deref c1 (live c1))) as [opt|] eqn:A;
    [|apply ends_bad_arg].
  unfold invoke. apply ends_call; [reflexivity| |apply Z.le_max_l].
  split; simpl; [|discriminate].
  change (live c1) with (live c) in A. revert A.
  destruct (live c); [intros _ X; discriminate X | intros A; discriminate A].
Qed.

(** How the main loop ends. *)
Definition loop_ends (c : clip) (w : world) (res : outcome * clip * world)
  : Prop :=
  let '(r, c', w') := res in
  exists more,
    calls w' = calls w ++ more /\ Forall for_option more
    /\ index c' <= Z.max (index c) (argc w)
    /\ ((r = Returned 0 /\ accepted (cb c) (calls w) more
         /\ argv w' = argv w)
        \/ (r = Returned CLIP_ERR_CB_FAIL
            /\ rejected_last (cb c) (calls w) more)
        \/ (r = Returned CLIP_ERR_BAD_ARG /\ accepted (cb c) (calls w) more)
        \/ ((r = Undefined \/ r = Unfinished)
            /\ accepted (cb c) (calls w) more)).

Lemma main_loop_ends fuel : forall c w, loop_ends c w (main_loop fuel c w).
Proof.
  induction fuel as [|fuel IH]; intros c w.
  - simpl. destruct (index c <? argc w); exists []; rewrite app_nil_r;
      (split; [reflexivity|]; split; [constructor|]; split; [lia|]).
    + right; right; right. auto using accepted_nil.
    + left. auto using accepted_nil.
  - rewrite main_loop_eq. destruct (index c <? argc w) eqn:L.
    2:{ exists []. rewrite app_nil_r.
        split; [reflexivity|]. split; [constructor|]. split; [lia|].
        left. auto using accepted_nil. }
    apply Z.ltb_lt in L.
    pose proof (main_step_ends c w L) as E.
    pose proof (main_step_ok c w) as K.
    destruct (main_step c w) as [c1 w1|r c1 w1]; simpl in E, K.
    + destruct E as (m1 & C1 & F1 & A1 & Av1 & I1).
      destruct K as (M & _ & Q).
      specialize (IH c1 w1).
      destruct (main_loop fuel c1 w1) as [[r c2] w2].
      destruct IH as (m2 & C2 & F2 & I2 & H).
      assert (Ecb : cb c1 = cb c) by (rewrite M; reflexivity).
      rewrite Ecb, C1 in H. rewrite (argc_quiet _ _ Q) in I2.
      exists (m1 ++ m2).
      split; [rewrite C2, C1; now rewrite app_assoc|].
      split; [now apply Forall_app|]. split; [lia|].
      destruct H as [(-> & Ac & Av)|[(-> & R)|[(-> & Ac)|(U & Ac)]]].
      * left. split; [reflexivity|]. split; [now apply accepted_app|].
        congruence.
      * right; left. split; [reflexivity | now apply rejected_after].
      * right; right; left. split; [reflexivity | now apply accepted_app].
      * right; right; right. split; [exact U | now apply accepted_app].
    + destruct E as (more & C & F & Ix & H). exists more.
      split; [exact C|]. split; [exact F|]. split; [lia|].
      destruct H as [H|[H|[H|(-> & Ac)]]]; auto 8.
Qed.

Lemma set_index_same c : set_index c (index c) = c.
Proof. now destruct c. Qed.

(** The ways a parse that passes the guard goes: no argument, help,
    version, or the main loop from the state the detection left. *)
Lemma cli_parse_cases c w r c' w' :
  index c = 0 ->
  cli_parse c w = (r, c', w') ->
  let c1 := detect (set_index c 1) w in
  (argc w <= 1 /\ r = Returned CLIP_ERR_OK /\ c' = c /\ w' = w)
  \/ (1 < argc w /\ c' = c1 /\ calls w' = calls w /\ argv w' = argv w
      /\ (r = Returned CLIP_ERR_HELP \/ r = Undefined))
  \/ (1 < argc w /\ main_loop (length (argv w)) c1 w = (r, c', w')).
Proof.
  intros I. rewrite cli_parse_eq. apply Z.eqb_eq in I. rewrite I. simpl negb.
  cbv iota. destruct (1 <? argc w) eqn:A.
  2:{ apply Z.ltb_ge in A. intros [= <- <- <-]. left.
      apply Z.eqb_eq in I. rewrite <- I at 1. now rewrite set_index_same. }
  apply Z.ltb_lt in A. cbv zeta.
  destruct (detect_undefined _ _);
    [intros [= <- <- <-]; right; left; auto 8|].
  destruct (prescan _ _) as [[|]|].
  - destruct (cli_summary _ _ _) as [w1|] eqn:E; intros [= <- <- <-].
    + destruct (cli_summary_world _ _ _ _ E) as (Av & _ & Cv & _).
      right; left. auto 8.
    + right; left. auto 8.
  - intros [= <- <- <-]. right; left. auto 8.
  - intros M. right; right. auto.
Qed.

Lemma detect_cb c w : cb (detect c w) = cb c.
Proof.
  pose proof (detect_same_config c w) as S.
  now apply same_config_fields in S as (_ & _ & _ & _ & _ & E & _).
Qed.

(** * The pre-scan for help and version (C3, C4) *)

(** [s] begins with the bytes of [p]. *)
Definition begins_with (p s : string) : bool := memcmp s p (String.length p).

Lemma begins_with_dash_char s ch :
  begins_with (String "-" (String ch EmptyString)) s
  = Ascii.eqb (char_at s 0) "-" && Ascii.eqb (char_at s 1) ch.
Proof.
  unfold begins_with. change (String.length _) with 2%nat.
  rewrite !memcmp_S, !char_at_ptr_add. simpl memcmp. simpl char_at at 2 4.
  now rewrite andb_true_r.
Qed.

Lemma help_hit_same_config c c' a :
  same_config c c' -> help_hit c' a = help_hit c a.
Proof.
  intros S. apply same_config_fields in S as (F & _ & _ & B & _).
  unfold help_hit. now rewrite F, B.
Qed.

Lemma version_hit_same_config c c' a :
  same_config c c' -> version_hit c' a = version_hit c a.
Proof.
  intros S. apply same_config_fields in S as (F & _ & V & B & _).
  unfold version_hit. now rewrite F, B, V.
Qed.

(** What passes the test for help begins with [-h] or [--help]. *)
Lemma help_hit_begins c a :
  help_hit c a = true ->
  begins_with "-h" a = true \/ begins_with "--help" a = true.
Proof.
  unfold help_hit. rewrite begins_with_dash_char. intros H.
  apply andb_true_iff in H as [H _].
  destruct (Ascii.eqb (char_at a 0) "-" && Ascii.eqb (char_at a 1) "h");
    [now left|]. simpl in H. right.
  apply andb_true_iff in H as [H _]. apply andb_true_iff in H as [_ H].
  exact H.
Qed.

(** A token that begins with [-h] passes the test when the flag is set
    and the base group has no [h]. *)
Lemma help_hit_dash_h c a :
  has_flag (flags c) CLIP_FLAG_HELP = true ->
  cli__find_opt_0 (base c) "h" = None ->
  begins_with "-h" a = true -> help_hit c a = true.
Proof.
  intros F N B. rewrite begins_with_dash_char in B.
  unfold help_hit. now rewrite B, N, F.
Qed.

(** The pre-scan stops at the first token that passes a test. *)
Lemma prescan_first_help c pre a post :
  (forall x, In x pre -> version_hit c x = false) ->
  help_hit c a = true ->
  prescan c (pre ++ a :: post) = Some ShowHelp.
Proof.
  intros V H. induction pre as [|x pre IH]; simpl.
  - now rewrite H.
  - destruct (help_hit c x); [reflexivity|].
    rewrite (V x) by now left. apply IH. intros y I. apply V. now right.
Qed.

(** Without a token that passes the test for help the pre-scan can only
    find the version, and the other way round. *)
Lemma prescan_no_help c args :
  (forall x, In x args -> help_hit c x = false) ->
  prescan c args
  = if existsb (version_hit c) args then Some ShowVersion else None.
Proof.
  induction args as [|a args IH]; intros H; simpl; [reflexivity|].
  rewrite (H a) by now left.
  destruct (version_hit c a); [reflexivity|]. simpl.
  apply IH. intros x I. apply H. now right.
Qed.

Lemma prescan_no_version c args :
  (forall x, In x args -> version_hit c x = false) ->
  prescan c args
  = if existsb (help_hit c) args then Some ShowHelp else None.
Proof.
  induction args as [|a args IH]; intros H; simpl; [reflexivity|].
  destruct (help_hit c a); [reflexivity|].
  rewrite (H a) by now left. simpl.
  apply IH. intros x I. apply H. now right.
Qed.

Lemma existsb_ext_in {A} (f g : A -> bool) l :
  (forall x, In x l -> f x = g x) -> existsb f l = existsb g l.
Proof.
  induction l as [|a l IH]; intros H; simpl; [reflexivity|].
  rewrite (H a) by now left. f_equal. apply IH. intros x I. apply H.
  now right.
Qed.

(** The main loop never shows the help or the version: it does not
    return [CLIP_ERR_HELP] and it leaves [def_version] alone. *)
Lemma main_loop_shows_nothing fuel c w r c' w' :
  main_loop fuel c w = (r, c', w') ->
  r <> Returned CLIP_ERR_HELP /\ def_version w' = def_version w.
Proof.
  intros M. pose proof (main_loop_ends fuel c w) as E. rewrite M in E.
  apply main_loop_ok in M as (_ & _ & (D & _) & _). split; [|exact D].
  destruct E as (more & _ & _ & _ & H).
  destruct H as [(-> & _)|[(-> & _)|[(-> & _)|([-> | ->] & _)]]];
    discriminate.
Qed.

(** The parse when no remaining token passes the test for help. *)
Lemma cli_parse_no_help c w :
  index c = 0 -> 1 < argc w ->
  let d := detect (set_index c 1) w in
  let rest := drop (Z.to_nat (index d)) (argv w) in
  (forall x, In x rest -> help_hit c x = false) ->
  cli_parse c w =
    if detect_undefined (set_index c 1) w then (Undefined, d, w)
    else if existsb (version_hit c) rest
    then (Returned CLIP_ERR_HELP, d, emit (err_stream c) (version_line c) w)
    else main_loop (length (argv w)) d w.
Proof.
  intros I A d rest H.
  assert (S : same_config c d).
  { eapply same_config_trans; [|apply detect_same_config].
    destruct c; reflexivity. }
  pose proof (same_config_fields _ _ S) as (F & Pn & V & B & _ & _ & O).
  rewrite cli_parse_eq. apply Z.eqb_eq in I. rewrite I.
  apply Z.ltb_lt in A. rewrite A. simpl negb. cbv iota zeta. fold d rest.
  destruct (detect_undefined (set_index c 1) w); [reflexivity|].
  rewrite prescan_no_help
    by (intros x Hx; rewrite (help_hit_same_config c d x S); auto).
  rewrite (existsb_ext_in (version_hit d) (version_hit c))
    by (intros x _; apply version_hit_same_config, S).
  destruct (existsb (version_hit c) rest); [|reflexivity].
  unfold err_stream, version_line. now rewrite F, Pn, V, O.
Qed.

(** The parse when no remaining token passes the test for the version. *)
Lemma cli_parse_no_version c w :
  index c = 0 -> 1 < argc w ->
  let d := detect (set_index c 1) w in
  let rest := drop (Z.to_nat (index d)) (argv w) in
  (forall x, In x rest -> version_hit c x = false) ->
  cli_parse c w =
    if detect_undefined (set_index c 1) w then (Undefined, d, w)
    else if existsb (help_hit c) rest then
      match cli_summary d (live d) w with
      | Some w' => (Returned CLIP_ERR_HELP, d, w')
      | None => (Undefined, d, w)
      end
    else main_loop (length (argv w)) d w.
Proof.
  intros I A d rest H.
  assert (S : same_config c d).
  { eapply same_config_trans; [|apply detect_same_config].
    destruct c; reflexivity. }
  rewrite cli_parse_eq. apply Z.eqb_eq in I. rewrite I.
  apply Z.ltb_lt in A. rewrite A. simpl negb. cbv iota zeta. fold d rest.
  destruct (detect_undefined (set_index c 1) w); [reflexivity|].
  rewrite prescan_no_version
    by (intros x Hx; rewrite (version_hit_same_config c d x S); auto).
  rewrite (existsb_ext_in (help_hit d) (help_hit c))
    by (intros x _; apply help_hit_same_config, S).
  now destruct (existsb (help_hit c) rest).
Qed.

(** C3, as stated, fails: in [pip install -hx] no argument is [-h] or
    [--help], and the parse renders the help of [install] and returns
    [CLIP_ERR_HELP]. *)
Lemma help_by_prefix :
  let w := start ["pip"; "install"; "-hx"] no_files in
  let '(r, c', w') := cli_parse pip_chars_clip w in
  ~ In "-h" (argv w) /\ ~ In "--help" (argv w)
  /\ r = Returned CLIP_ERR_HELP /\ live c' = Some (Sub 0)
  /\ calls w' = [] /\ written w' <> [].
Proof.
  vm_compute. repeat split; try discriminate.
  - intros [H|[H|[H|[]]]]; discriminate.
  - intros [H|[H|[H|[]]]]; discriminate.
Qed.

(** C3, amended.  With the automatic-help flag set and no [h] option in
    the base group, a remaining token that begins with [-h], with no
    token before it that triggers the automatic version, makes the parse
    call the help renderer for the active sub-command: no call-back is
    invoked for any token, and once the renderer returns the parse
    returns [CLIP_ERR_HELP] (1).  The automatic help is triggered by
    nothing but a remaining token that begins with [-h] or with
    [--help]: a token passes the test for help only if it begins so, and
    when no remaining token passes it the parse is the version line, if a
    token asks for it, or else the main loop, which never returns
    [CLIP_ERR_HELP] and never writes [def_version] as the renderer
    does. *)
Theorem auto_help_prescan (c : clip) (w : world)
  (pre post : list string) (a : string) :
  index c = 0 -> 1 < argc w ->
  detect_undefined (set_index c 1) w = false ->
  let c1 := detect (set_index c 1) w in
  has_flag (flags c) CLIP_FLAG_HELP = true ->
  cli__find_opt_0 (base c) "h" = None ->
  drop (Z.to_nat (index c1)) (argv w) = pre ++ a :: post ->
  begins_with "-h" a = true ->
  (forall x, In x pre -> version_hit c x = false) ->
  match cli_summary c1 (live c1) w with
  | Some w' =>
      cli_parse c w = (Returned CLIP_ERR_HELP, c1, w')
      /\ calls w' = calls w /\ argv w' = argv w
  | None => cli_parse c w = (Undefined, c1, w)
  end
  /\ CLIP_ERR_HELP = 1
  /\ (forall c0 args,
        prescan c0 args = Some ShowHelp ->
        exists x, In x args
                  /\ (begins_with "-h" x = true
                      \/ begins_with "--help" x = true))
  /\ (forall c0 x,
        help_hit c0 x = true ->
        begins_with "-h" x = true \/ begins_with "--help" x = true)
  /\ (forall c0 w0,
        index c0 = 0 -> 1 < argc w0 ->
        let d := detect (set_index c0 1) w0 in
        let rest := drop (Z.to_nat (index d)) (argv w0) in
        (forall x, In x rest -> help_hit c0 x = false) ->
        cli_parse c0 w0 =
          if detect_undefined (set_index c0 1) w0 then (Undefined, d, w0)
          else if existsb (version_hit c0) rest
          then (Returned CLIP_ERR_HELP, d,
                emit (err_stream c0) (version_line c0) w0)
          else main_loop (length (argv w0)) d w0)
  /\ (forall fuel c0 w0 r c' w',
        main_loop fuel c0 w0 = (r, c', w') ->
        r <> Returned CLIP_ERR_HELP /\ def_version w' = def_version w0).
Proof.
  intros I A U c1 F N D B V.
  assert (S : same_config c c1).
  { eapply same_config_trans; [|apply detect_same_config].
    destruct c; reflexivity. }
  assert (P : prescan c1 (drop (Z.to_nat (index c1)) (argv w)) = Some ShowHelp).
  { rewrite D. apply prescan_first_help.
    - intros x Hx. rewrite (version_hit_same_config c c1 x S). auto.
    - rewrite (help_hit_same_config c c1 a S).
      now apply help_hit_dash_h. }
  split; [|split; [reflexivity|split; [|split; [|split]]]].
  - rewrite cli_parse_eq. apply Z.eqb_eq in I. rewrite I.
    apply Z.ltb_lt in A. rewrite A. simpl negb. cbv iota zeta. rewrite U.
    fold c1. rewrite P.
    destruct (cli_summary c1 (live c1) w) as [w'|] eqn:E; [|reflexivity].
    destruct (cli_summary_world _ _ _ _ E) as (Av & _ & Cv & _). auto.
  - intros c0 args H. apply prescan_help in H as (x & Hx & Hh).
    exists x. split; [assumption|]. exact (help_hit_begins c0 x Hh).
  - exact help_hit_begins.
  - exact cli_parse_no_help.
  - exact main_loop_shows_nothing.
Qed.

Lemma auto_help_prescan_witness :
  let w := start ["pip"; "install"; "-hx"] no_files in
  let c1 := detect (set_index pip_chars_clip 1) w in
  match cli_summary c1 (live c1) w with
  | Some w' =>
      cli_parse pip_chars_clip w = (Returned CLIP_ERR_HELP, c1, w')
      /\ calls w' = calls w /\ argv w' = argv w
  | None => cli_parse pip_chars_clip w = (Undefined, c1, w)
  end.
Proof.
  intros w c1.
  refine (proj1 (auto_help_prescan pip_chars_clip w [] [] "-hx"
                   _ _ _ _ _ _ _ _)).
  all: try reflexivity.
  intros x [].
Defined.

(** The two literal tokens and the test for the version. *)
Lemma version_hit_short c :
  version_hit c "-v" = true <->
  has_flag (flags c) CLIP_FLAG_VERSION = true /\ version c <> None
  /\ cli__find_opt_0 (base c) "v" = None.
Proof.
  unfold version_hit. simpl.
  destruct (cli__find_opt_0 (base c) "v"), (version c),
    (has_flag (flags c) CLIP_FLAG_VERSION); simpl; split;
    try discriminate; try (intros (A & B & C); congruence);
    intros _; repeat split; discriminate.
Qed.

Lemma version_hit_long c :
  version_hit c "--version" = true <->
  has_flag (flags c) CLIP_FLAG_VERSION = true /\ version c <> None
  /\ cli__find_opt_0 (base c) "version" = None.
Proof.
  unfold version_hit. simpl.
  destruct (cli__find_opt_0 (base c) "version"), (version c),
    (has_flag (flags c) CLIP_FLAG_VERSION); simpl; split;
    try discriminate; try (intros (A & B & C); congruence);
    intros _; repeat split; discriminate.
Qed.

(** The pre-scan stops at the first token that asks for the version when
    no token up to it asks for help. *)
Lemma prescan_first_version c pre a post :
  (forall x, In x pre -> help_hit c x = false) ->
  help_hit c a = false -> version_hit c a = true ->
  prescan c (pre ++ a :: post) = Some ShowVersion.
Proof.
  intros H Ha Va. induction pre as [|x pre IH]; simpl.
  - now rewrite Ha, Va.
  - rewrite (H x) by now left.
    destruct (version_hit c x); [reflexivity|].
    apply IH. intros y I. apply H. now right.
Qed.

(** The two literal tokens never pass the test for help. *)
Lemma help_hit_version_tokens c :
  help_hit c "-v" = false /\ help_hit c "--version" = false.
Proof. split; unfold help_hit; simpl; now rewrite ?andb_false_r. Qed.

(** C4, as stated, fails: the base group of [ntpd] declares [-v]
    (for [--verbose]), and [ntpd --version] prints the version and
    returns [CLIP_ERR_HELP]. *)
Lemma version_despite_v_option :
  let w := start ["ntpd"; "--version"] no_files in
  let '(r, _, w') := cli_parse ntpd_clip w in
  cli__find_opt_0 (base ntpd_clip) "v" <> None
  /\ r = Returned CLIP_ERR_HELP
  /\ written w' = [(stdout, "ntpd 1.33.0" +:+ LF)] /\ calls w' = [].
Proof. vm_compute. repeat split; discriminate. Qed.

(** C4, amended.  A literal [-v] passes the test for the automatic
    version exactly when the flag is set, a version string is configured
    and the base group has no option with the short key [v]; a literal
    [--version] exactly when the flag is set, a version string is
    configured and the base group has no option with the long name
    [version].  Each form is shadowed by its own name only.  When the
    pre-scan stops at a version token the parse writes the program name
    and the version on one line and returns [CLIP_ERR_HELP] with no
    call-back invoked, and then the flag is set and a version string is
    configured; it stops there when the token passes the test and no
    token up to it asks for help, which [-v] and [--version] never do.
    When no remaining token passes the test the parse does not print the
    version: it is the help, if a token asks for it, or else the main
    loop.  So with a switch [v] declared in the base group [prog -v] is
    an ordinary option: the call-back is invoked for [v] and nothing is
    printed. *)
Theorem auto_version_prescan :
  (forall c,
     version_hit c "-v" = true <->
     has_flag (flags c) CLIP_FLAG_VERSION = true /\ version c <> None
     /\ cli__find_opt_0 (base c) "v" = None)
  /\ (forall c,
        version_hit c "--version" = true <->
        has_flag (flags c) CLIP_FLAG_VERSION = true /\ version c <> None
        /\ cli__find_opt_0 (base c) "version" = None)
  /\ (forall c w,
        index c = 0 -> 1 < argc w ->
        detect_undefined (set_index c 1) w = false ->
        let c1 := detect (set_index c 1) w in
        prescan c1 (drop (Z.to_nat (index c1)) (argv w)) = Some ShowVersion ->
        cli_parse c w
        = (Returned CLIP_ERR_HELP, c1, emit (err_stream c) (version_line c) w)
        /\ has_flag (flags c) CLIP_FLAG_VERSION = true /\ version c <> None)
  /\ (forall c v,
        version c = Some v ->
        has_flag (flags c) CLIP_FLAG_USE_ANSI = false ->
        version_line c = cstr (progname c) +:+ " " +:+ cstr v +:+ LF)
  /\ (forall c w,
        index c = 0 -> 1 < argc w ->
        let d := detect (set_index c 1) w in
        let rest := drop (Z.to_nat (index d)) (argv w) in
        (forall x, In x rest -> version_hit c x = false) ->
        cli_parse c w =
          if detect_undefined (set_index c 1) w then (Undefined, d, w)
          else if existsb (help_hit c) rest then
            match cli_summary d (live d) w with
            | Some w' => (Returned CLIP_ERR_HELP, d, w')
            | None => (Undefined, d, w)
            end
          else main_loop (length (argv w)) d w)
  /\ (forall c w p opt,
        index c = 0 -> argv w = [p; "-v"] ->
        cli__find_opt_0 (base c) "v" = Some opt -> mode opt = 0 ->
        let k := CbCall (Some Base) (Some opt) None in
        let c2 := set_index (detect (set_index c 1) w) 2 in
        cli_parse c w =
          if cb c (calls w) k =? 0
          then (Returned CLIP_ERR_OK, c2, record_call k w)
          else (Returned CLIP_ERR_CB_FAIL, c2, record_call k w))
  /\ (forall c w pre a post,
        index c = 0 -> 1 < argc w ->
        detect_undefined (set_index c 1) w = false ->
        let d := detect (set_index c 1) w in
        drop (Z.to_nat (index d)) (argv w) = pre ++ a :: post ->
        (forall x, In x pre -> help_hit c x = false) ->
        help_hit c a = false -> version_hit c a = true ->
        cli_parse c w
        = (Returned CLIP_ERR_HELP, d, emit (err_stream c) (version_line c) w))
  /\ (forall c, help_hit c "-v" = false /\ help_hit c "--version" = false).
Proof.
  assert (V3 : forall c w,
        index c = 0 -> 1 < argc w ->
        detect_undefined (set_index c 1) w = false ->
        let c1 := detect (set_index c 1) w in
        prescan c1 (drop (Z.to_nat (index c1)) (argv w)) = Some ShowVersion ->
        cli_parse c w
        = (Returned CLIP_ERR_HELP, c1, emit (err_stream c) (version_line c) w)
        /\ has_flag (flags c) CLIP_FLAG_VERSION = true /\ version c <> None).
  { intros c w I A U c1 P.
    assert (S : same_config c c1).
    { eapply same_config_trans; [|apply detect_same_config].
      destruct c; reflexivity. }
    pose proof (same_config_fields _ _ S) as (F & Pn & V & B & _ & _ & O).
    split.
    + rewrite cli_parse_eq. apply Z.eqb_eq in I. rewrite I.
      apply Z.ltb_lt in A. rewrite A. simpl negb. cbv iota zeta. rewrite U.
      fold c1. rewrite P. unfold err_stream, version_line.
      now rewrite F, Pn, V, O.
    + apply prescan_version in P as (x & _ & H).
      rewrite (version_hit_same_config c c1 x S) in H.
      unfold version_hit in H. apply andb_true_iff in H as [_ H].
      apply andb_true_iff in H as [H1 H2]. split; [assumption|].
      destruct (version c); [discriminate | discriminate H2]. }
  assert (Vb : forall c w p opt,
        index c = 0 -> argv w = [p; "-v"] ->
        cli__find_opt_0 (base c) "v" = Some opt -> mode opt = 0 ->
        let k := CbCall (Some Base) (Some opt) None in
        let c2 := set_index (detect (set_index c 1) w) 2 in
        cli_parse c w =
          if cb c (calls w) k =? 0
          then (Returned CLIP_ERR_OK, c2, record_call k w)
          else (Returned CLIP_ERR_CB_FAIL, c2, record_call k w)).
  { intros c w p opt I A F M k c2.
    assert (Bp : base_ptr c = Some Base).
    { unfold base_ptr. destruct (base c); [reflexivity | discriminate F]. }
    set (c1 := set_live (set_index c 1) (Some Base)).
    assert (T : arg_at w 1 = "-v") by (unfold arg_at; now rewrite A).
    assert (G : argc w = 2) by (unfold argc; now rewrite A).
    assert (D : detect (set_index c 1) w = c1).
    { unfold detect. change (base_ptr (set_index c 1)) with (base_ptr c).
      rewrite Bp. change (index (set_live (set_index c 1) _)) with 1.
      now rewrite T. }
    assert (U : detect_undefined (set_index c 1) w = false).
    { unfold detect_undefined.
      change (index (set_live (set_index c 1) _)) with 1. now rewrite T. }
    assert (Hv : version_hit c "-v" = false).
    { destruct (version_hit c "-v") eqn:E; [|reflexivity].
      apply version_hit_short in E as (_ & _ & E). congruence. }
    assert (Hh : help_hit c "-v" = false) by apply help_hit_version_tokens.
    unfold c2. rewrite D.
    rewrite cli_parse_no_version; [|exact I | lia |].
    2:{ rewrite D. change (index c1) with 1. rewrite A. simpl.
        intros x [<- | []]. exact Hv. }
    rewrite U, D. change (index c1) with 1. rewrite A.
    change (drop (Z.to_nat 1) [p; "-v"]) with ["-v"].
    cbn [existsb]. rewrite Hh. cbn [orb length]. cbv iota.
    assert (Fo : cli__find_opt (set_index c1 2) (live (set_index c1 2)) "v"
                 = Some (opt, Some Base)).
    { rewrite find_opt_set_index, live_set_index.
      change (live c1) with (Some Base).
      unfold cli__find_opt. simpl deref. change (base c1) with (base c).
      now rewrite F. }
    assert (St : main_step c1 w
                 = if cb c (calls w) k =? 0
                   then Next (set_index c1 2) (record_call k w)
                   else Done (Returned CLIP_ERR_CB_FAIL) (set_index c1 2)
                          (record_call k w)).
    { unfold main_step; cbv zeta. change (index c1) with 1. rewrite T.
      change (IS_SHORT_OPT "-v") with true. cbv iota.
      change (char_at "-v" 1) with "v"%char.
      change (ptr_add "-v" 2) with EmptyString.
      change (set_index c1 (1 + 1)) with (set_index c1 2).
      rewrite (short_cluster_switch _ _ _ _ _ _ Fo M).
      change (cb (set_index c1 2)) with (cb c). fold k.
      now destruct (cb c (calls w) k =? 0). }
    destruct (cb c (calls w) k =? 0) eqn:Cb.
    + rewrite (main_loop_next 1 c1 w (set_index c1 2) (record_call k w));
        [|change (index c1) with 1; lia | exact St].
      apply main_loop_end. change (argc (record_call k w)) with (argc w).
      change (index (set_index c1 2)) with 2. lia.
    + apply main_loop_done; [change (index c1) with 1; lia | exact St]. }
  split; [exact version_hit_short|]. split; [exact version_hit_long|].
  split; [exact V3|].
  split; [intros c v V A; unfold version_line; now rewrite V, A|].
  split; [exact cli_parse_no_version|]. split; [exact Vb|].
  split; [|exact help_hit_version_tokens].
  intros c w pre a post I A U d Dr Hp Ha Va.
  apply (V3 c w I A U). fold d. rewrite Dr.
  assert (S : same_config c d).
  { eapply same_config_trans; [|apply detect_same_config].
    destruct c; reflexivity. }
  apply prescan_first_version.
  - intros x Hx. rewrite (help_hit_same_config c d x S). auto.
  - now rewrite (help_hit_same_config c d a S).
  - now rewrite (version_hit_same_config c d a S).
Qed.

Lemma auto_version_prescan_witness :
  let w := start ["ntpd"; "--version"] no_files in
  let w1 := start ["ntpd"; "-v"] no_files in
  let verbose := CLI_OPT_SWITCH 118 (Some "verbose") (Some "Give more output") in
  cli_parse ntpd_clip w
  = (Returned CLIP_ERR_HELP, detect (set_index ntpd_clip 1) w,
     emit stdout ("ntpd 1.33.0" +:+ LF) w)
  /\ cli_parse ntpd_clip w1
     = (Returned CLIP_ERR_OK, set_index (detect (set_index ntpd_clip 1) w1) 2,
        record_call (CbCall (Some Base) (Some verbose) None) w1).
Proof.
  intros w w1 verbose.
  destruct auto_version_prescan as (_ & _ & _ & _ & _ & Vb & V & _).
  split.
  - refine (V ntpd_clip w [] "--version" [] _ _ _ _ _ _ _);
      try reflexivity.
    intros x [].
  - exact (Vb ntpd_clip w1 "ntpd" verbose eq_refl eq_refl eq_refl eq_refl).
Defined.

(** * Further properties of the parse *)

(** X5.  The detection of a sub-command.  When the first argument
    begins with an alphanumeric character and a table of sub-commands is
    registered, the table is scanned for it.  If the scan is defined and
    finds the name, the active group becomes the first sub-command whose
    name is that argument and the cursor moves past it.  If the scan
    comes to an entry without a name before any match, the detection, and
    with it the parse, is undefined.  In every other case the active
    group is the base group and the cursor stays on the first argument,
    which the main loop then takes: an unknown sub-command is not an
    error of its own. *)
Theorem sub_command_detection (c : clip) (w : world) :
  let c1 := detect (set_index c 1) w in
  let tok := arg_at w 1 in
  if detect_undefined (set_index c 1) w then
    isalnum (code (char_at tok 0)) = true
    /\ (exists l j g, cmds c = Some l /\ l !! j = Some g /\ name g = None
                      /\ forall j' g', (j' < j)%nat -> l !! j' = Some g' ->
                                       name g' <> None /\ ~ named tok g')
    /\ (index c = 0 -> 1 < argc w -> fst (fst (cli_parse c w)) = Undefined)
  else
    match live c1 with
    | Some (Sub i) =>
        index c1 = 2 /\ isalnum (code (char_at tok 0)) = true
        /\ exists l g, cmds c = Some l /\ l !! i = Some g /\ named tok g
                       /\ forall j g', (j < i)%nat -> l !! j = Some g' ->
                                       name g' <> None /\ ~ named tok g'
    | _ =>
        live c1 = base_ptr c /\ index c1 = 1
        /\ (isalnum (code (char_at tok 0)) = false
            \/ forall l j g, cmds c = Some l -> l !! j = Some g ->
                             name g <> None /\ ~ named tok g)
    end.
Proof.
  intros c1 tok.
  assert (B : match base_ptr c with
              | Some (Sub _) => False
              | _ => True
              end).
  { unfold base_ptr. now destruct (base c). }
  destruct (detect_undefined (set_index c 1) w) eqn:U.
  - assert (U' := U). unfold detect_undefined in U.
    change (index (set_live (set_index c 1) (base_ptr (set_index c 1))))
      with 1 in U.
    change (cmds (set_live (set_index c 1) (base_ptr (set_index c 1))))
      with (cmds c) in U.
    fold tok in U. apply andb_true_iff in U as [A U].
    split; [exact A|]. split.
    + destruct (cmds c) as [l|] eqn:Cm; [|discriminate U].
      unfold cli__find_cmd in U.
      change (cmds (set_live (set_index c 1) (base_ptr (set_index c 1))))
        with (cmds c) in U.
      rewrite Cm in U.
      pose proof (find_cmd_from_spec l 0 tok) as H.
      destruct (find_cmd_from l 0 tok); try discriminate U.
      destruct H as (j & g & L & N & F). exists l, j, g. auto.
    + intros I Ar. rewrite cli_parse_eq. apply Z.eqb_eq in I. rewrite I.
      apply Z.ltb_lt in Ar. rewrite Ar. simpl negb. cbv iota zeta.
      now rewrite U'.
  - unfold detect_undefined in U. unfold c1, detect.
    change (index (set_live (set_index c 1) (base_ptr (set_index c 1))))
      with 1 in U |- *.
    change (base_ptr (set_index c 1)) with (base_ptr c) in U |- *.
    change (cmds (set_live (set_index c 1) (base_ptr c))) with (cmds c)
      in U |- *.
    fold tok in U |- *.
    destruct (isalnum (code (char_at tok 0))) eqn:A.
    2:{ simpl. destruct (base_ptr c) as [[|i]|]; auto; contradiction. }
    simpl in U.
    destruct (cmds c) as [l|] eqn:Cm.
    2:{ simpl. destruct (base_ptr c) as [[|i]|]; try contradiction;
          (split; [reflexivity|]; split; [reflexivity|]; right;
           intros l j g H; discriminate). }
    unfold cli__find_cmd in U |- *.
    change (cmds (set_live (set_index c 1) (base_ptr c))) with (cmds c)
      in U |- *.
    rewrite Cm in U |- *.
    pose proof (find_cmd_from_spec l 0 tok) as H.
    destruct (find_cmd_from l 0 tok) as [i| |]; [| |discriminate U].
    + simpl. destruct H as (j & g & -> & L & N & F).
      split; [reflexivity|]. split; [reflexivity|]. exists l, g. auto.
    + simpl. destruct (base_ptr c) as [[|i]|]; try contradiction;
        (split; [reflexivity|]; split; [reflexivity|]; right;
         intros l' j g [= <-]; apply H).
Qed.

(** X6.  What [cli_parse] returns.  The code is one of
    [CLIP_ERR_OK], [CLIP_ERR_HELP], [CLIP_ERR_INVALID],
    [CLIP_ERR_CB_FAIL] and [CLIP_ERR_BAD_ARG], unless the call reaches
    undefined behaviour; [CLIP_ERR_BAD_SUBCMD] is never returned;
    [CLIP_ERR_INVALID] is returned exactly when the cursor was not zero
    on entry; and with [CLIP_ERR_HELP] no call-back was invoked and the
    arguments are as they were. *)
Theorem parse_return_codes (c : clip) (w : world)
  (r : outcome) (c' : clip) (w' : world) :
  cli_parse c w = (r, c', w') ->
  (r = Returned CLIP_ERR_OK \/ r = Returned CLIP_ERR_HELP
   \/ r = Returned CLIP_ERR_INVALID \/ r = Returned CLIP_ERR_CB_FAIL
   \/ r = Returned CLIP_ERR_BAD_ARG \/ r = Undefined)
  /\ r <> Returned CLIP_ERR_BAD_SUBCMD
  /\ (r = Returned CLIP_ERR_INVALID <-> index c <> 0)
  /\ (r = Returned CLIP_ERR_HELP -> calls w' = calls w /\ argv w' = argv w).
Proof.
  intros P.
  destruct (Z.eq_dec (index c) 0) as [I|I].
  2:{ rewrite cli_parse_eq in P. apply Z.eqb_neq in I. rewrite I in P.
      injection P as <- <- <-. apply Z.eqb_neq in I.
      repeat split; auto; try discriminate. }
  assert (X :
    (r = Returned CLIP_ERR_OK \/ r = Returned CLIP_ERR_HELP
     \/ r = Returned CLIP_ERR_CB_FAIL \/ r = Returned CLIP_ERR_BAD_ARG
     \/ r = Undefined)
    /\ (r = Returned CLIP_ERR_HELP -> calls w' = calls w /\ argv w' = argv w)).
  { pose proof (cli_parse_finishes c w) as U. rewrite P in U. simpl in U.
    apply cli_parse_cases in P; [|exact I].
    destruct P as [(_ & -> & _ & ->)|[(_ & _ & C & A & [-> | ->])|(_ & M)]];
      try (split; [auto 8 | auto; discriminate]).
    pose proof (main_loop_ends (length (argv w)) (detect (set_index c 1) w) w)
      as E. rewrite M in E. destruct E as (more & _ & _ & _ & H).
    destruct H as [(-> & _)|[(-> & _)|[(-> & _)|([-> | ->] & _)]]];
      try (split; [auto 8 | discriminate]).
    contradiction. }
  destruct X as (R & H). split; [|split; [|split]].
  - destruct R as [->|[->|[->|[->| ->]]]]; auto 8.
  - destruct R as [->|[->|[->|[->| ->]]]]; discriminate.
  - split; [|contradiction].
    destruct R as [->|[->|[->|[->| ->]]]]; discriminate.
  - exact H.
Qed.

Lemma parse_return_codes_witness :
  let res := cli_parse pip_clip (start ["pip"; "install"; "-x"] no_files) in
  let r := fst (fst res) in
  r = Returned CLIP_ERR_OK \/ r = Returned CLIP_ERR_HELP
  \/ r = Returned CLIP_ERR_INVALID \/ r = Returned CLIP_ERR_CB_FAIL
  \/ r = Returned CLIP_ERR_BAD_ARG \/ r = Undefined.
Proof.
  intros res r.
  refine (proj1 (parse_return_codes pip_clip
            (start ["pip"; "install"; "-x"] no_files)
            r (snd (fst res)) (snd res) _)).
  vm_compute; reflexivity.
Defined.

(** X7.  The cursor after a parse that passed the guard.  Without an
    argument after the program name the parse succeeds and nothing at all
    is changed; otherwise the cursor ends on an argument or just past the
    last one: [1 <= clip->index <= argc]. *)
Theorem cursor_after_parse (c : clip) (w : world)
  (r : outcome) (c' : clip) (w' : world) :
  index c = 0 ->
  cli_parse c w = (r, c', w') ->
  (argc w <= 1 -> r = Returned CLIP_ERR_OK /\ c' = c /\ w' = w)
  /\ (1 < argc w -> 1 <= index c' <= argc w).
Proof.
  intros I P. apply cli_parse_cases in P; [|exact I].
  pose proof (detect_index (set_index c 1) w) as D. simpl in D.
  destruct P as [(A & -> & -> & ->)|[(A & -> & _)|(A & M)]].
  - split; [auto | lia].
  - split; [lia|]. intros _. split; [lia|].
    assert (X : index (detect (set_index c 1) w) = 1
                \/ index (detect (set_index c 1) w) = 2) by lia.
    destruct X as [X|X]; [lia|]. rewrite X.
    (* the detection advanced: an argument was there to match *)
    lia.
  - split; [lia|]. intros _.
    pose proof (main_loop_ends (length (argv w)) (detect (set_index c 1) w) w)
      as E. pose proof (main_loop_ok _ _ _ _ _ _ M) as (_ & L & _).
    rewrite M in E. destruct E as (more & _ & _ & Ix & _).
    split; [lia|]. lia.
Qed.

(** How a parse ends, whatever the guard and the pre-scan decide. *)
Definition parse_ends (c : clip) (w : world) (res : outcome * clip * world)
  : Prop :=
  let '(r, c', w') := res in
  exists more,
    calls w' = calls w ++ more /\ Forall for_option more
    /\ ((r = Returned CLIP_ERR_OK /\ accepted (cb c) (calls w) more
         /\ argv w' = argv w)
        \/ (r = Returned CLIP_ERR_CB_FAIL
            /\ rejected_last (cb c) (calls w) more)
        \/ (r <> Returned CLIP_ERR_OK /\ r <> Returned CLIP_ERR_CB_FAIL
            /\ accepted (cb c) (calls w) more)).

Lemma cli_parse_ends c w : parse_ends c w (cli_parse c w).
Proof.
  destruct (cli_parse c w) as [[r c'] w'] eqn:P. simpl.
  assert (Q : forall w0 x, x <> Returned CLIP_ERR_OK ->
              x <> Returned CLIP_ERR_CB_FAIL -> calls w0 = calls w ->
              exists more, calls w0 = calls w ++ more /\ Forall for_option more
                /\ ((x = Returned CLIP_ERR_OK /\ accepted (cb c) (calls w) more
                     /\ argv w0 = argv w)
                    \/ (x = Returned CLIP_ERR_CB_FAIL
                        /\ rejected_last (cb c) (calls w) more)
                    \/ (x <> Returned CLIP_ERR_OK
                        /\ x <> Returned CLIP_ERR_CB_FAIL
                        /\ accepted (cb c) (calls w) more))).
  { intros w0 x N1 N2 C. exists []. rewrite app_nil_r.
    split; [exact C|]. split; [constructor|]. right; right.
    auto using accepted_nil. }
  destruct (Z.eq_dec (index c) 0) as [I|I].
  2:{ rewrite cli_parse_eq in P. apply Z.eqb_neq in I. rewrite I in P.
      injection P as <- <- <-. apply Q; [discriminate..|reflexivity]. }
  apply cli_parse_cases in P; [|exact I].
  destruct P as [(_ & -> & _ & ->)|[(_ & _ & C & A & [-> | ->])|(_ & M)]];
    try (apply Q; [discriminate..|exact C]).
  - exists []. rewrite app_nil_r. split; [reflexivity|].
    split; [constructor|]. left. auto using accepted_nil.
  - pose proof (main_loop_ends (length (argv w)) (detect (set_index c 1) w) w)
      as E. rewrite M in E. destruct E as (more & C & F & _ & H).
    rewrite detect_cb in H. change (cb (set_index c 1)) with (cb c) in H.
    exists more. split; [exact C|]. split; [exact F|].
    destruct H as [H|[H|[(-> & Ac)|([-> | ->] & Ac)]]]; auto;
      right; right; (split; [discriminate|]; split; [discriminate | exact Ac]).
Qed.

(** X8.  Every invocation of the call-back that a parse makes is for
    an option: the invocations are appended to those made before, and in
    each of them the pointer to the group and the pointer to the descriptor
    are both non-null.  This holds for options of the command line, bare
    arguments given to a catch-all descriptor and lines of argument files
    alike. *)
Theorem callback_always_names_an_option (c : clip) (w : world) :
  exists more,
    calls (snd (cli_parse c w)) = calls w ++ more
    /\ Forall (fun k => cb_cmd k <> None /\ cb_opt k <> None) more.
Proof.
  pose proof (cli_parse_ends c w) as E.
  destruct (cli_parse c w) as [[r c'] w']. simpl in *.
  destruct E as (more & C & F & _). exists more. split; [exact C | exact F].
Qed.

(** X9.  The parse stops at the first invocation the call-back
    rejects.  [CLIP_ERR_CB_FAIL] is returned exactly when the last
    invocation made returned a value other than zero, all the ones before
    it having returned zero; with every other result each invocation made
    returned zero.  So a call-back that always returns zero never yields
    [CLIP_ERR_CB_FAIL]. *)
Theorem parse_stops_at_first_rejection (c : clip) (w : world) :
  let r := fst (fst (cli_parse c w)) in
  let w' := snd (cli_parse c w) in
  exists more,
    calls w' = calls w ++ more
    /\ (r = Returned CLIP_ERR_CB_FAIL <-> rejected_last (cb c) (calls w) more)
    /\ (r <> Returned CLIP_ERR_CB_FAIL <-> accepted (cb c) (calls w) more)
    /\ ((forall h k, cb c h k = 0) -> r <> Returned CLIP_ERR_CB_FAIL).
Proof.
  pose proof (cli_parse_ends c w) as E.
  destruct (cli_parse c w) as [[r c'] w']. simpl in *.
  destruct E as (more & C & _ & H). exists more. split; [exact C|].
  assert (X : forall m, rejected_last (cb c) (calls w) m ->
                        accepted (cb c) (calls w) m -> False).
  { intros m (pre & k & -> & _ & R) A. apply R. apply (A pre k []).
    reflexivity. }
  assert (Y : (r = Returned CLIP_ERR_CB_FAIL
               /\ rejected_last (cb c) (calls w) more)
              \/ (r <> Returned CLIP_ERR_CB_FAIL
                  /\ accepted (cb c) (calls w) more)).
  { destruct H as [(-> & A & _)|[(-> & R)|(_ & Ne & A)]].
    - right. split; [discriminate | exact A].
    - left. split; [reflexivity | exact R].
    - right. split; [exact Ne | exact A]. }
  split; [|split].
  - split.
    + intros ->. destruct Y as [(_ & R)|(Ne & _)]; [exact R | contradiction].
    + intros R. destruct Y as [(E & _)|(_ & A)]; [exact E|].
      destruct (X _ R A).
  - split.
    + intros Ne. destruct Y as [(E & _)|(_ & A)]; [contradiction | exact A].
    + intros A ->. destruct Y as [(_ & R)|(Ne & _)]; [|contradiction].
      destruct (X _ R A).
  - intros Z ->. destruct Y as [(_ & (pre & k & _ & _ & R))|(Ne & _)];
      [apply R, Z | contradiction].
Qed.

Definition eq_clip : clip :=
  Clip 0 "prog" None None None
    (Some (CLI_CMD None [CLI_OPT_VALUE 111 (Some "out") (Some "file") None]))
    None quiet_cb None 0 None.

(** X10.  A parse that succeeds, or that shows the help or the
    version, leaves every argument string as it found it: each [=] of a
    long option that was overwritten to end the key has been written back.
    A parse that fails need not: after [prog --bogus=1] the argument reads
    [--bogus]. *)
Theorem arguments_restored_on_success (c : clip) (w : world)
  (r : outcome) (c' : clip) (w' : world) :
  cli_parse c w = (r, c', w') ->
  (r = Returned CLIP_ERR_OK \/ r = Returned CLIP_ERR_HELP -> argv w' = argv w)
  /\ length (argv w') = length (argv w)
  /\ exists w0 : world,
       let res := cli_parse eq_clip w0 in
       fst (fst res) = Returned CLIP_ERR_BAD_ARG
       /\ argv w0 = ["prog"; "--bogus=1"]
       /\ map cstr (argv (snd res)) = ["prog"; "--bogus"].
Proof.
  intros P. split; [|split].
  - pose proof (cli_parse_ends c w) as E. rewrite P in E. simpl in E.
    destruct E as (more & _ & _ & H).
    destruct (Z.eq_dec (index c) 0) as [I|I].
    2:{ rewrite cli_parse_eq in P. apply Z.eqb_neq in I. rewrite I in P.
        now injection P as <- <- <-. }
    intros [-> | ->].
    + destruct H as [(_ & _ & A)|[(X & _)|(X & _)]];
        [exact A | discriminate X | contradiction].
    + apply cli_parse_cases in P; [|exact I].
      destruct P as [(_ & X & _)|[(_ & _ & _ & A & _)|(_ & M)]];
        [discriminate X | exact A |].
      pose proof (main_loop_ends (length (argv w)) (detect (set_index c 1) w) w)
        as E. rewrite M in E. destruct E as (m & _ & _ & _ & E).
      destruct E as [(X & _)|[(X & _)|[(X & _)|([X | X] & _)]]];
        discriminate X.
  - now apply cli_parse_frame in P as (_ & _ & L & _).
  - exists (start ["prog"; "--bogus=1"] no_files). vm_compute. auto.
Qed.

Lemma arguments_restored_on_success_witness :
  let w := start ["prog"; "--out=a.txt"; "-o"; "b"] no_files in
  argv (snd (cli_parse eq_clip w)) = argv w.
Proof.
  intros w.
  refine (proj1 (arguments_restored_on_success eq_clip w
                   (Returned CLIP_ERR_OK)
                   (snd (fst (cli_parse eq_clip w)))
                   (snd (cli_parse eq_clip w)) _) _).
  - vm_compute; reflexivity.
  - left; reflexivity.
Defined.

Lemma cursor_after_parse_witness :
  let res := cli_parse pip_clip (start ["pip"; "install"; "-x"] no_files) in
  1 <= index (snd (fst res)) <= 3.
Proof.
  intros res.
  refine (proj2 (cursor_after_parse pip_clip
            (start ["pip"; "install"; "-x"] no_files)
            (fst (fst res)) (snd (fst res)) (snd res) _ _) _).
  - reflexivity.
  - vm_compute; reflexivity.
  - vm_compute; reflexivity.
Defined.

(** X11.  The loops of the parser end.  The model bounds the main loop
    by the number of arguments and the loop of the loader by the length of
    the file, and neither bound is ever what stops a loop: each round of
    the main loop takes at least one argument and each round of the loader
    at least one byte of the file. *)
Theorem parse_terminates (c : clip) (w : world) :
  fst (fst (cli_parse c w)) <> Unfinished
  /\ (forall file, fst (cli_do_file c file w) <> Unfinished)
  /\ (forall fuel, argc w - index c <= Z.of_nat fuel ->
        fst (fst (main_loop fuel c w)) <> Unfinished)
  /\ (forall fuel f, (String.length f <= fuel)%nat ->
        fst (do_file_loop fuel c f w) <> Unfinished).
Proof.
  split; [|split; [|split]].
  - rewrite cli_parse_eq.
    destruct (negb (index c =? 0)); [discriminate|].
    destruct (1 <? argc w) eqn:A; [|discriminate]. cbv zeta.
    pose proof (detect_index (set_index c 1) w) as I; simpl in I.
    destruct (detect_undefined _ _); [discriminate|].
    destruct (prescan _ _) as [[|]|].
    + destruct (cli_summary _ _ _); discriminate.
    + discriminate.
    + destruct (main_loop _ _ _) as [[r c'] w'] eqn:M.
      apply main_loop_ok in M as (_ & _ & _ & U). simpl. apply U.
      unfold argc. lia.
  - intros file. apply cli_do_file_finishes.
  - intros fuel L. destruct (main_loop fuel c w) as [[r c'] w'] eqn:M.
    apply main_loop_ok in M as (_ & _ & _ & U). simpl. now apply U.
  - intros fuel f L. now apply do_file_loop_finishes.
Qed.

(** ** Tokens the main loop and the pre-scan see differently *)

(** The bytes of a buffer up to and including the NUL that ends its C
    string are those of the C string. *)
Lemma char_at_within s : forall i,
  (i <= strlen s)%nat -> char_at s i = char_at (cstr s) i.
Proof.
  unfold strlen.
  induction s as [|d r IH]; intros i L; [reflexivity|].
  simpl in L |- *. destruct (Ascii.eqb d NUL) eqn:E.
  - simpl in L. assert (i = 0%nat) as -> by lia.
    apply Ascii.eqb_eq in E. now subst d.
  - destruct i as [|i]; [reflexivity|]. simpl in L.
    unfold char_at in *. simpl. apply IH. lia.
Qed.

Lemma double_dash_chars arg :
  cstr arg = "--" ->
  char_at arg 0 = "-"%char /\ char_at arg 1 = "-"%char /\ char_at arg 2 = NUL.
Proof.
  intros E.
  assert (L : strlen arg = 2%nat) by (unfold strlen; now rewrite E).
  rewrite (char_at_within arg 0), (char_at_within arg 1),
    (char_at_within arg 2) by lia.
  rewrite E. auto.
Qed.

(** X12.  The argument [--].  The main loop stops at it with
    [CLIP_ERR_OK]: the cursor is left just past it, no call-back is
    invoked for it and nothing after it is looked at by the loop.  The
    pre-scan for help and version does not stop at it: it passes [--] by
    and goes on to the arguments after it. *)
Theorem double_dash_ends_the_loop (c : clip) (w : world) (fuel : nat) :
  index c < argc w ->
  cstr (arg_at w (index c)) = "--" ->
  main_loop (S fuel) c w
  = (Returned CLIP_ERR_OK, set_index c (index c + 1), w)
  /\ forall c0 rest,
       prescan c0 (arg_at w (index c) :: rest) = prescan c0 rest.
Proof.
  intros I E. destruct (double_dash_chars _ E) as (C0 & C1 & C2).
  assert (L : strlen (arg_at w (index c)) = 2%nat)
    by (unfold strlen; now rewrite E).
  split.
  - apply main_loop_done; [exact I|].
    unfold main_step, IS_SHORT_OPT, IS_LONG_OPT, IS_DOUBLE_DASH; cbv zeta.
    rewrite C0, C1, C2. reflexivity.
  - intros c0 rest. simpl.
    unfold help_hit, version_hit. rewrite C0, C1, L. reflexivity.
Qed.

Lemma double_dash_ends_the_loop_witness :
  main_loop 3 (set_index pip_clip 1) (start ["pip"; "--"; "-x"] no_files)
  = (Returned CLIP_ERR_OK, set_index (set_index pip_clip 1) 2,
     start ["pip"; "--"; "-x"] no_files).
Proof.
  refine (proj1 (double_dash_ends_the_loop (set_index pip_clip 1)
                   (start ["pip"; "--"; "-x"] no_files) 2 _ _)).
  - reflexivity.
  - reflexivity.
Defined.

Lemma find_opt_base_live c str :
  cli__find_opt_0 (base c) str = None ->
  cli__find_opt c (base_ptr c) str = None.
Proof.
  unfold cli__find_opt, base_ptr. intros H.
  destruct (base c) as [g|] eqn:B; simpl; rewrite ?B, ?H; reflexivity.
Qed.

(** X13.  The argument [--help], alone.  The test of the pre-scan for
    the long form asks for more than six characters, so [--help] itself
    never triggers the automatic help, whatever the flags: only a longer
    token that begins with [--help] does ([--help=1], [--helpx]).  With
    no option [help] declared in the base group, [prog --help] is
    therefore an unknown option: one diagnostic, no call-back, and
    [CLIP_ERR_BAD_ARG]. *)
Theorem long_help_alone_is_no_help (c : clip) :
  help_hit c "--help" = false
  /\ (has_flag (flags c) CLIP_FLAG_HELP = true ->
      cli__find_opt_0 (base c) "help" = None ->
      forall a, begins_with "--help" a = true -> (7 <= strlen a)%nat ->
                help_hit c a = true)
  /\ (index c = 0 ->
      cli__find_opt_0 (base c) "help" = None ->
      forall w p, argv w = [p; "--help"] ->
      exists c' w' text,
        cli_parse c w = (Returned CLIP_ERR_BAD_ARG, c', w')
        /\ calls w' = calls w
        /\ written w' = written w ++ [(err_stream c, text)]).
Proof.
  split; [|split].
  - unfold help_hit. simpl. reflexivity.
  - intros F N a B L. unfold help_hit. unfold begins_with in B.
    change (String.length "--help") with 6%nat in B. rewrite B, N, F.
    apply Nat.ltb_lt in L. rewrite L.
    now destruct (Ascii.eqb (char_at a 0) "-" && Ascii.eqb (char_at a 1) "h"
                  && is_none (cli__find_opt_0 (base c) "h")).
  - intros I N w p A.
    set (c1 := set_live (set_index c 1) (base_ptr c)).
    assert (T : arg_at w 1 = "--help") by (unfold arg_at; now rewrite A).
    assert (G : argc w = 2) by (unfold argc; now rewrite A).
    assert (D : detect (set_index c 1) w = c1).
    { unfold detect. change (index (set_live (set_index c 1) _)) with 1.
      now rewrite T. }
    assert (U : detect_undefined (set_index c 1) w = false).
    { unfold detect_undefined.
      change (index (set_live (set_index c 1) _)) with 1. now rewrite T. }
    assert (O : offending c1 w = true).
    { unfold offending. change (index c1) with 1. rewrite T.
      change (IS_SHORT_OPT "--help") with false.
      change (IS_LONG_OPT "--help") with true. cbv iota.
      assert (K : long_key w 1 = "help").
      { unfold long_key, long_split, long_eq. rewrite T. simpl.
        now rewrite T. }
      rewrite K. change (live c1) with (base_ptr c).
      replace (cli__find_opt c1 (base_ptr c) "help")
        with (cli__find_opt c (base_ptr c) "help") by reflexivity.
      now rewrite find_opt_base_live. }
    destruct (main_step_offending c1 w O) as (w' & S & C & text & W).
    exists (set_index c1 (index c1 + 1)), w', text.
    split; [|split; [exact C | exact W]].
    rewrite cli_parse_eq. apply Z.eqb_eq in I. rewrite I. simpl negb.
    cbv iota. rewrite G. change (1 <? 2) with true. cbv iota zeta.
    rewrite U, D. change (index c1) with 1. rewrite A. simpl drop.
    assert (P : prescan c1 ["--help"] = None).
    { simpl. unfold help_hit, version_hit. simpl. reflexivity. }
    rewrite P. simpl length.
    apply main_loop_done; [change (index c1) with 1; lia | exact S].
Qed.

(** ** The argument-file loader *)

Lemma find_opt_from_empty l str :
  strlen str = 0%nat -> find_opt_from l str = None.
Proof.
  intros E. induction l as [|opt rest IH]; simpl; [reflexivity|].
  rewrite E, IH. simpl.
  destruct (IS_OPT_END opt); [reflexivity|].
  destruct (negb (Z.land (mode opt) ARG_ANYK =? 0)); [reflexivity|].
  now destruct (a_long opt).
Qed.

Lemma find_opt_empty c p str :
  strlen str = 0%nat -> cli__find_opt c p str = None.
Proof.
  intros E. unfold cli__find_opt, cli__find_opt_0.
  destruct (deref c p); rewrite ?find_opt_from_empty by exact E;
    destruct (negb (ptr_eqb p (base_ptr c))); try reflexivity;
    destruct (base c); rewrite ?find_opt_from_empty by exact E; reflexivity.
Qed.

(** X14.  An empty line in an argument file.  Its key is empty and
    matches no descriptor, so the loader stops there: a file that begins
    with an empty line gives the diagnostic for an invalid option and
    [CLIP_ERR_BAD_ARG], no call-back is invoked and no later line is read.
    A file that cannot be opened gives [CLIP_ERR_BAD_ARG] as well, and an
    empty file is accepted with nothing done. *)
Theorem blank_line_in_argument_file (c : clip) (w : world) (file : string) :
  (strlen file < CLIP_BUFFER_SIZE)%nat ->
  (forall rest, files w (cstr file) = Some (LF +:+ rest) ->
     cli_do_file c file w
     = (Returned CLIP_ERR_BAD_ARG,
        cli_bad_arg (err_stream c) (flags c) 2 "Invalid option:" EmptyString w))
  /\ (files w (cstr file) = None ->
      exists text,
        cli_do_file c file w
        = (Returned CLIP_ERR_BAD_ARG, emit (err_stream c) text w))
  /\ (files w (cstr file) = Some EmptyString ->
      cli_do_file c file w = (Returned CLIP_ERR_OK, w)).
Proof.
  intros L. apply Nat.leb_gt in L.
  split; [|split].
  - intros rest F. unfold cli_do_file. rewrite L, F.
    change (LF +:+ rest) with (String lf rest).
    change (String.length (String lf rest)) with (S (String.length rest)).
    rewrite do_file_loop_eq.
    change (fgets CLIP_BUFFER_SIZE (String lf rest)) with (Some (LF, rest)).
    cbv iota beta.
    assert (X : do_file_line c LF w
                = (CLIP_ERR_BAD_ARG,
                   cli_bad_arg (err_stream c) (flags c) 2
                     "Invalid option:" EmptyString w)).
    { unfold do_file_line. simpl strchr. cbv iota zeta. simpl poke.
      simpl strchr. cbv iota.
      now rewrite find_opt_empty by reflexivity. }
    rewrite X. reflexivity.
  - intros F. unfold cli_do_file. rewrite L, F. eexists; reflexivity.
  - intros F. unfold cli_do_file. rewrite L, F. reflexivity.
Qed.

Lemma blank_line_in_argument_file_witness :
  let w := start ["prog"; "@f"]
             (fun p => if String.eqb p "f" then Some (LF +:+ "verbose" +:+ LF)
                       else None) in
  cli_do_file vf_clip "f" w
  = (Returned CLIP_ERR_BAD_ARG,
     cli_bad_arg (err_stream vf_clip) (flags vf_clip) 2 "Invalid option:" EmptyString w).
Proof.
  intros w.
  refine (proj1 (blank_line_in_argument_file vf_clip w "f" _)
            ("verbose" +:+ LF) _).
  - vm_compute; lia.
  - reflexivity.
Defined.

(** What [fgets_from] takes from a stream. *)
Lemma fgets_from_spec n : forall s,
  let '(b, r) := fgets_from n s in
  b +:+ r = s /\ (String.length b <= n)%nat
  /\ ((exists l, b = l +:+ LF /\ lacks lf l = true)
      \/ (lacks lf b = true /\ (String.length b = n \/ r = EmptyString))).
Proof.
  induction n as [|n IH]; intros [|ch r]; simpl.
  - split; [reflexivity|]. split; [lia|]. right. auto.
  - split; [reflexivity|]. split; [lia|]. right. auto.
  - split; [reflexivity|]. split; [lia|]. right. auto.
  - unfold is_lf. fold lf. destruct (Ascii.eqb ch lf) eqn:E.
    + apply Ascii.eqb_eq in E. subst ch.
      split; [reflexivity|]. split; [simpl; lia|]. left.
      exists EmptyString. split; reflexivity.
    + specialize (IH r). destruct (fgets_from n r) as [b rest].
      destruct IH as (A & Le & H).
      split; [rewrite append_cons; now rewrite A|].
      split; [simpl; lia|].
      destruct H as [(l & -> & Ll)|(Lb & H)].
      * left. exists (String ch l). split; [now rewrite append_cons|].
        simpl. now rewrite E, Ll.
      * right. split; [simpl; now rewrite E, Lb|].
        destruct H as [H|H]; [left; simpl; lia | right; exact H].
Qed.

(** X15.  What [fgets] hands to the loader.  At the end of the file
    it gives nothing.  Otherwise the buffer and what is left of the stream
    make up the stream, the buffer is not empty and holds at most
    [size - 1] bytes, and either it is a whole line, ended by its first
    and only line feed, or it holds no line feed and is full or is the end
    of the file.  So a line longer than the buffer is handed over in
    pieces, each of which the loader takes for a line. *)
Theorem fgets_takes_a_line (size : nat) (s b r : string) :
  (1 < size)%nat ->
  (fgets size s = None <-> s = EmptyString)
  /\ (fgets size s = Some (b, r) ->
      b +:+ r = s
      /\ (0 < String.length b <= size - 1)%nat
      /\ ((exists l, b = l +:+ LF /\ lacks lf l = true)
          \/ (lacks lf b = true
              /\ (String.length b = (size - 1)%nat \/ r = EmptyString)))).
Proof.
  intros Hs. split.
  - unfold fgets. destruct s; split; try reflexivity; discriminate.
  - unfold fgets. destruct s as [|ch t]; [discriminate|].
    pose proof (fgets_from_spec (size - 1) (String ch t)) as H.
    intros E. injection E as E. rewrite E in H.
    destruct H as (A & Le & H). split; [exact A|]. split; [|exact H].
    split; [|exact Le].
    destruct size as [|[|n]]; try lia.
    replace (S (S n) - 1)%nat with (S n) in E by lia. simpl in E.
    destruct (is_lf ch); [injection E as <- _; simpl; lia|].
    destruct (fgets_from n t). injection E as <- _. simpl; lia.
Qed.

Lemma fgets_takes_a_line_witness :
  let s := "verbose" +:+ LF +:+ "file=x" in
  let b := "verbose" +:+ LF in
  let r := "file=x" in
  b +:+ r = s
  /\ (0 < String.length b <= CLIP_BUFFER_SIZE - 1)%nat
  /\ ((exists l, b = l +:+ LF /\ lacks lf l = true)
      \/ (lacks lf b = true
          /\ (String.length b = (CLIP_BUFFER_SIZE - 1)%nat
              \/ r = EmptyString))).
Proof.
  intros s b r.
  refine (proj2 (fgets_takes_a_line CLIP_BUFFER_SIZE s b r _) _).
  - unfold CLIP_BUFFER_SIZE; lia.
  - reflexivity.
Defined.

(** ** The configuration check ([cli_verify], [cmd_verify]) *)

(** The loop of [cmd_verify] and its last test, as compiled with [_DEBUG]
    and without [NDEBUG]: [true] when no assertion fails.  [anys] counts
    the catch-all descriptors met so far. *)
Fixpoint verify_opts (l : list cli_opt) (anys : nat) : bool :=
  match l with
  | [] => Nat.leb anys 1
  | opt :: rest =>
      if IS_OPT_END opt then Nat.leb anys 1
      else if negb (Z.land (mode opt) ARG_REQD =? 0) then
        negb (is_none (tag opt)) && verify_opts rest anys
      else if negb (Z.land (mode opt) ARG_ANYK =? 0) then
        negb (negb (a_short opt =? 0) || negb (is_none (a_long opt)))
        && negb (match tag opt with
                 | None => true
                 | Some t => Nat.eqb (strlen t) 0
                 end)
        && verify_opts rest (S anys)
      else
        negb ((a_short opt =? 0) && is_none (a_long opt))
        && verify_opts rest anys
  end.

Definition cmd_verify (cmd : cli_sub_cmd) : bool := verify_opts (opts cmd) 0.

(** [cli_verify(clip)] for a non-null [clip]: [true] when it returns,
    [false] when an assertion ends the program.  The call-back of the
    model is never null.  The test on the version is written with [&&]
    in the source: it reads [clip->flags && CLIP_FLAG_VERSION]. *)
Definition cli_verify (c : clip) : bool :=
  negb (is_none (base c) && is_none (cmds c))
  && negb ((negb (flags c =? 0) && negb (CLIP_FLAG_VERSION =? 0))
           && is_none (version c))
  && negb (match base c with
           | Some g => negb (is_none (name g))
           | None => false
           end)
  && (match base c with
      | Some g => cmd_verify g
      | None => true
      end)
  && (match cmds c with
      | Some l => forallb (fun g => negb (is_none (name g)) && cmd_verify g) l
      | None => true
      end).

Lemma verify_opts_active l : forall n j opt,
  verify_opts l n = true -> active l !! j = Some opt ->
  Z.land (mode opt) ARG_REQD <> 0 \/ Z.land (mode opt) ARG_ANYK <> 0 ->
  tag opt <> None.
Proof.
  induction l as [|o l IH]; intros n j opt V L M; simpl in *; [discriminate|].
  destruct (IS_OPT_END o); [discriminate|].
  destruct j as [|j]; simpl in L.
  - injection L as ->.
    destruct (Z.land (mode opt) ARG_REQD =? 0) eqn:R; simpl in V.
    + destruct (Z.land (mode opt) ARG_ANYK =? 0) eqn:A; simpl in V.
      * apply Z.eqb_eq in R, A. destruct M; contradiction.
      * apply andb_true_iff in V as [V _]. apply andb_true_iff in V as [_ V].
        destruct (tag opt); [discriminate | discriminate V].
    + apply andb_true_iff in V as [V _]. destruct (tag opt); [discriminate|].
      discriminate V.
  - destruct (Z.land (mode o) ARG_REQD =? 0); simpl in V.
    + destruct (Z.land (mode o) ARG_ANYK =? 0); simpl in V;
        apply andb_true_iff in V as [_ V]; eapply IH; eauto.
    + apply andb_true_iff in V as [_ V]. eapply IH; eauto.
Qed.

Lemma lookup_In {A} (l : list A) : forall i x, l !! i = Some x -> In x l.
Proof.
  induction l as [|y l IH]; intros [|i] x H; simpl in H; try discriminate.
  - injection H as ->. now left.
  - right. eapply IH; eauto.
Qed.

Lemma cli_verify_groups c :
  cli_verify c = true ->
  forall p g, deref c p = Some g -> cmd_verify g = true.
Proof.
  unfold cli_verify. intros V.
  apply andb_true_iff in V as [V Vc]. apply andb_true_iff in V as [_ Vb].
  intros [[|i]|] g; simpl; try discriminate.
  - intros B. now rewrite B in Vb.
  - destruct (cmds c) as [l|]; [|discriminate]. intros L.
    rewrite forallb_forall in Vc.
    assert (I : In g l).
    { eapply lookup_In; eauto. }
    apply Vc in I. now apply andb_true_iff in I as [_ I].
Qed.

(** X16.  What [cli_verify] lets through (in a debug build; otherwise
    it checks nothing).  A configuration it accepts has a base group or a
    table of sub-commands; its base group has no name and each of its
    sub-commands has one; in each of its groups a descriptor that the
    option look-up or [cli__find_any] can return and that has the
    value-required or the catch-all bit has a tag.  Its test on the
    version reads the flags with [&&]: any flag at all, [CLIP_FLAG_HELP]
    alone for one, makes a version string compulsory. *)
Theorem verified_configuration (c : clip) :
  cli_verify c = true ->
  (base c <> None \/ cmds c <> None)
  /\ (flags c <> 0 -> version c <> None)
  /\ (forall g, base c = Some g -> name g = None)
  /\ (forall l i g, cmds c = Some l -> l !! i = Some g -> name g <> None)
  /\ (forall p str opt wh,
        cli__find_opt c p str = Some (opt, wh) ->
        Z.land (mode opt) ARG_REQD <> 0 -> tag opt <> None)
  /\ (forall p opt, cli__find_any (deref c p) = Some opt -> tag opt <> None).
Proof.
  intros V. pose proof (cli_verify_groups c V) as G.
  unfold cli_verify in V.
  apply andb_true_iff in V as [V Vc]. apply andb_true_iff in V as [V _].
  apply andb_true_iff in V as [V Vn]. apply andb_true_iff in V as [V0 Vv].
  split; [|split; [|split; [|split; [|split]]]].
  - destruct (base c); [left; discriminate|].
    destruct (cmds c); [right; discriminate | discriminate V0].
  - intros F. apply Z.eqb_neq in F. rewrite F in Vv.
    destruct (version c); [discriminate | discriminate Vv].
  - intros g B. rewrite B in Vn. destruct (name g); [discriminate Vn|].
    reflexivity.
  - intros l i g Cm L. rewrite Cm in Vc. rewrite forallb_forall in Vc.
    assert (I : In g l).
    { eapply lookup_In; eauto. }
    apply Vc in I. apply andb_true_iff in I as [I _].
    destruct (name g); [discriminate | discriminate I].
  - intros p str opt wh F R.
    assert (X : exists g, (deref c p = Some g \/ base c = Some g)
                          /\ find_opt_from (opts g) str = Some opt).
    { revert F. unfold cli__find_opt, cli__find_opt_0.
      destruct (deref c p) as [g|] eqn:D.
      - destruct (find_opt_from (opts g) str) as [o|] eqn:E.
        + intros [= <- <-]. exists g. auto.
        + destruct (negb (ptr_eqb p (base_ptr c))); [|discriminate].
          destruct (base c) as [b|]; [|discriminate].
          destruct (find_opt_from (opts b) str) as [o|] eqn:E';
            [|discriminate].
          intros [= <- <-]. exists b. auto.
      - destruct (negb (ptr_eqb p (base_ptr c))); [|discriminate].
        destruct (base c) as [b|]; [|discriminate].
        destruct (find_opt_from (opts b) str) as [o|] eqn:E'; [|discriminate].
        intros [= <- <-]. exists b. auto. }
    destruct X as (g & Hg & E).
    assert (Vg : cmd_verify g = true).
    { destruct Hg as [D|B]; [exact (G p g D) | exact (G (Some Base) g B)]. }
    pose proof (find_opt_from_spec (opts g) str) as S. rewrite E in S.
    destruct S as (j & L & _). eapply verify_opts_active; eauto.
  - intros p opt A. destruct (deref c p) as [g|] eqn:D; [|discriminate].
    simpl in A. pose proof (find_any_from_spec (opts g)) as S.
    rewrite A in S. destruct S as (j & L & N & _).
    eapply verify_opts_active; [exact (G p g D) | exact L | auto].
Qed.

(** In a configuration that [cli_verify] accepts every sub-command has a
    name, so the scan for a sub-command is defined. *)
Lemma verified_detect_defined c w :
  cli_verify c = true -> detect_undefined (set_index c 1) w = false.
Proof.
  intros V. unfold detect_undefined.
  destruct (isalnum _); [|reflexivity]. simpl.
  change (cmds (set_live (set_index c 1) (base_ptr (set_index c 1))))
    with (cmds c).
  destruct (cmds c) as [l|] eqn:Cm; [|reflexivity].
  unfold cli__find_cmd.
  change (cmds (set_live (set_index c 1) (base_ptr (set_index c 1))))
    with (cmds c).
  rewrite Cm.
  match goal with
  | |- context [find_cmd_from l 0 ?t] =>
      pose proof (find_cmd_from_spec l 0 t) as H;
      destruct (find_cmd_from l 0 t); try reflexivity
  end.
  destruct H as (j & g & L & N & _).
  unfold cli_verify in V. apply andb_true_iff in V as [_ Vc].
  rewrite Cm in Vc. rewrite forallb_forall in Vc.
  apply lookup_In in L. apply Vc in L. apply andb_true_iff in L as [L _].
  rewrite N in L. discriminate L.
Qed.

Lemma verified_configuration_witness :
  base pip_clip <> None \/ cmds pip_clip <> None.
Proof.
  refine (proj1 (verified_configuration pip_clip _)).
  vm_compute; reflexivity.
Defined.

(** ** The help renderer ([cli_summary], [cli__put_text]) *)

Lemma summary_without_name c g dv :
  base c = Some g -> name g = None -> cli_summary_text c None dv = None.
Proof.
  intros B N. unfold cli_summary_text, base_ptr. rewrite B. simpl deref.
  rewrite B. simpl. rewrite N. reflexivity.
Qed.

(** X17.  The help of the base group.  [cli_summary] copies the name
    of the group it renders with [strcpy], and [cli_verify] wants the base
    group to have none.  So for every configuration that [cli_verify]
    accepts and that has a base group, rendering the base group is
    undefined ([strcpy] from a null pointer), and so is the parse of
    [prog -h] when the automatic help is on and the base group declares no
    [h] of its own. *)
Theorem help_of_base_group_undefined (c : clip) :
  cli_verify c = true -> base c <> None ->
  (forall dv, cli_summary_text c None dv = None)
  /\ (index c = 0 -> has_flag (flags c) CLIP_FLAG_HELP = true ->
      cli__find_opt_0 (base c) "h" = None ->
      forall w p, argv w = [p; "-h"] ->
                  fst (fst (cli_parse c w)) = Undefined).
Proof.
  intros V B. destruct (base c) as [g|] eqn:Bg; [clear B | contradiction].
  assert (N : name g = None).
  { unfold cli_verify in V. rewrite Bg in V.
    apply andb_true_iff in V as [V _]. apply andb_true_iff in V as [V _].
    apply andb_true_iff in V as [_ V]. now destruct (name g). }
  split.
  - intros dv. eapply summary_without_name; eauto.
  - intros I F H w p A.
    set (c1 := set_live (set_index c 1) (base_ptr c)).
    assert (T : arg_at w 1 = "-h") by (unfold arg_at; now rewrite A).
    assert (Ga : argc w = 2) by (unfold argc; now rewrite A).
    assert (D : detect (set_index c 1) w = c1).
    { unfold detect. change (index (set_live (set_index c 1) _)) with 1.
      now rewrite T. }
    assert (U : detect_undefined (set_index c 1) w = false).
    { unfold detect_undefined.
      change (index (set_live (set_index c 1) _)) with 1. now rewrite T. }
    rewrite cli_parse_eq. apply Z.eqb_eq in I. rewrite I. simpl negb.
    cbv iota. rewrite Ga. change (1 <? 2) with true. cbv iota zeta.
    rewrite U, D. change (index c1) with 1. rewrite A. simpl drop.
    assert (P : prescan c1 ["-h"] = Some ShowHelp).
    { simpl. unfold help_hit. change (base c1) with (base c).
      change (flags c1) with (flags c). rewrite Bg, H, F. reflexivity. }
    rewrite P.
    assert (S : cli_summary c1 (live c1) w = None).
    { unfold cli_summary. change (live c1) with (base_ptr c).
      unfold base_ptr at 1. rewrite Bg.
      assert (X : cli_summary_text c1 (Some Base) (def_version w) = None).
      { unfold cli_summary_text. simpl deref. change (base c1) with (base c).
        rewrite Bg. simpl. rewrite N. reflexivity. }
      now rewrite X. }
    now rewrite S.
Qed.

Lemma help_of_base_group_undefined_witness :
  cli_summary_text ntpd_clip None def_version_init = None.
Proof.
  refine (proj1 (help_of_base_group_undefined ntpd_clip _ _) def_version_init).
  - vm_compute; reflexivity.
  - discriminate.
Defined.

Definition tab : ascii := ascii_of_nat 9.

Lemma put_text_from_short t chars : forall i last sp acc,
  (i + String.length chars <= 79)%nat ->
  put_text_from t chars i last sp 0 acc = Some (0%nat, acc).
Proof.
  induction chars as [|ch r IH]; intros i last sp acc L; simpl;
    [reflexivity|].
  simpl in L. destruct (negb (is_blank ch)); [apply IH; lia|].
  assert (X : (78 <? Z.of_nat i - Z.of_nat 0)
              || (Z.of_nat i - Z.of_nat 0 <? 0) = false).
  { apply orb_false_iff. split; [apply Z.ltb_ge | apply Z.ltb_ge]; lia. }
  rewrite X. apply IH; lia.
Qed.

Lemma put_text_from_word t word : forall r i last sp nl acc,
  lacks " " word = true -> lacks tab word = true ->
  put_text_from t (word +:+ r) i last sp nl acc
  = put_text_from t r (i + String.length word) last sp nl acc.
Proof.
  induction word as [|d v IH]; intros r i last sp nl acc S T; str_simpl.
  - now rewrite Nat.add_0_r.
  - simpl in S, T. apply andb_true_iff in S as [S1 S2].
    apply andb_true_iff in T as [T1 T2].
    apply negb_true_iff in S1, T1. unfold is_blank. fold tab.
    rewrite S1, T1. simpl negb. cbv iota. rewrite IH by assumption.
    f_equal. lia.
Qed.

(** X18.  The wrapping of a help text by [cli__put_text].  An empty
    text gives no output; a text of at most 79 characters is written as
    one line, after two spaces; and a text whose first space or tab comes
    after more than 78 other characters cannot be wrapped: the function
    computes [last - nl] with [last] still null, which is undefined. *)
Theorem put_text_wrapping (text : string) :
  (strlen text = 0%nat -> cli__put_text text = Some EmptyString)
  /\ ((0 < strlen text <= 79)%nat ->
      cli__put_text text = Some ("  " +:+ cstr text +:+ LF))
  /\ (forall word b rest,
        text = word +:+ String b rest ->
        lacks NUL word = true -> lacks " " word = true ->
        lacks tab word = true -> is_blank b = true ->
        (78 < String.length word)%nat ->
        cli__put_text text = None).
Proof.
  split; [|split].
  - unfold strlen. intros E. unfold cli__put_text.
    destruct (cstr text); [reflexivity | discriminate].
  - unfold strlen. intros [L0 L]. unfold cli__put_text.
    rewrite put_text_from_short by (simpl; lia). simpl.
    apply Nat.ltb_lt in L0. rewrite L0. reflexivity.
  - intros word b rest -> N S T B L. unfold cli__put_text.
    assert (Bn : Ascii.eqb b NUL = false).
    { unfold is_blank in B. apply orb_true_iff in B as [B|B];
        apply Ascii.eqb_eq in B; subst b; reflexivity. }
    assert (C : cstr (word +:+ String b rest)
                = word +:+ String b (cstr rest)).
    { rewrite cstr_app by exact N. simpl. now rewrite Bn. }
    rewrite C. rewrite put_text_from_word by assumption.
    simpl. rewrite B. simpl negb. cbv iota.
    assert (X : (78 <? Z.of_nat (String.length word) - Z.of_nat 0)
                || (Z.of_nat (String.length word) - Z.of_nat 0 <? 0) = true).
    { apply orb_true_iff. left. apply Z.ltb_lt. lia. }
    simpl Z.of_nat in X. rewrite X. reflexivity.
Qed.

(** ** The forms of a long option *)

Lemma strchr_lacks s ch : lacks ch s = true -> strchr s ch = None.
Proof.
  induction s as [|d r IH]; simpl; [reflexivity|].
  intros H. apply andb_true_iff in H as [D L]. apply negb_true_iff in D.
  rewrite D, IH by exact L. now destruct (Ascii.eqb d NUL).
Qed.

(** The token [--nm], without a [=], at the cursor. *)
Lemma long_plain_token c w nm :
  let i := index c in
  arg_at w i = String "-" (String "-" nm) ->
  isalnum (code (char_at nm 0)) = true ->
  lacks "=" nm = true ->
  long_eq w i = None /\ long_split w i = w /\ long_key w i = nm
  /\ main_step c w = long_option i (set_index c (i + 1)) w.
Proof.
  intros i T N Le.
  assert (E : long_eq w i = None).
  { unfold long_eq. rewrite T. simpl. now apply strchr_lacks. }
  assert (S : long_split w i = w) by (unfold long_split; now rewrite E).
  assert (K : long_key w i = nm) by (unfold long_key; now rewrite S, T).
  assert (C2 : char_at (String "-" (String "-" nm)) 2 = char_at nm 0).
  { destruct nm; [discriminate N | reflexivity]. }
  repeat split; auto.
  unfold main_step; cbv zeta. fold i. rewrite T.
  unfold IS_SHORT_OPT, IS_LONG_OPT. rewrite C2, N. reflexivity.
Qed.

(** The token [--nm=v] at the cursor. *)
Lemma long_inline_token c w nm v :
  let i := index c in
  let c1 := set_index c (i + 1) in
  argv w !! Z.to_nat i = Some (String "-" (String "-" (nm +:+ String "=" v))) ->
  isalnum (code (char_at nm 0)) = true ->
  lacks NUL nm = true -> lacks "=" nm = true ->
  long_eq w i = Some (String.length nm)
  /\ arg_at (long_split w i) i
     = String "-" (String "-" (nm +:+ String NUL v))
  /\ cli__find_opt c1 (live c1) (long_key w i) = cli__find_opt c (live c) nm
  /\ main_step c w = long_option i c1 w.
Proof.
  intros i c1.
  set (tok := String "-" (String "-" (nm +:+ String "=" v))).
  set (held := String "-" (String "-" (nm +:+ String NUL v))).
  intros A N L0 Le.
  assert (T : arg_at w i = tok) by (unfold arg_at; now rewrite A).
  assert (E : long_eq w i = Some (String.length nm)).
  { unfold long_eq. rewrite T. simpl. apply strchr_app; auto; discriminate. }
  assert (H : poke tok (2 + String.length nm) NUL = held).
  { unfold tok, held; simpl. now rewrite poke_app. }
  assert (S : argv (long_split w i) = <[Z.to_nat i := held]> (argv w)).
  { unfold long_split. rewrite E. unfold poke_arg, set_argv. cbn [argv].
    now rewrite T, H. }
  assert (R : (Z.to_nat i < length (argv w))%nat)
    by (eapply lookup_lt_Some; eauto).
  assert (T1 : arg_at (long_split w i) i = held).
  { unfold arg_at. rewrite S, list_lookup_insert_eq; auto. }
  assert (K : cstr (long_key w i) = nm).
  { unfold long_key. rewrite T1. simpl. now apply strlen_app_nul. }
  assert (F : cli__find_opt c1 (live c1) (long_key w i)
              = cli__find_opt c (live c) nm).
  { unfold c1. rewrite find_opt_set_index, live_set_index.
    now rewrite <- find_opt_cstr, K. }
  assert (C2 : char_at tok 2 = char_at nm 0).
  { unfold tok. destruct nm; [discriminate N | reflexivity]. }
  repeat split; auto.
  unfold main_step; cbv zeta. fold i c1. rewrite T.
  unfold IS_SHORT_OPT, IS_LONG_OPT. rewrite C2, N. reflexivity.
Qed.

(** X19.  A long option whose value is the next argument.  For
    [--name] without a [=], where [name] takes a value, the argument after
    it is the value, whatever it looks like (a token that begins with [-]
    is not taken for an option): the call-back is invoked once with it,
    the cursor moves past both arguments, and no argument string is
    written. *)
Theorem long_option_value_in_next_argument (c : clip) (w : world)
  (nm : string) (opt : cli_opt) (cmd : option cmd_ref) :
  let i := index c in
  let k := CbCall cmd (Some opt) (Some (cstr (arg_at w (i + 1)))) in
  let c2 := set_index c (i + 2) in
  arg_at w i = "--" +:+ nm ->
  isalnum (code (char_at nm 0)) = true ->
  lacks "=" nm = true ->
  cli__find_opt c (live c) nm = Some (opt, cmd) ->
  value_required opt = true ->
  i + 1 < argc w ->
  main_step c w =
    if cb c (calls w) k =? 0 then Next c2 (record_call k w)
    else Done (Returned CLIP_ERR_CB_FAIL) c2 (record_call k w).
Proof.
  intros i k c2 T N Le F V I.
  change ("--" +:+ nm) with (String "-" (String "-" nm)) in T.
  destruct (long_plain_token c w nm T N Le) as (E & S & K & M).
  fold i in E, S, K, M. rewrite M. unfold long_option.
  rewrite K, S, E, find_opt_set_index, live_set_index, F.
  unfold value_required in V. apply andb_true_iff in V as [M0 Rq].
  apply negb_true_iff in M0. rewrite M0, Rq.
  change (index (set_index c (i + 1))) with (i + 1).
  apply Z.ltb_lt in I. rewrite I. unfold invoke, long_restore.
  change (cb (set_index (set_index c (i + 1)) (i + 1 + 1))) with (cb c).
  replace (set_index (set_index c (i + 1)) (i + 1 + 1)) with c2
    by (unfold c2; destruct c; simpl; f_equal; lia).
  fold k. now destruct (cb c (calls w) k =? 0).
Qed.

Lemma long_option_value_in_next_argument_witness :
  let w := start ["prog"; "--out"; "--out"] no_files in
  let c := set_index eq_clip 1 in
  let opt := CLI_OPT_VALUE 111 (Some "out") (Some "file") None in
  main_step c w
  = Next (set_index c 3)
      (record_call (CbCall (Some Base) (Some opt) (Some "--out")) w).
Proof.
  intros w c opt.
  refine (long_option_value_in_next_argument c w "out" opt (Some Base)
            _ _ _ _ _ _); reflexivity.
Defined.

(** X20.  A value that is missing, in an argument file and on the
    command line.  The loader does not look at the mode of the descriptor
    it finds: for a line that is the bare name of an option that takes a
    value, the call-back is invoked with a null value.  On the command
    line the same option as the last argument is an error: the diagnostic
    for a missing value, no call-back, and [CLIP_ERR_BAD_ARG]. *)
Theorem missing_value_in_file_and_on_command_line (c : clip) (w : world)
  (key : string) (opt : cli_opt) (cmd : option cmd_ref) :
  let k := CbCall cmd (Some opt) None in
  lacks NUL key = true -> lacks lf key = true -> lacks "=" key = true ->
  lacks " " key = true ->
  cli__find_opt c (live c) key = Some (opt, cmd) ->
  value_required opt = true ->
  do_file_line c (key +:+ LF) w
  = (if cb c (calls w) k =? 0 then 0 else CLIP_ERR_CB_FAIL, record_call k w)
  /\ (arg_at w (index c) = "--" +:+ key ->
      isalnum (code (char_at key 0)) = true ->
      argc w <= index c + 1 ->
      main_step c w
      = Done (Returned CLIP_ERR_BAD_ARG) (set_index c (index c + 1))
          (cli_bad_arg (err_stream c) (flags c) 2
             "Missing required value for" key w)).
Proof.
  intros k Nk Lk Ek Sk F V. split.
  - rewrite do_file_line_bare by assumption. unfold file_dispatch.
    rewrite F. reflexivity.
  - intros T N I.
    change ("--" +:+ key) with (String "-" (String "-" key)) in T.
    destruct (long_plain_token c w key T N Ek) as (E & S & K & M).
    rewrite M. unfold long_option.
    rewrite K, S, E, find_opt_set_index, live_set_index, F.
    unfold value_required in V. apply andb_true_iff in V as [M0 Rq].
    apply negb_true_iff in M0. rewrite M0, Rq.
    change (index (set_index c (index c + 1))) with (index c + 1).
    apply Z.ltb_ge in I. rewrite I. reflexivity.
Qed.

Lemma missing_value_in_file_and_on_command_line_witness :
  let w := start ["prog"; "--out"] no_files in
  let c := set_index eq_clip 1 in
  let opt := CLI_OPT_VALUE 111 (Some "out") (Some "file") None in
  do_file_line c ("out" +:+ LF) w
  = (0, record_call (CbCall (Some Base) (Some opt) None) w).
Proof.
  intros w c opt.
  refine (proj1 (missing_value_in_file_and_on_command_line c w "out" opt
                   (Some Base) _ _ _ _ _ _)); reflexivity.
Defined.

(** X21.  A switch written with a value.  For [--name=value] where
    [name] is a switch, the value is dropped without a word: the call-back
    is invoked once, without a value, and when it accepts the parse goes
    on with the arguments as they were. *)
Theorem switch_ignores_inline_value (c : clip) (w : world)
  (nm v : string) (opt : cli_opt) (cmd : option cmd_ref) :
  let i := index c in
  let c1 := set_index c (i + 1) in
  let k := CbCall cmd (Some opt) None in
  argv w !! Z.to_nat i = Some ("--" +:+ nm +:+ "=" +:+ v) ->
  isalnum (code (char_at nm 0)) = true ->
  lacks NUL nm = true -> lacks "=" nm = true ->
  cli__find_opt c (live c) nm = Some (opt, cmd) ->
  mode opt = 0 ->
  main_step c w =
    if cb c (calls w) k =? 0 then Next c1 (record_call k w)
    else Done (Returned CLIP_ERR_CB_FAIL) c1
           (record_call k (long_split w i)).
Proof.
  intros i c1 k A N L0 Le F M0.
  change ("--" +:+ nm +:+ "=" +:+ v)
    with (String "-" (String "-" (nm +:+ String "=" v))) in A.
  destruct (long_inline_token c w nm v A N L0 Le) as (E & T1 & Fk & M).
  fold i c1 in E, T1, Fk, M. rewrite M. unfold long_option.
  rewrite Fk, F, M0. change (0 =? 0) with true. cbv iota.
  unfold invoke. rewrite calls_long_split.
  rewrite long_restore_record_call. change (cb c1) with (cb c). fold k.
  now destruct (cb c (calls w) k =? 0).
Qed.

Lemma switch_ignores_inline_value_witness :
  let w := start ["prog"; "--verbose=3"] no_files in
  let c := set_index vf_clip 1 in
  let opt := opt_verbose (Some "Give more output.") in
  main_step c w
  = Next (set_index c 2) (record_call (CbCall (Some Base) (Some opt) None) w).
Proof.
  intros w c opt.
  refine (switch_ignores_inline_value c w "verbose" "3" opt (Some Base)
            _ _ _ _ _ _); reflexivity.
Defined.

(** ** Bare arguments *)

(** X22.  An argument that begins with neither [-] nor [@] is a bare
    argument.  It goes, whole, to the catch-all descriptor of the active
    group, through one invocation of the call-back with that group.
    Only the active group is asked: unlike the look-up of an option,
    there is no falling back on the base group, and without a catch-all
    in the active group the parse ends with the diagnostic for an
    unrecognised option and [CLIP_ERR_BAD_ARG]. *)
Theorem bare_argument_goes_to_the_active_catch_all (c : clip) (w : world) :
  let i := index c in
  let arg := arg_at w i in
  let c1 := set_index c (i + 1) in
  char_at arg 0 <> "-"%char -> char_at arg 0 <> "@"%char ->
  main_step c w =
    match cli__find_any (deref c (live c)) with
    | Some opt =>
        let k := CbCall (live c) (Some opt) (Some (cstr arg)) in
        if cb c (calls w) k =? 0 then Next c1 (record_call k w)
        else Done (Returned CLIP_ERR_CB_FAIL) c1 (record_call k w)
    | None =>
        Done (Returned CLIP_ERR_BAD_ARG) c1
          (cli_bad_arg (err_stream c) (flags c) 0 "Unrecognised option:"
             arg w)
    end.
Proof.
  intros i arg c1 D A. apply Ascii.eqb_neq in D, A.
  unfold main_step, IS_SHORT_OPT, IS_LONG_OPT, IS_DOUBLE_DASH; cbv zeta.
  fold i arg c1. rewrite D, A. simpl andb. cbv iota.
  unfold c1 at 1 2. rewrite deref_set_index, live_set_index.
  destruct (cli__find_any (deref c (live c))) as [opt|]; [|reflexivity].
  unfold invoke. change (cb c1) with (cb c). change (live c1) with (live c).
  now destruct (cb c (calls w) _ =? 0).
Qed.

Definition sub_clip : clip :=
  Clip 0 "prog" None None None
    (Some (CLI_CMD None [CLI_OPT_NARGS (Some "FILE") None]))
    (Some [CLI_CMD (Some "run")
             [CLI_OPT_SWITCH 120 None (Some "Trace.")]])
    quiet_cb None 2 (Some (Sub 0)).

Lemma bare_argument_goes_to_the_active_catch_all_witness :
  let w := start ["prog"; "run"; "a.txt"] no_files in
  cli__find_any (base sub_clip) <> None
  /\ main_step sub_clip w
     = Done (Returned CLIP_ERR_BAD_ARG) (set_index sub_clip 3)
         (cli_bad_arg (err_stream sub_clip) (flags sub_clip) 0
            "Unrecognised option:" "a.txt" w).
Proof.
  intros w. split; [discriminate|].
  refine (bare_argument_goes_to_the_active_catch_all sub_clip w _ _);
    discriminate.
Defined.
